(** * QuickScope: an asynchronous TCP port scanner

    A shallow embedding of [src/py_gadgets/tools/quickscope.py] and the
    properties of its port-set builder, target resolver, probe, scheduler
    and renderers.

    Conventions of the embedding:
    - a Python [str] is the Rocq string of its code points, which covers
      the strings whose code points are all below 256; on these the string
      helpers below ([lower], [strip], [int]) do what Python does.
    - a raised exception is [None] in an [option]; an exception that escapes
      [run_scan] or [main] is the outcome [Raised] or [Uncaught];
    - a Python [set] is a [gset]; the [results] dictionary, whose insertion
      order the renderers observe, is an association list;
    - library calls that reach outside the program (the [ipaddress] module,
      [getaddrinfo], the socket operations, [bytes.decode]) are parameters. *)

From Stdlib Require Import Floats.PrimFloat Ascii.
From stdpp Require Import gmap strings list sorting pretty.

Open Scope Z_scope.

(* 0.6 is read as the nearest binary64 value, as Python reads it *)
#[local] Set Warnings "-inexact-float,-register-all,-clear-no-such-hyp".

(** ** Python string helpers *)

Module PyStr.

(** [str.lower] on one character: the letters A-Z, and the capital letters
    among the code points 192-222 (215, the multiplication sign, is none). *)
Definition lower_char (c : ascii) : ascii :=
  let n := nat_of_ascii c in
  if (((65 <=? n) && (n <=? 90))
      || ((192 <=? n) && (n <=? 222) && negb (n =? 215)))%nat
  then ascii_of_nat (n + 32) else c.

Fixpoint lower (s : string) : string :=
  match s with
  | EmptyString => EmptyString
  | String c s' => String (lower_char c) (lower s')
  end.

(** [str.isspace] for one character: tab, line feed, vertical tab, form
    feed, carriage return, the four separators 0x1c-0x1f, space, next line
    (0x85) and no-break space (0xa0). *)
Definition is_space (c : ascii) : bool :=
  let n := nat_of_ascii c in
  (((9 <=? n) && (n <=? 13)) || ((28 <=? n) && (n <=? 32))
   || (n =? 133) || (n =? 160))%nat.

Fixpoint lstrip (s : string) : string :=
  match s with
  | EmptyString => EmptyString
  | String c s' => if is_space c then lstrip s' else s
  end.

Fixpoint rstrip (s : string) : string :=
  match s with
  | EmptyString => EmptyString
  | String c s' =>
      match rstrip s' with
      | EmptyString => if is_space c then EmptyString else String c EmptyString
      | r => String c r
      end
  end.

(** [s.strip()] *)
Definition strip (s : string) : string := rstrip (lstrip s).

(** [sep in s] for a one-character [sep]. *)
Fixpoint contains (sep : ascii) (s : string) : bool :=
  match s with
  | EmptyString => false
  | String c s' => bool_decide (c = sep) || contains sep s'
  end.

(** [s.split(sep)] for a one-character [sep]: never the empty list. *)
Fixpoint split (sep : ascii) (s : string) : list string :=
  match s with
  | EmptyString => [EmptyString]
  | String c s' =>
      if bool_decide (c = sep) then EmptyString :: split sep s'
      else match split sep s' with
           | [] => [String c EmptyString]
           | p :: ps => String c p :: ps
           end
  end.

(** [s.split(sep, 1)] when [sep in s]: the text before the first [sep] and
    the text after it. *)
Fixpoint split_once (sep : ascii) (s : string) : string * string :=
  match s with
  | EmptyString => (EmptyString, EmptyString)
  | String c s' =>
      if bool_decide (c = sep) then (EmptyString, s')
      else let '(a, b) := split_once sep s' in (String c a, b)
  end.

Definition digit_of (c : ascii) : option Z :=
  let n := nat_of_ascii c in
  if ((48 <=? n) && (n <=? 57))%nat then Some (Z.of_nat (n - 48)) else None.

(** The digits of a decimal literal: single underscores are allowed between
    two digits. [prev] tells whether the previous character was a digit. *)
Fixpoint parse_digits (acc : Z) (prev : bool) (s : string) : option Z :=
  match s with
  | EmptyString => if prev then Some acc else None
  | String c s' =>
      match digit_of c with
      | Some d => parse_digits (10 * acc + d) true s'
      | None =>
          if bool_decide (c = "_"%char) && prev then parse_digits acc false s'
          else None
      end
  end.

(** The whitespace that [int] skips around a literal: tab to carriage
    return, space, next line and no-break space. The separators 0x1c-0x1f,
    which [str.strip] removes, are not among them. *)
Definition is_int_space (c : ascii) : bool :=
  let n := nat_of_ascii c in
  (((9 <=? n) && (n <=? 13)) || (n =? 32) || (n =? 133) || (n =? 160))%nat.

Fixpoint skip_leading (s : string) : string :=
  match s with
  | EmptyString => EmptyString
  | String c s' => if is_int_space c then skip_leading s' else s
  end.

Fixpoint skip_trailing (s : string) : string :=
  match s with
  | EmptyString => EmptyString
  | String c s' =>
      match skip_trailing s' with
      | EmptyString => if is_int_space c then EmptyString else String c EmptyString
      | r => String c r
      end
  end.

(** The number of digit characters of a literal. *)
Fixpoint count_digits (s : string) : nat :=
  match s with
  | EmptyString => O
  | String c s' =>
      ((if digit_of c is Some _ then 1 else 0) + count_digits s')%nat
  end.

(** The default of [sys.get_int_max_str_digits()]. *)
Definition int_max_str_digits : nat := 4300.

(** [int(s)] in base ten: surrounding whitespace, an optional sign, then the
    digits, of which there may be at most [int_max_str_digits]. [None] is
    Python's [ValueError]. *)
Definition int (s : string) : option Z :=
  let '(negative, ds) :=
    match skip_trailing (skip_leading s) with
    | String "-"%char ds => (true, ds)
    | String "+"%char ds => (false, ds)
    | ds => (false, ds)
    end in
  if bool_decide (int_max_str_digits < count_digits ds)%nat then None
  else (if negative then Z.opp else id) <$> parse_digits 0 false ds.

End PyStr.

(** ** Sorting

    Python's [sorted] is stable. [sorted] inserts each element in front of
    the first later element that is not smaller, which keeps equal elements
    in their original order. *)

Section Sorted.
Context {A : Type} (le : A → A → bool).

Fixpoint insert_sorted (x : A) (l : list A) : list A :=
  match l with
  | [] => [x]
  | y :: l' => if le x y then x :: l else y :: insert_sorted x l'
  end.

Fixpoint sorted (l : list A) : list A :=
  match l with
  | [] => []
  | x :: l' => insert_sorted x (sorted l')
  end.
End Sorted.

(** [sorted(xs)] on integers *)
Definition sorted_ints : list Z → list Z := sorted Z.leb.

(** ** Port Set Builder *)

Definition COMMON_PORTS : list Z :=
  [21;22;23;25;53;80;110;123;135;139;143;161;389;443;445;465;514;587;631;636;
   8080;8443;25565].

(** [range(a, b)] *)
Definition range (a b : Z) : list Z := seqZ a (b - a).

(** [p for p in out if 1 <= p <= 65535] *)
Definition valid_port (p : Z) : bool := (1 <=? p) && (p <=? 65535).

(** The loop of [parse_ports] over the comma-separated parts, threading the
    set [out]. *)
Fixpoint parse_parts (parts : list string) (out : gset Z) : option (gset Z) :=
  match parts with
  | [] => Some out
  | part :: rest =>
      let part := PyStr.strip part in
      if bool_decide (part = "") then parse_parts rest out
      else if PyStr.contains "-"%char part then
        let '(a, b) := PyStr.split_once "-"%char part in
        a ← PyStr.int a;
        b ← PyStr.int b;
        let '(a, b) := if bool_decide (a > b) then (b, a) else (a, b) in
        parse_parts rest (out ∪ list_to_set (range a (b + 1)))
      else
        p ← PyStr.int part;
        parse_parts rest (out ∪ {[p]})
  end.

Definition parse_ports (s : string) : option (list Z) :=
  if bool_decide (PyStr.lower s = "common") then Some COMMON_PORTS
  else
    out ← parse_parts (PyStr.split ","%char s) ∅;
    Some (sorted_ints (filter (λ p, valid_port p = true) (elements out))).

(** [parse_exclude(s)]: [None] inside is the absent [--exclude] option. *)
Definition parse_exclude (s : option string) : option (gset Z) :=
  match s with
  | Some (String c s') => list_to_set <$> parse_ports (String c s')
  | _ => Some ∅
  end.

(** ** Target Resolver *)

(** The order-preserving de-duplication loop that the source writes three
    times: [seen=set(); out=[]; for x in xs: if x not in seen: ...]. *)
Fixpoint dedup_loop (seen : gset string) (out : list string) (xs : list string)
  : list string :=
  match xs with
  | [] => out
  | x :: xs' =>
      if bool_decide (x ∈ seen) then dedup_loop seen out xs'
      else dedup_loop ({[x]} ∪ seen) (out ++ [x]) xs'
  end.

Definition dedup (xs : list string) : list string := dedup_loop ∅ [] xs.

(** Address families of [getaddrinfo] answers. *)
Inductive family := AF_INET | AF_INET6 | AF_UNSPEC.

Definition is_inet (fam : family) : bool :=
  match fam with AF_INET | AF_INET6 => true | AF_UNSPEC => false end.

Section TargetResolver.
(** [[str(ip) for ip in ipaddress.ip_network(t, strict=False).hosts()]];
    [None] is the [ValueError] of a malformed network. *)
Variable ip_network_hosts : string → option (list string).
(** [ipaddress.ip_address(t)] does not raise. *)
Variable is_ip_address : string → bool.
(** [loop.getaddrinfo(t, None, type=SOCK_STREAM)], reduced to the family
    and [sockaddr[0]] of each answer; [None] is a raised [socket.gaierror]. *)
Variable getaddrinfo : string → option (list (family * string)).

Fixpoint expand_loop (targets : list string) (out : list string)
  : option (list string) :=
  match targets with
  | [] => Some out
  | t :: rest =>
      let t := PyStr.strip t in
      if bool_decide (t = "") then expand_loop rest out
      else if PyStr.contains "/"%char t then
        hosts ← ip_network_hosts t;
        expand_loop rest (out ++ hosts)
      else expand_loop rest (out ++ [t])
  end.

Definition expand_targets (targets : list string) : option (list string) :=
  out ← expand_loop targets [];
  Some (dedup out).

Definition resolve_target (t : string) : option (list string) :=
  if is_ip_address t then Some [t]
  else
    infos ← getaddrinfo t;
    let ips := snd <$> filter (λ i, is_inet i.1 = true) infos in
    Some (dedup ips).

Fixpoint materialize_loop (maybe_names : list string) (ips : list string)
  : option (list string) :=
  match maybe_names with
  | [] => Some ips
  | tok :: rest =>
      if is_ip_address tok then materialize_loop rest (ips ++ [tok])
      else
        resolved ← resolve_target tok;
        materialize_loop rest (ips ++ resolved)
  end.

Definition materialize_ips (maybe_names : list string) : option (list string) :=
  ips ← materialize_loop maybe_names [];
  Some (dedup ips).
End TargetResolver.

(** ** Banner Prober and probe

    The stream operations of one connection attempt are requests to the
    network; a [network] answers each request or raises. *)

Inductive request :=
  | OpenConnection (ip : string) (port : Z) (timeout : float)
  | Write (data : list Byte.byte)
  | Drain
  | Read (n : nat) (timeout : float)
  | Close
  | WaitClosed.

(** [None]: the awaited call raises (refused, unreachable, [TimeoutError]...);
    [Some data]: it returns, [data] being the bytes available to a [Read]. *)
Definition network := request → option (list Byte.byte).

(** Computations that talk to the network, may raise, and log what they
    requested. *)
Definition io (A : Type) : Type := network → list request → option A * list request.

Global Instance io_ret : MRet io := λ A a _ log, (Some a, log).
Global Instance io_bind : MBind io := λ A B f m net log,
  match m net log with
  | (Some a, log') => f a net log'
  | (None, log') => (None, log')
  end.

Definition call (r : request) : io (list Byte.byte) := λ net log, (net r, log ++ [r]).

(** [with suppress(Exception): body], the assigned variable keeping
    [default] when [body] raises *)
Definition suppress {A} (default : A) (body : io A) : io A := λ net log,
  match body net log with
  | (Some a, log') => (Some a, log')
  | (None, log') => (Some default, log')
  end.

(** [try: body / except Exception: return fallback] *)
Definition try_except {A} (body : io A) (fallback : A) : io A :=
  suppress fallback body.

(** [asyncio.wait_for(reader.read(n), timeout)]: at most [n] bytes. *)
Definition reader_read (n : nat) (timeout : float) : io (list Byte.byte) :=
  data ← call (Read n timeout); mret (take n data).

(** Python's [min(a, b)]: [b] only when [b < a]. *)
Definition py_min (a b : float) : float := if PrimFloat.ltb b a then b else a.

Section Probe.
(** [data.decode(errors="ignore")]; [None] would be a raised exception. *)
Variable decode : list Byte.byte → option string.

Definition io_decode (data : list Byte.byte) : io string := λ _ log, (decode data, log).

Definition banner_sequence (timeout : float) : io string :=
  _ ← call (Write [Byte.x0d; Byte.x0a]);
  _ ← call Drain;
  data ← reader_read 128 (py_min 0.6%float timeout);
  text ← io_decode data;
  mret (PyStr.strip text).

Definition probe_io (ip : string) (port : Z) (timeout : float) (do_banner : bool)
  : io (bool * string) :=
  try_except
    (_ ← call (OpenConnection ip port timeout);
     banner ← (if do_banner then suppress "" (banner_sequence timeout)
               else mret "");
     _ ← call Close;
     _ ← suppress [] (call WaitClosed);
     mret (true, banner))
    (false, "").

(** The value [probe] returns and the requests it made. *)
Definition probe (net : network) (ip : string) (port : Z) (timeout : float)
  (do_banner : bool) : bool * string :=
  from_option id (false, "") (probe_io ip port timeout do_banner net []).1.

Definition probe_log (net : network) (ip : string) (port : Z) (timeout : float)
  (do_banner : bool) : list request :=
  (probe_io ip port timeout do_banner net []).2.
End Probe.

(** ** Probe Scheduler *)

(** One result dictionary [{"port": .., "state": .., "banner": ..}]. *)
Record entry := Entry { port : Z; state : string; banner : string }.

Global Instance entry_eq_dec : EqDecision entry.
Proof. solve_decision. Defined.

(** The report: a dictionary from host to its entries, in insertion order. *)
Abbreviation report := (list (string * list entry)).

(** [{ip: [] for ip in ips}]: a repeated key keeps its first position. *)
Definition empty_results (ips : list string) : report :=
  (λ ip, (ip, [])) <$> dedup ips.

(** [results[ip].append(e)] *)
Definition results_append (ip : string) (e : entry) (results : report) : report :=
  (λ kv, if bool_decide (kv.1 = ip) then (kv.1, kv.2 ++ [e]) else kv) <$> results.

Definition is_open (e : entry) : bool := bool_decide (state e = "open").

(** The scheduler between two suspension points. [waiting] are the created
    tasks that have not entered [async with sem], [active] those that hold a
    slot and await their probe, [sem] the semaphore's counter, [done] the
    completed-probe counter; [attempts] records every probe started. *)
Record sched := Sched {
  sem : Z;
  waiting : list (string * Z);
  active : list (string * Z);
  results : report;
  done : nat;
  attempts : list (string * Z)
}.

(** What the event loop does next: let the [i]-th waiting task take a slot, or
    complete the probe of the [j]-th active task against the network
    behaviour [net] that this connection meets. *)
Inductive event :=
  | Acquire (i : nat)
  | Finish (j : nat) (net : network).

Section Scheduler.
Variable decode : list Byte.byte → option string.
Variables (timeout : float) (do_banner open_only : bool).

(** The body of [task(ip, port)] after [probe] returned, up to the release
    of the slot and [done += 1]. *)
Definition task_finish (ip : string) (p : Z) (net : network) (st : sched) : sched :=
  let '(ok, b) := probe decode net ip p timeout do_banner in
  let results' :=
    if ok || negb open_only then
      results_append ip
        (Entry p (if ok then "open" else "closed") (if ok then b else ""))
        (results st)
    else results st in
  Sched (sem st + 1) (waiting st) (active st) results' (S (done st)) (attempts st).

Definition step (st : sched) (ev : event) : option sched :=
  match ev with
  | Acquire i =>
      t ← waiting st !! i;
      if bool_decide (0 < sem st) then
        Some (Sched (sem st - 1) (delete i (waiting st)) (active st ++ [t])
                (results st) (done st) (attempts st ++ [t]))
      else None
  | Finish j net =>
      t ← active st !! j;
      Some (task_finish t.1 t.2 net
              (Sched (sem st) (waiting st) (delete j (active st))
                 (results st) (done st) (attempts st)))
  end.

Fixpoint steps (st : sched) (evs : list event) : option sched :=
  match evs with
  | [] => Some st
  | ev :: evs' => st' ← step st ev; steps st' evs'
  end.

(** [[p for p in ports if p not in exclude]] *)
Definition working_ports (ports : list Z) (exclude : gset Z) : list Z :=
  filter (λ p, p ∉ exclude) ports.

(** [[create_task(task(ip, p)) for ip in ips for p in ports]] *)
Definition create_tasks (ips : list string) (ports : list Z) : list (string * Z) :=
  ip ← ips; p ← ports; [(ip, p)].

(** The state when [gather] starts; [asyncio.Semaphore] raises
    [ValueError] for a negative capacity. *)
Definition scan_start (ips : list string) (ports : list Z)
  (max_concurrency : Z) (exclude : gset Z) : option sched :=
  if bool_decide (max_concurrency < 0) then None
  else Some (Sched max_concurrency
               (create_tasks ips (working_ports ports exclude)) []
               (empty_results ips) 0 []).

(** [{ip: v for ip, v in results.items()
      if v and (not open_only or any(e["state"]=="open" for e in v))}] *)
Definition final_report (results : report) : report :=
  filter (λ kv, kv.2 ≠ [] ∧ (open_only = false ∨ Exists (λ e, is_open e = true) kv.2))
    results.

(** [gather] has returned when no task is left. *)
Definition finished (st : sched) : bool :=
  bool_decide (waiting st = [] ∧ active st = []).
End Scheduler.

(** How a call ends: it returns, an exception escapes it, or the given
    events do not describe a complete execution of it. *)
Inductive exn := ValueError | gaierror.

Inductive outcome (A : Type) :=
  | Returned (a : A)
  | Raised (e : exn)
  | Incomplete.
Arguments Returned {A} a.
Arguments Raised {A} e.
Arguments Incomplete {A}.

(** [run_scan], driven by the events of the loop; the second component is the
    list of probes that were started. [progress] only selects messages on
    standard error, which are not modelled. *)
Definition run_scan (decode : list Byte.byte → option string)
  (ips : list string) (ports : list Z) (timeout : float) (max_concurrency : Z)
  (do_banner progress open_only : bool) (exclude : gset Z) (evs : list event)
  : outcome (report * list (string * Z)) :=
  match scan_start ips ports max_concurrency exclude with
  | None => Raised ValueError
  | Some st0 =>
      match steps decode timeout do_banner open_only st0 evs with
      | Some st =>
          if finished st then Returned (final_report open_only (results st), attempts st)
          else Incomplete
      | None => Incomplete
      end
  end.

(** ** Result Aggregator: the four renderings *)

(** A JSON document as [json.dumps] receives it. *)
Inductive json :=
  | JStr (s : string)
  | JNum (n : Z)
  | JArr (items : list json)
  | JObj (members : list (string * json)).

(** One call of [print]: a text line, or the document that [json.dumps]
    serialises, its members in the order they are written. *)
Inductive printed :=
  | Text (s : string)
  | Json (doc : json).

(** [sorted(entries, key=lambda e: e["port"])] *)
Definition sorted_by_port : list entry → list entry :=
  sorted (λ a b, port a <=? port b).

(** The order in which [json.dumps] writes a document: with [sort_keys] the
    members of every object are sorted by key, arrays keep their order. *)
Fixpoint dumps_order (sort_keys : bool) (doc : json) : json :=
  match doc with
  | JStr s => JStr s
  | JNum n => JNum n
  | JArr items => JArr (dumps_order sort_keys <$> items)
  | JObj members =>
      let members' := (λ kv, (kv.1, dumps_order sort_keys kv.2)) <$> members in
      JObj (if sort_keys then sorted (λ a b, String.leb a.1 b.1) members'
            else members')
  end.

Definition entry_json (e : entry) : json :=
  JObj [("port", JNum (port e)); ("state", JStr (state e)); ("banner", JStr (banner e))].

Definition report_json (results : report) : json :=
  JObj ((λ kv, (kv.1, JArr (entry_json <$> kv.2))) <$> results).

(** [print(json.dumps(results, indent=2, sort_keys=True))] *)
Definition print_json (results : report) : list printed :=
  [Json (dumps_order true (report_json results))].

Definition newline : string := String (ascii_of_nat 10) "".
Definition dquote : string := String (ascii_of_nat 34) "".

(** The entries [print_pretty] shows for one host. *)
Definition pretty_entries (open_only : bool) (entries : list entry) : list entry :=
  let entries := sorted_by_port entries in
  if open_only then filter (λ e, is_open e = true) entries else entries.

Definition pretty_line (e : entry) : printed :=
  if is_open e then
    let b := if bool_decide (banner e = "") then "" else "  ← " +:+ banner e in
    Text ("  " +:+ pretty (port e) +:+ "/tcp open" +:+ b)
  else Text ("  " +:+ pretty (port e) +:+ "/tcp closed").

Definition print_pretty (results : report) (open_only : bool) : list printed :=
  match results with
  | [] => [Text (if open_only then "No open ports found." else "No results.")]
  | _ =>
      kv ← results;
      match pretty_entries open_only kv.2 with
      | [] => if open_only then [] else [Text (newline +:+ kv.1)]
      | entries => Text (newline +:+ kv.1) :: (pretty_line <$> entries)
      end
  end.

(** The entries [print_csv] and [print_ndjson] write for one host:
    [for e in sorted(...): if open_only and e["state"]!="open": continue]. *)
Definition row_entries (open_only : bool) (entries : list entry) : list entry :=
  filter (λ e, ¬ (open_only = true ∧ is_open e = false)) (sorted_by_port entries).

(** [s.replace(q, q + q)] for the double-quote character [q = dquote] *)
Fixpoint double_quotes (s : string) : string :=
  match s with
  | EmptyString => EmptyString
  | String c s' =>
      if bool_decide (String c "" = dquote) then dquote +:+ dquote +:+ double_quotes s'
      else String c (double_quotes s')
  end.

Definition csv_line (ip : string) (e : entry) : printed :=
  Text (ip +:+ "," +:+ pretty (port e) +:+ ",tcp," +:+ state e +:+ ","
        +:+ dquote +:+ double_quotes (banner e) +:+ dquote).

Definition print_csv (results : report) (open_only header : bool) : list printed :=
  (if header then [Text "ip,port,protocol,state,banner"] else [])
  ++ (kv ← results; csv_line kv.1 <$> row_entries open_only kv.2).

Definition ndjson_line (ip : string) (e : entry) : printed :=
  Json (dumps_order false
          (JObj [("ip", JStr ip); ("port", JNum (port e)); ("protocol", JStr "tcp");
                 ("state", JStr (state e)); ("banner", JStr (banner e))])).

Definition print_ndjson (results : report) (open_only : bool) : list printed :=
  kv ← results; ndjson_line kv.1 <$> row_entries open_only kv.2.

(** ** The command: arguments, defaults and [main] *)

Module Args.
(** The namespace [build_parser().parse_args(argv)] returns. *)
Record t := Make {
  targets : list string;
  ports : string;
  exclude : option string;
  timeout : float;
  concurrency : Z;
  json : bool;
  csv : bool;
  ndjson : bool;
  csv_header : bool;
  no_banner : bool;
  progress : bool;
  open_only : bool
}.

(** The defaults of [build_parser] for the given positional targets. *)
Definition defaults (targets : list string) : t :=
  Make targets "common" None 1.2%float 1024 false false false false false false true.
End Args.

(** What one run of the command leaves behind: the exit code [main] returns
    and what it printed on standard output, or the exception that escaped;
    and the probes it started. Diagnostics on standard error and the
    interruption by [KeyboardInterrupt] (exit code 130) are not modelled. *)
Inductive main_result :=
  | Exit (code : Z) (stdout : list printed)
  | Uncaught (e : exn).

Section Main.
Variable ip_network_hosts : string → option (list string).
Variable is_ip_address : string → bool.
Variable getaddrinfo : string → option (list (family * string)).
Variable decode : list Byte.byte → option string.

(** The first [try] block of [main]: every exception in it is caught and
    becomes exit code 2. *)
Definition parse_inputs (a : Args.t) : option (list string * list Z * gset Z) :=
  tokens ← expand_targets ip_network_hosts (Args.targets a);
  ports ← parse_ports (Args.ports a);
  if bool_decide (ports = []) then None
  else
    exclude ← parse_exclude (Args.exclude a);
    Some (tokens, ports, exclude).

Definition render (a : Args.t) (results : report) : list printed :=
  if Args.json a then print_json results
  else if Args.csv a then print_csv results (Args.open_only a) (Args.csv_header a)
  else if Args.ndjson a then print_ndjson results (Args.open_only a)
  else print_pretty results (Args.open_only a).

(** [main] on a run that no [KeyboardInterrupt] cuts short, [evs] being the
    events of the scan. *)
Definition main (a : Args.t) (evs : list event)
  : outcome (main_result * list (string * Z)) :=
  match parse_inputs a with
  | None => Returned (Exit 2 [], [])
  | Some (tokens, ports, exclude) =>
      match materialize_ips is_ip_address getaddrinfo tokens with
      | None => Returned (Uncaught gaierror, [])
      | Some [] => Returned (Exit 2 [], [])
      | Some ips =>
          match run_scan decode ips ports (Args.timeout a) (Args.concurrency a)
                  (negb (Args.no_banner a)) (Args.progress a) (Args.open_only a)
                  exclude evs with
          | Returned (results, probed) => Returned (Exit 0 (render a results), probed)
          | Raised e => Returned (Uncaught e, [])
          | Incomplete => Incomplete
          end
      end
  end.
End Main.

(** ** A concrete platform for the examples

    An IPv4-only reading of the [ipaddress] module, a two-name resolver and
    an ASCII decoder. The theorems below hold for every platform; this one
    serves to run the program on concrete inputs. *)

Module Sample.
(** One decimal octet: one to three digits, no leading zero, at most 255. *)
Definition parse_octet (s : string) : option Z :=
  match s with
  | EmptyString => None
  | String "0"%char (String _ _) => None
  | _ =>
      if bool_decide (String.length s ≤ 3)%nat then
        n ← PyStr.parse_digits 0 false s;
        if bool_decide (PyStr.contains "_"%char s = false ∧ n ≤ 255) then Some n
        else None
      else None
  end.

Definition parse_ipv4 (s : string) : option Z :=
  match PyStr.split "."%char s with
  | [a; b; c; d] =>
      a ← parse_octet a; b ← parse_octet b; c ← parse_octet c; d ← parse_octet d;
      Some (((a * 256 + b) * 256 + c) * 256 + d)
  | _ => None
  end.

Definition ipv4_to_string (n : Z) : string :=
  pretty (n / 16777216) +:+ "." +:+ pretty ((n / 65536) `mod` 256) +:+ "."
  +:+ pretty ((n / 256) `mod` 256) +:+ "." +:+ pretty (n `mod` 256).

(** [ip_network(t, strict=False).hosts()] for [a.b.c.d/len]: the host bits
    are masked off; a /32 is its single address, a /31 both addresses, any
    other prefix leaves out the network and the broadcast address. *)
Definition ip_network_hosts (t : string) : option (list string) :=
  let '(addr, len) := PyStr.split_once "/"%char t in
  addr ← parse_ipv4 addr;
  len ← PyStr.parse_digits 0 false len;
  if bool_decide (len ≤ 32) then
    let size := 2 ^ (32 - len) in
    let base := addr / size * size in
    Some (ipv4_to_string <$>
            (if bool_decide (len = 32) then [addr]
             else if bool_decide (len = 31) then [base; base + 1]
             else seqZ (base + 1) (size - 2)))
  else None.

Definition is_ip_address (t : string) : bool := bool_decide (is_Some (parse_ipv4 t)).

(** A resolver that knows two names and fails on every other one. *)
Definition getaddrinfo (t : string) : option (list (family * string)) :=
  if bool_decide (t = "router.lan") then
    Some [(AF_INET, "192.168.0.1"); (AF_INET, "192.168.0.1")]
  else if bool_decide (t = "empty.lan") then Some [(AF_UNSPEC, "x")]
  else None.

(** [decode(errors="ignore")] on ASCII text: bytes above 127 are dropped. *)
Definition decode (data : list Byte.byte) : option string :=
  Some (foldr (λ b s, if bool_decide (Byte.to_nat b < 128)%nat
                      then String (ascii_of_byte b) s else s) "" data).

(** Network behaviours of one connection attempt. *)
Definition refused : network := λ _, None.
Definition silent : network := λ r,
  match r with Read _ _ => None | _ => Some [] end.
Definition greets (data : list Byte.byte) : network := λ r,
  match r with Read _ _ => Some data | _ => Some [] end.

(** The bytes of "SSH-2.0" and of "HTTP/1.0 400", each followed by CR LF. *)
Definition ssh_banner : list Byte.byte :=
  [Byte.x53; Byte.x53; Byte.x48; Byte.x2d; Byte.x32; Byte.x2e; Byte.x30;
   Byte.x0d; Byte.x0a].

Definition http_banner : list Byte.byte :=
  [Byte.x48; Byte.x54; Byte.x54; Byte.x50; Byte.x2f; Byte.x31; Byte.x2e;
   Byte.x30; Byte.x20; Byte.x34; Byte.x30; Byte.x30; Byte.x0d; Byte.x0a].

Definition main := main ip_network_hosts is_ip_address getaddrinfo decode.
End Sample.

(** ** The port specification, in the words of its grammar

    A segment of a port specification is a single integer or a [low-high]
    range; [in_segment] says which ports a segment denotes. *)

Inductive segment :=
  | Single (n : Z)
  | Range (low high : Z).

Definition parse_segment (part : string) : option segment :=
  if PyStr.contains "-"%char part then
    let '(a, b) := PyStr.split_once "-"%char part in
    a ← PyStr.int a; b ← PyStr.int b; Some (Range a b)
  else Single <$> PyStr.int part.

Definition in_segment (seg : segment) (p : Z) : Prop :=
  match seg with
  | Single n => p = n
  | Range low high => Z.min low high ≤ p ≤ Z.max low high
  end.

(** The non-empty, stripped, comma-separated parts of a specification. *)
Definition segments (s : string) : list string :=
  filter (λ part, part ≠ "") (PyStr.strip <$> PyStr.split ","%char s).

(** The ports one segment adds to [out]. *)
Definition segment_ports (seg : segment) : gset Z :=
  match seg with
  | Single n => {[n]}
  | Range a b =>
      list_to_set (if bool_decide (a > b) then range b (a + 1) else range a (b + 1))
  end.

(** ** First-seen order

    [first_seen_order produced out]: [out] holds every element of [produced]
    exactly once, and one element precedes another in [out] only when it
    occurs in [produced] before the other one's first occurrence. *)

Definition first_seen_order (produced out : list string) : Prop :=
  NoDup out
  ∧ (∀ x, x ∈ out ↔ x ∈ produced)
  ∧ ∀ i j x y, (i < j)%nat → out !! i = Some x → out !! j = Some y →
      ∃ k, produced !! k = Some x ∧ y ∉ take (S k) produced.

(** The elements of [xs] not yet in [seen], each at its first occurrence:
    the de-duplication loop without its accumulator. *)
Fixpoint first_seen (seen : gset string) (xs : list string) : list string :=
  match xs with
  | [] => []
  | x :: xs' =>
      if bool_decide (x ∈ seen) then first_seen seen xs'
      else x :: first_seen ({[x]} ∪ seen) xs'
  end.

Section FullExpansion.
Variable ip_network_hosts : string → option (list string).
Variable is_ip_address : string → bool.
Variable getaddrinfo : string → option (list (family * string)).

(** The addresses one token of the expansion stands for: itself when it is
    an address literal, else what its name resolves to. *)
Definition token_addresses (tok : string) : option (list string) :=
  if is_ip_address tok then Some [tok] else resolve_target is_ip_address getaddrinfo tok.

Fixpoint gather_addresses (toks : list string) : option (list string) :=
  match toks with
  | [] => Some []
  | tok :: rest =>
      a ← token_addresses tok; r ← gather_addresses rest; Some (a ++ r)
  end.

(** The full expansion of the targets, before any de-duplication: CIDR
    hosts, literal addresses and resolved addresses in the order they are
    produced. *)
Definition full_expansion (targets : list string) : option (list string) :=
  out ← expand_loop ip_network_hosts targets [];
  gather_addresses out.
End FullExpansion.

(** ** Failures of the banner sequence

    A step of the banner sequence fails on a connection to [net]: the write
    or its flush raises, the read raises or times out, or decoding the bytes
    read raises. *)
Definition banner_failure (decode : list Byte.byte → option string)
  (net : network) (timeout : float) : Prop :=
  net (Write [Byte.x0d; Byte.x0a]) = None
  ∨ net Drain = None
  ∨ net (Read 128 (py_min 0.6%float timeout)) = None
  ∨ ∃ data, net (Read 128 (py_min 0.6%float timeout)) = Some data
            ∧ decode (take 128 data) = None.

(** ** What holds between two steps of a scan *)

(** The (host, port) pairs a report has entries for. *)
Definition report_pairs (r : report) : list (string * Z) :=
  kv ← r; (λ e, (kv.1, port e)) <$> kv.2.

(** The invariant of the scheduler for the hosts [ips], the created [tasks]
    and the capacity [capacity] of the semaphore. *)
Record scan_inv (open_only : bool) (ips : list string)
  (tasks : list (string * Z)) (capacity : Z) (st : sched) : Prop := ScanInv {
  inv_sem : 0 ≤ sem st;
  inv_slots : sem st + Z.of_nat (length (active st)) = capacity;
  inv_tasks : waiting st ++ attempts st ≡ₚ tasks;
  inv_done : (done st + length (active st))%nat = length (attempts st);
  inv_keys : (results st).*1 = dedup ips;
  inv_active : ∀ t, t ∈ active st → t ∈ tasks;
  inv_entries : ∀ ip entries e,
    (ip, entries) ∈ results st → e ∈ entries → (ip, port e) ∈ tasks;
  inv_states : ∀ ip entries e,
    (ip, entries) ∈ results st → e ∈ entries →
    (state e = "open" ∨ (open_only = false ∧ state e = "closed" ∧ banner e = ""));
  inv_all : open_only = false →
    report_pairs (results st) ++ active st ≡ₚ attempts st
}.

(** ** A sample scan

    Two hosts, ports 22, 80 and 443 with 80 excluded, two slots. The first
    host answers at once on 443 and stays silent on 22, so the probe of 443
    completes first; the second host refuses both ports. *)
Module SampleScan.
Definition ips : list string := ["10.0.0.1"; "10.0.0.2"].
Definition ports : list Z := [22; 80; 443].
Definition exclude : gset Z := {[80]}.

Definition events : list event :=
  [Acquire 0; Acquire 0;
   Finish 1 (Sample.greets Sample.http_banner); Finish 0 Sample.silent;
   Acquire 0; Acquire 0;
   Finish 0 Sample.refused; Finish 0 Sample.refused].

Definition run (open_only : bool) :=
  run_scan Sample.decode ips ports 1.2%float 2 true false open_only exclude events.

Definition probed : list (string * Z) :=
  [("10.0.0.1", 22); ("10.0.0.1", 443); ("10.0.0.2", 22); ("10.0.0.2", 443)].

Definition open_report : report :=
  [("10.0.0.1", [Entry 443 "open" "HTTP/1.0 400"; Entry 22 "open" ""])].

Definition full_report : report :=
  [("10.0.0.1", [Entry 443 "open" "HTTP/1.0 400"; Entry 22 "open" ""]);
   ("10.0.0.2", [Entry 22 "closed" ""; Entry 443 "closed" ""])].
End SampleScan.

(** The members of one entry in the order [json.dumps] writes them under
    [sort_keys=True]. *)
Definition entry_json_sorted (e : entry) : json :=
  JObj [("banner", JStr (banner e)); ("port", JNum (port e)); ("state", JStr (state e))].

(** ** A sample command line

    One host, ports 22 and 80, both open; port 80 answers at once and port 22
    stays silent, so the probe of port 80 completes first. *)
Module SampleRun.
Definition args (json csv ndjson : bool) : Args.t :=
  Args.Make ["10.0.0.1"] "22,80" None 1.2%float 1024 json csv ndjson
    false false false true.

Definition events : list event :=
  [Acquire 0; Acquire 0;
   Finish 1 (Sample.greets Sample.http_banner); Finish 0 Sample.silent].

Definition probed : list (string * Z) := [("10.0.0.1", 22); ("10.0.0.1", 80)].
End SampleRun.

(** A command line whose only port is excluded. *)
Definition excluded_args : Args.t :=
  Args.Make ["10.0.0.1"] "80" (Some "80") 1.2%float 1024 false false false
    false false false true.

(** A command line whose port specification holds no valid port. *)
Definition invalid_ports_args : Args.t :=
  Args.Make ["10.0.0.1"] "0,70000" None 1.2%float 1024 false false false
    false false false true.

(** ** The sequential schedule

    The events of a run in which every task takes a slot and completes its
    probe before the next one starts, [nets ip p] being the network behaviour
    that the probe of [(ip, p)] meets. *)
Definition sequential_events (nets : string → Z → network)
  (tasks : list (string * Z)) : list event :=
  t ← tasks; [Acquire 0; Finish 0 (nets t.1 t.2)].

(** A command line with a negative capacity. *)
Definition negative_capacity_args : Args.t :=
  Args.Make ["10.0.0.1"] "22" None 1.2%float (-1) false false false
    false false false true.

(** * The duplicate-file finder, [src/py_gadgets/tools/dupes.py]

    The directory tree is a listing, in the order [rglob] yields it, of the
    entries with what the program can learn about each: whether it is a
    regular file ([None]: [is_file] raises, as it does for an error other
    than the few it takes for "no such file"), its size ([None]: [stat]
    raises) and its bytes ([None]: opening or reading it raises). *)

Module Dupes.

Record file := File {
  path : string;
  is_file : option bool;
  st_size : option Z;
  content : option (list Byte.byte)
}.

(** [d[k].append(v)] on a [defaultdict(list)], the keys in insertion order *)
Fixpoint dd_append {K V} `{EqDecision K} (k : K) (v : V) (d : list (K * list V))
  : list (K * list V) :=
  match d with
  | [] => [(k, [v])]
  | kv :: d' =>
      if decide (kv.1 = k) then (kv.1, kv.2 ++ [v]) :: d'
      else kv :: dd_append k v d'
  end.

Section FileHash.
(** The [hashlib.sha256] object: its initial state, [update] and
    [hexdigest]; and whether the platform can give [read] a buffer of a
    positive size (it raises [MemoryError] or [OverflowError] when it
    cannot). *)
Context {H : Type} (sha256 : H) (update : H → list Byte.byte → H)
  (hexdigest : H → string) (can_read : Z → bool).

(** [f.read(chunk)] on the unread bytes [rest]: everything for [-1], nothing
    for [0], at most [chunk] bytes for a positive [chunk]; [None] when it
    raises, as it does for a [chunk] below [-1] and when the bytes asked for
    (for [-1], the bytes left) are more than the platform can read at
    once. *)
Definition f_read (chunk : Z) (rest : list Byte.byte) : option (list Byte.byte) :=
  if bool_decide (chunk < -1) then None
  else if bool_decide (chunk = -1) then
    if bool_decide (rest = []) || can_read (Z.of_nat (length rest)) then Some rest
    else None
  else if bool_decide (chunk = 0) then Some []
  else if can_read chunk then Some (take (Z.to_nat chunk) rest)
  else None.

(** The [while True] loop of [file_hash]; every turn but the last consumes a
    byte, so [fuel] above the number of unread bytes lets it end. *)
Fixpoint read_loop (fuel : nat) (chunk : Z) (h : H) (rest : list Byte.byte)
  : option H :=
  match fuel with
  | O => Some h
  | S fuel' =>
      b ← f_read chunk rest;
      match b with
      | [] => Some h
      | _ => read_loop fuel' chunk (update h b) (drop (length b) rest)
      end
  end.

(** [file_hash(path, chunk)] on a file that holds [bytes]; [None] when
    [read] raises. *)
Definition file_hash (bytes : list Byte.byte) (chunk : Z) : option string :=
  hexdigest <$> read_loop (S (length bytes)) chunk sha256 bytes.

(** One turn of the first loop of [main]. [p.is_file()] stands outside the
    [try]: when it raises, the exception escapes. *)
Definition by_size_step (min_bytes : Z) (d : list (Z * list file)) (p : file)
  : option (list (Z * list file)) :=
  is_f ← is_file p;
  Some (if is_f : bool then
          match st_size p with
          | Some sz => if bool_decide (sz >= min_bytes) then dd_append sz p d else d
          | None => d
          end
        else d).

(** The first loop: regular files of at least [min_bytes] bytes, grouped by
    size. *)
Fixpoint by_size_loop (min_bytes : Z) (d : list (Z * list file))
  (listing : list file) : option (list (Z * list file)) :=
  match listing with
  | [] => Some d
  | p :: rest => d' ← by_size_step min_bytes d p; by_size_loop min_bytes d' rest
  end.

Definition by_size (min_bytes : Z) (listing : list file)
  : option (list (Z * list file)) :=
  by_size_loop min_bytes [] listing.

(** The second loop: the files of every size shared by two files or more,
    grouped by digest; a file that cannot be hashed is passed over. *)
Definition hash_step (d : list (string * list file)) (p : file)
  : list (string * list file) :=
  match content p ≫= λ bytes, file_hash bytes 1048576 with
  | Some h => dd_append h p d
  | None => d
  end.

Definition group_step (d : list (string * list file)) (g : Z * list file)
  : list (string * list file) :=
  if bool_decide (length g.2 < 2)%nat then d else foldl hash_step d g.2.

Definition dup_groups (sizes : list (Z * list file)) : list (string * list file) :=
  foldl group_step [] sizes.

(** The lines of the third loop for the groups of two files or more, or the
    fallback line. *)
Definition report_lines (groups : list (string * list file)) : list string :=
  match filter (λ g, (1 < length g.2)%nat) groups with
  | [] => ["No duplicates found."]
  | printed =>
      g ← printed; (String (ascii_of_nat 10) "# hash=" +:+ g.1) :: (path <$> g.2)
  end.

(** What [main] prints and returns, for [--min-bytes] and the listing of
    [--path]; [None] when an exception escapes, which happens before
    anything is printed. *)
Definition main (min_bytes : Z) (listing : list file) : option (list string * Z) :=
  sizes ← by_size min_bytes listing;
  Some (report_lines (dup_groups sizes), 0).

(** The groups that a run prints: none when the exception escapes. *)
Definition duplicates (min_bytes : Z) (listing : list file)
  : list (string * list file) :=
  match by_size min_bytes listing with
  | Some sizes => filter (λ g, (1 < length g.2)%nat) (dup_groups sizes)
  | None => []
  end.

(** The files the first loop keeps, the size it files them under, the files
    the second loop can hash and the digest it files them under. *)
Definition eligible (min_bytes : Z) (p : file) : bool :=
  bool_decide (is_file p = Some true)
  && from_option (λ sz, bool_decide (sz >= min_bytes)) false (st_size p).

Definition size_of (p : file) : Z := default 0 (st_size p).

Definition readable (p : file) : bool :=
  bool_decide (is_Some (content p ≫= λ bytes, file_hash bytes 1048576)).

Definition digest_of (p : file) : string :=
  default "" (content p ≫= λ bytes, file_hash bytes 1048576).

(** The files the second loop hashes: those that can be hashed among the
    sizes that two kept files or more share. *)
Definition hashed (min_bytes : Z) (listing : list file) : list file :=
  filter (λ p, readable p = true)
    (mjoin (filter (λ g, (2 ≤ length g.2)%nat)
              (default [] (by_size min_bytes listing))).*2).
End FileHash.

(** Grouping a list by a key, in the order of the list. *)
Definition group_all {K V} `{EqDecision K} (key : V → K) (d : list (K * list V))
  (xs : list V) : list (K * list V) :=
  foldl (λ d x, dd_append (key x) x d) d xs.

(** What a dictionary built by appending holds: under every key, in their
    order, the elements with that key. *)
Definition grouped {K V} `{EqDecision K} (key : V → K) (d : list (K * list V))
  (xs : list V) : Prop :=
  NoDup d.*1
  ∧ ∀ k vs, (k, vs) ∈ d ↔ vs ≠ [] ∧ vs = filter (λ x, key x = k) xs.

(** [f1] occurs in [l] before another occurrence [f2]. *)
Definition two_in {V} (f1 f2 : V) (l : list V) : Prop :=
  ∃ a b c, l = a ++ f1 :: b ++ f2 :: c.

(** The walk gets through: [is_file] answers for every entry. *)
Definition walked (listing : list file) : Prop :=
  ∀ p, p ∈ listing → is_file p ≠ None.
End Dupes.

(** ** A sample tree

    A stand-in for the hash object that keeps the bytes it was fed, so that
    two files get the same digest exactly when they hold the same bytes; and
    a platform that reads up to a gibibyte at once. *)
Module SampleDupes.
Import Dupes.

Definition sha256 : list Byte.byte := [].
Definition update (h b : list Byte.byte) : list Byte.byte := h ++ b.
Definition hexdigest (h : list Byte.byte) : string := String.string_of_list_byte h.
Definition can_read (n : Z) : bool := bool_decide (n ≤ 1073741824).

Definition notes : file :=
  File "notes.txt" (Some true) (Some 3) (Some (String.list_byte_of_string "abc")).
Definition sub : file := File "sub" (Some false) (Some 4096) None.
Definition copy : file :=
  File "sub/copy.txt" (Some true) (Some 3) (Some (String.list_byte_of_string "abc")).
Definition other : file :=
  File "sub/other.txt" (Some true) (Some 3) (Some (String.list_byte_of_string "abd")).
Definition locked : file := File "locked.txt" (Some true) (Some 3) None.
Definition gone : file := File "gone.txt" (Some true) None None.
Definition long : file :=
  File "long.txt" (Some true) (Some 5) (Some (String.list_byte_of_string "abcde")).

Definition listing : list file := [notes; sub; copy; other; locked; gone; long].
End SampleDupes.

(** * The largest-files finder, [src/py_gadgets/tools/bigfiles.py]

    The tree is a listing as for the duplicate finder. [Path.__lt__] and the
    text of [f"{sz/1_048_576:9.1f}"] are left to the platform. *)

Module Bigfiles.
Import Dupes.

Section Main.
Context (path_lt : string → string → bool) (format_mb : Z → string).

(** [a < b] on the tuples [(sz, p)]: the first components that differ
    decide. *)
Definition tuple_lt (a b : Z * string) : bool :=
  if bool_decide (a.1 = b.1) then
    if bool_decide (a.2 = b.2) then false else path_lt a.2 b.2
  else bool_decide (a.1 < b.1).

(** One turn of the loop of [main]. [p.is_file()] stands outside the [try]:
    when it raises, the exception escapes. *)
Definition files_step (min_bytes : Z) (files : list (Z * string)) (p : file)
  : option (list (Z * string)) :=
  is_f ← is_file p;
  Some (if is_f : bool then
          match st_size p with
          | Some sz =>
              if bool_decide (sz >= min_bytes) then files ++ [(sz, path p)]
              else files
          | None => files
          end
        else files).

(** The loop: the regular files of at least [min_bytes] bytes, with their
    sizes. *)
Fixpoint collect_loop (min_bytes : Z) (files : list (Z * string))
  (listing : list file) : option (list (Z * string)) :=
  match listing with
  | [] => Some files
  | p :: rest => files' ← files_step min_bytes files p; collect_loop min_bytes files' rest
  end.

Definition collect (min_bytes : Z) (listing : list file) : option (list (Z * string)) :=
  collect_loop min_bytes [] listing.

(** [files.sort(reverse=True)]: a stable sort with every comparison
    reversed. *)
Definition sort_reverse (files : list (Z * string)) : list (Z * string) :=
  sorted (λ a b, negb (tuple_lt a b)) files.

(** [files[:top]]: a negative [top] counts from the end. *)
Definition slice_to {A} (top : Z) (l : list A) : list A :=
  if bool_decide (top < 0) then take (Z.to_nat (Z.of_nat (length l) + top)) l
  else take (Z.to_nat top) l.

(** The files that a run prints, for [--min-mb] and [--top]: none when the
    exception escapes. *)
Definition shown (min_mb top : Z) (listing : list file) : list (Z * string) :=
  match collect (min_mb * 1024 * 1024) listing with
  | Some files => slice_to top (sort_reverse files)
  | None => []
  end.

(** What [main] prints and returns; [None] when an exception escapes, which
    happens before anything is printed. *)
Definition main (min_mb top : Z) (listing : list file) : option (list string * Z) :=
  files ← collect (min_mb * 1024 * 1024) listing;
  Some ((λ f, format_mb f.1 +:+ " MB  " +:+ f.2)
          <$> slice_to top (sort_reverse files), 0).
End Main.
End Bigfiles.

(** A sample tree for the largest-files finder, with a strict total order on
    path names. *)
Module SampleBigfiles.
Import Dupes.

Definition path_lt (a b : string) : bool := (encode a <? encode b)%positive.

Definition listing : list file :=
  [File "file0.bin" (Some true) (Some 1048576) None;
   File "file1.bin" (Some true) (Some 10485760) None;
   File "file2.bin" (Some true) (Some 524288) None].

Definition listing' : list file :=
  [File "file1.bin" (Some true) (Some 10485760) None;
   File "file0.bin" (Some true) (Some 1048576) None;
   File "file2.bin" (Some true) (Some 524288) None].
End SampleBigfiles.

(** * Properties *)

(** ** Sorting *)

Section SortedFacts.
Context {A : Type} (le : A → A → bool).

Lemma insert_sorted_Permutation x l : insert_sorted le x l ≡ₚ x :: l.
Proof.
  induction l as [|y l IH]; simpl; [done|].
  destruct (le x y); [done|]. rewrite IH. apply Permutation_swap.
Qed.

Lemma sorted_Permutation l : sorted le l ≡ₚ l.
Proof.
  induction l as [|x l IH]; simpl; [done|].
  by rewrite insert_sorted_Permutation, IH.
Qed.

Lemma elem_of_sorted x l : x ∈ sorted le l ↔ x ∈ l.
Proof. by rewrite sorted_Permutation. Qed.

Hypothesis le_total : ∀ a b, le a b = false → le b a = true.
Hypothesis le_trans : ∀ a b c, le a b = true → le b c = true → le a c = true.

Lemma insert_sorted_StronglySorted x l :
  StronglySorted (λ a b, le a b = true) l →
  StronglySorted (λ a b, le a b = true) (insert_sorted le x l).
Proof.
  induction 1 as [|y l Hl IH Hy]; simpl.
  { repeat constructor. }
  destruct (le x y) eqn:Hxy.
  - constructor; [by constructor|].
    constructor; [done|]. eapply Forall_impl; [exact Hy|]. eauto.
  - constructor; [done|].
    rewrite insert_sorted_Permutation. constructor; auto.
Qed.

Lemma sorted_StronglySorted l :
  StronglySorted (λ a b, le a b = true) (sorted le l).
Proof.
  induction l; simpl; [constructor|]. by apply insert_sorted_StronglySorted.
Qed.
End SortedFacts.

Lemma StronglySorted_weaken {A} (R R' : relation A) l :
  (∀ a b, R a b → R' a b) → StronglySorted R l → StronglySorted R' l.
Proof.
  intros HR. induction 1 as [|x l _ IH Hx]; constructor; [done|].
  eapply Forall_impl; [exact Hx|]. auto.
Qed.

Lemma sorted_ints_ascending l : StronglySorted Z.le (sorted_ints l).
Proof.
  apply (StronglySorted_weaken (λ a b, Z.leb a b = true)).
  { intros a b. apply Z.leb_le. }
  apply sorted_StronglySorted.
  - intros a b ?%Z.leb_gt. apply Z.leb_le. lia.
  - intros a b c ?%Z.leb_le ?%Z.leb_le. apply Z.leb_le. lia.
Qed.

(** Ascending and duplicate-free is strictly ascending. *)
Lemma StronglySorted_le_NoDup_lt (l : list Z) :
  StronglySorted Z.le l → NoDup l → StronglySorted Z.lt l.
Proof.
  induction 1 as [|x l _ IH Hx]; intros Hnd; [constructor|].
  apply NoDup_cons in Hnd as [Hx' Hnd]. constructor; [auto|].
  apply Forall_forall. intros y Hy.
  rewrite Forall_forall in Hx. specialize (Hx y Hy).
  assert (x ≠ y) by (intros ->; done). lia.
Qed.

(** ** Port Set Builder *)

Lemma elem_of_range a b p : p ∈ range a b ↔ a ≤ p < b.
Proof. unfold range. rewrite elem_of_seqZ. lia. Qed.

Lemma elem_of_segment_ports seg p : p ∈ segment_ports seg ↔ in_segment seg p.
Proof.
  destruct seg as [n|a b]; simpl; [set_solver|].
  rewrite elem_of_list_to_set. case_bool_decide; rewrite elem_of_range; lia.
Qed.

(** One turn of the loop of [parse_ports], read through [parse_segment]. *)
Lemma parse_parts_cons part rest out :
  parse_parts (part :: rest) out =
    if bool_decide (PyStr.strip part = "") then parse_parts rest out
    else seg ← parse_segment (PyStr.strip part);
         parse_parts rest (out ∪ segment_ports seg).
Proof.
  simpl. case_bool_decide; [done|]. unfold parse_segment.
  destruct (PyStr.contains _ _).
  - destruct (PyStr.split_once _ _) as [a b].
    destruct (PyStr.int a) as [x|]; simpl; [|done].
    destruct (PyStr.int b) as [y|]; simpl; [|done].
    by case_bool_decide.
  - by destruct (PyStr.int _).
Qed.

Lemma parse_parts_None parts out :
  parse_parts parts out = None ↔
  ∃ part, part ∈ filter (λ part, part ≠ "") (PyStr.strip <$> parts)
          ∧ parse_segment part = None.
Proof.
  revert out. induction parts as [|part rest IH]; intros out.
  { simpl. split; [done|]. intros (? & ?%elem_of_nil & _). done. }
  rewrite parse_parts_cons, fmap_cons, filter_cons.
  case_bool_decide as Hempty.
  - rewrite decide_False by (intros ?; done). apply IH.
  - rewrite decide_True by done.
    destruct (parse_segment (PyStr.strip part)) as [seg|] eqn:Hseg; simpl.
    + rewrite IH. split.
      * intros (p & ? & ?). exists p. split; [by right|done].
      * intros (p & [->|?]%elem_of_cons & Hp); [congruence|eauto].
    + split; [|done]. intros _. exists (PyStr.strip part). split; [by left|done].
Qed.

Lemma parse_parts_Some parts out out' :
  parse_parts parts out = Some out' →
  ∀ p, p ∈ out' ↔
       p ∈ out ∨ ∃ part seg,
         part ∈ filter (λ part, part ≠ "") (PyStr.strip <$> parts)
         ∧ parse_segment part = Some seg ∧ in_segment seg p.
Proof.
  revert out. induction parts as [|part rest IH]; intros out.
  { simpl. intros [= <-] p. split; [by left|].
    intros [?|(? & ? & ?%elem_of_nil & _)]; done. }
  rewrite parse_parts_cons, fmap_cons, filter_cons.
  case_bool_decide as Hempty.
  - rewrite decide_False by (intros ?; done). apply IH.
  - rewrite decide_True by done.
    destruct (parse_segment (PyStr.strip part)) as [seg|] eqn:Hseg; simpl; [|done].
    intros Hrest p. rewrite (IH _ Hrest p), elem_of_union, elem_of_segment_ports.
    split.
    + intros [[?|?]|(q & s & ? & ? & ?)]; [by left|..].
      * right. exists (PyStr.strip part), seg. split; [by left|done].
      * right. exists q, s. split; [by right|done].
    + intros [?|(q & s & [->|?]%elem_of_cons & Hq & ?)]; [by left; left|..].
      * left; right. congruence.
      * right. eauto.
Qed.

(** C6. For a specification [s] other than the alias, [parse_ports] raises
    exactly when one of its comma-separated segments is malformed; otherwise
    it returns, in strictly ascending order (hence without duplicates), the
    ports in [1, 65535] that some segment denotes, a range [low-high]
    denoting every port between its two bounds whichever is the larger. On
    ["5-7,7-9,22"] it returns [5, 6, 7, 8, 9, 22]. *)
Theorem parse_ports_spec (s : string) :
  PyStr.lower s ≠ "common" →
  (parse_ports s = None ↔
     ∃ part, part ∈ segments s ∧ parse_segment part = None)
  ∧ (∀ out, parse_ports s = Some out →
       StronglySorted Z.lt out
       ∧ ∀ p, p ∈ out ↔
           1 ≤ p ≤ 65535
           ∧ ∃ part seg, part ∈ segments s ∧ parse_segment part = Some seg
                         ∧ in_segment seg p)
  ∧ parse_ports "5-7,7-9,22" = Some [5; 6; 7; 8; 9; 22].
Proof.
  intros Halias. unfold parse_ports, segments.
  rewrite bool_decide_eq_false_2 by done.
  split; [|split].
  - rewrite <- parse_parts_None with (out := ∅).
    by destruct (parse_parts _ _).
  - intros out. destruct (parse_parts _ _) as [set|] eqn:Hparts; simpl; [|done].
    intros [= <-]. split.
    + apply StronglySorted_le_NoDup_lt; [apply sorted_ints_ascending|].
      unfold sorted_ints. rewrite sorted_Permutation.
      apply NoDup_filter, NoDup_elements.
    + intros p. unfold sorted_ints.
      rewrite elem_of_sorted, list_elem_of_filter, elem_of_elements.
      rewrite (parse_parts_Some _ _ _ Hparts p).
      unfold valid_port. rewrite andb_true_iff, !Z.leb_le.
      split.
      * intros [? [Hp|?]]; [by apply not_elem_of_empty in Hp|done].
      * intros [? ?]. split; [done|by right].
  - vm_compute. reflexivity.
Qed.

Lemma parse_ports_spec_witness :
  PyStr.lower "9-7, 0,70000,x" ≠ "common"
  ∧ (∃ part, part ∈ segments "9-7, 0,70000,x" ∧ parse_segment part = None)
  ∧ (∀ p, p ∈ [7; 8; 9] ↔
        1 ≤ p ≤ 65535
        ∧ ∃ part seg, part ∈ segments "9-7, 0,70000" ∧ parse_segment part = Some seg
                      ∧ in_segment seg p).
Proof.
  split; [by vm_compute|]. split.
  - apply (parse_ports_spec "9-7, 0,70000,x"); [by vm_compute|].
    vm_compute. reflexivity.
  - apply (parse_ports_spec "9-7, 0,70000"); [by vm_compute|].
    vm_compute. reflexivity.
Defined.

(** ** Order-preserving de-duplication *)

Lemma dedup_loop_first_seen seen out xs :
  dedup_loop seen out xs = out ++ first_seen seen xs.
Proof.
  revert seen out. induction xs as [|x xs IH]; intros seen out; simpl.
  { by rewrite app_nil_r. }
  case_bool_decide; [apply IH|]. by rewrite IH, <- app_assoc.
Qed.

Lemma dedup_first_seen xs : dedup xs = first_seen ∅ xs.
Proof. unfold dedup. by rewrite dedup_loop_first_seen. Qed.

Lemma elem_of_first_seen seen xs x :
  x ∈ first_seen seen xs ↔ x ∈ xs ∧ x ∉ seen.
Proof.
  revert seen. induction xs as [|a xs IH]; intros seen; simpl.
  { rewrite elem_of_nil. tauto. }
  case_bool_decide as Ha.
  - rewrite IH, elem_of_cons. split; [tauto|].
    intros [[->|?] ?]; [done|tauto].
  - rewrite !elem_of_cons, IH, elem_of_union, elem_of_singleton.
    destruct (decide (x = a)) as [->|]; tauto.
Qed.

Lemma NoDup_first_seen seen xs : NoDup (first_seen seen xs).
Proof.
  revert seen. induction xs as [|a xs IH]; intros seen; simpl; [constructor|].
  case_bool_decide; [apply IH|]. constructor; [|apply IH].
  rewrite elem_of_first_seen, elem_of_union, elem_of_singleton. tauto.
Qed.

Lemma first_seen_app seen xs ys :
  first_seen seen (xs ++ ys)
  = first_seen seen xs ++ first_seen (list_to_set xs ∪ seen) ys.
Proof.
  revert seen. induction xs as [|a xs IH]; intros seen; simpl.
  { by rewrite (left_id_L ∅ (∪)). }
  case_bool_decide as Ha; rewrite IH.
  - do 2 f_equal. apply set_eq. intros z.
    rewrite !elem_of_union, elem_of_singleton. split; [tauto|].
    intros [[->|?]|?]; tauto.
  - simpl. do 3 f_equal. apply set_eq. intros z.
    rewrite !elem_of_union, elem_of_singleton. tauto.
Qed.

Lemma first_seen_nil seen xs :
  (∀ x, x ∈ xs → x ∈ seen) → first_seen seen xs = [].
Proof.
  intros Hsub. destruct (first_seen seen xs) as [|y l] eqn:Heq; [done|].
  assert (y ∈ first_seen seen xs) as Hy by (rewrite Heq; left).
  apply elem_of_first_seen in Hy as [? ?]. naive_solver.
Qed.

Lemma first_seen_order_first_seen seen xs i j x y :
  (i < j)%nat →
  first_seen seen xs !! i = Some x → first_seen seen xs !! j = Some y →
  ∃ k, xs !! k = Some x ∧ y ∉ take (S k) xs.
Proof.
  revert seen i j. induction xs as [|a xs IH]; intros seen i j Hij; simpl; [done|].
  case_bool_decide as Ha.
  - intros Hx Hy. destruct (IH _ _ _ Hij Hx Hy) as (k & Hk & Hnot).
    exists (S k). split; [done|]. rewrite elem_of_cons. intros [->|?]; [|done].
    apply list_elem_of_lookup_2, elem_of_first_seen in Hy. tauto.
  - destruct j as [|j]; [lia|]. simpl. intros Hx Hy.
    assert (y ≠ a) as Hya.
    { apply list_elem_of_lookup_2, elem_of_first_seen in Hy.
      rewrite elem_of_union, elem_of_singleton in Hy. tauto. }
    destruct i as [|i]; simpl in Hx.
    + injection Hx as <-. exists 0%nat. split; [done|].
      simpl. rewrite take_0, elem_of_cons, elem_of_nil. tauto.
    + assert (i < j)%nat as Hij' by lia.
      destruct (IH _ _ _ Hij' Hx Hy) as (k & Hk & Hnot).
      exists (S k). split; [done|]. rewrite elem_of_cons. tauto.
Qed.

(** The loop of the source keeps first-seen order. *)
Lemma dedup_first_seen_order xs : first_seen_order xs (dedup xs).
Proof.
  rewrite dedup_first_seen. split; [apply NoDup_first_seen|]. split.
  - intros x. rewrite elem_of_first_seen. split; [tauto|].
    intros ?. split; [done|apply not_elem_of_empty].
  - intros i j x y. apply first_seen_order_first_seen.
Qed.

(** ** Target Resolver *)

Section TargetResolverFacts.
Variable ip_network_hosts : string → option (list string).
Variable is_ip_address : string → bool.
Variable getaddrinfo : string → option (list (family * string)).

Abbreviation token_addresses' := (token_addresses is_ip_address getaddrinfo).
Abbreviation gather_addresses' := (gather_addresses is_ip_address getaddrinfo).

Lemma expand_loop_acc targets out :
  expand_loop ip_network_hosts targets out
  = (out ++.) <$> expand_loop ip_network_hosts targets [].
Proof.
  revert out. induction targets as [|t rest IH]; intros out; simpl.
  { by rewrite app_nil_r. }
  case_bool_decide; [apply IH|].
  destruct (PyStr.contains _ _).
  - destruct (ip_network_hosts _) as [hosts|]; simpl; [|done].
    rewrite IH, (IH hosts). destruct (expand_loop _ rest []); simpl; [|done].
    by rewrite app_assoc.
  - rewrite IH, (IH [_]). destruct (expand_loop _ rest []); simpl; [|done].
    by rewrite <- app_assoc.
Qed.

Lemma materialize_loop_gather toks ips :
  materialize_loop is_ip_address getaddrinfo toks ips
  = (ips ++.) <$> gather_addresses' toks.
Proof.
  revert ips. induction toks as [|tok rest IH]; intros ips; simpl.
  { by rewrite app_nil_r. }
  unfold token_addresses. destruct (is_ip_address tok); simpl.
  - rewrite IH. destruct (gather_addresses' rest); simpl; [|done].
    by rewrite <- app_assoc.
  - destruct (resolve_target _ _ tok) as [resolved|]; simpl; [|done].
    rewrite IH. destruct (gather_addresses' rest); simpl; [|done].
    by rewrite <- app_assoc.
Qed.

(** Resolving the distinct tokens, each once, and de-duplicating yields what
    de-duplicating the addresses of all tokens yields. *)
Lemma gather_first_seen seenT seenA toks produced :
  (∀ t a, t ∈ seenT → token_addresses' t = Some a → ∀ x, x ∈ a → x ∈ seenA) →
  gather_addresses' (first_seen seenT toks) = Some produced →
  (∀ t, t ∈ seenT → t ∈ toks → is_Some (token_addresses' t)) →
  ∃ full, gather_addresses' toks = Some full
          ∧ first_seen seenA full = first_seen seenA produced.
Proof.
  revert seenT seenA produced.
  induction toks as [|t rest IH]; intros seenT seenA produced Hinv; simpl.
  { intros [= <-] _. by exists []. }
  case_bool_decide as Ht.
  - intros Hrest Hdef.
    destruct (Hdef t Ht) as [a Ha]; [left|].
    destruct (IH seenT seenA produced Hinv Hrest) as (full & Hfull & Heq).
    { intros t' ? ?. apply Hdef; [done|by right]. }
    exists (a ++ full). rewrite Ha, Hfull. split; [done|].
    rewrite first_seen_app, (first_seen_nil _ a) by eauto. simpl.
    rewrite <- Heq. f_equal. apply set_eq. intros z.
    rewrite elem_of_union, elem_of_list_to_set. split; [|by right].
    intros [?|?]; eauto.
  - simpl. destruct (token_addresses' t) as [a|] eqn:Ha; simpl; [|done].
    destruct (gather_addresses' (first_seen _ rest)) as [r|] eqn:Hr; simpl; [|done].
    intros [= <-] Hdef.
    destruct (IH ({[t]} ∪ seenT) (list_to_set a ∪ seenA) r) as (full & Hfull & Heq).
    + intros t' a' [->%elem_of_singleton|?]%elem_of_union Ha' x Hx.
      * rewrite Ha in Ha'. injection Ha' as <-.
        apply elem_of_union. left. by apply elem_of_list_to_set.
      * apply elem_of_union. right. eauto.
    + done.
    + intros t' [->%elem_of_singleton|?]%elem_of_union ?; [by eexists|].
      apply Hdef; [done|by right].
    + exists (a ++ full). rewrite Hfull. split; [done|].
      by rewrite !first_seen_app, Heq.
Qed.

Lemma materialize_expand targets tokens ips :
  expand_targets ip_network_hosts targets = Some tokens →
  materialize_ips is_ip_address getaddrinfo tokens = Some ips →
  ∃ produced, full_expansion ip_network_hosts is_ip_address getaddrinfo targets
              = Some produced
              ∧ ips = dedup produced.
Proof.
  unfold expand_targets, materialize_ips, full_expansion.
  destruct (expand_loop _ targets []) as [out|]; simpl; [|done].
  intros [= <-]. rewrite materialize_loop_gather.
  destruct (gather_addresses' (dedup out)) as [got|] eqn:Hgot; simpl; [|done].
  intros [= <-]. rewrite dedup_first_seen in Hgot.
  destruct (gather_first_seen ∅ ∅ out got) as (full & Hfull & Heq).
  - intros t a Ht. by apply not_elem_of_empty in Ht.
  - done.
  - intros t Ht. by apply not_elem_of_empty in Ht.
  - exists full. split; [done|]. by rewrite !dedup_first_seen.
Qed.

Lemma first_seen_order_once produced out x :
  first_seen_order produced out → x ∈ produced →
  length (filter (λ y, y = x) out) = 1%nat.
Proof.
  intros (Hnd & Hin & _) Hx. apply Hin in Hx. clear Hin.
  induction Hnd as [|a l Ha Hnd IH]; [by apply elem_of_nil in Hx|].
  rewrite filter_cons. apply elem_of_cons in Hx as [->|Hx].
  - rewrite decide_True by done. simpl. f_equal.
    clear IH Hnd. induction l as [|b l IH]; [done|].
    apply not_elem_of_cons in Ha as [? ?].
    rewrite filter_cons, decide_False by done. auto.
  - rewrite decide_False by (intros ->; done). auto.
Qed.

(** C7. The tokens [expand_targets] returns are the raw expansion (CIDR
    hosts and the other tokens) in first-seen order, and the addresses
    [materialize_ips] then returns are the full expansion (CIDR hosts,
    literal addresses and resolved addresses) without duplicates, in the
    order in which the addresses were first produced. Expanding
    ["192.168.0.0/30", "192.168.0.1"] keeps first-seen order across the
    hosts of the network and the literal, and holds "192.168.0.1" exactly
    once, as does the address list materialised from it. *)
Theorem target_expansion_first_seen targets tokens ips :
  expand_targets ip_network_hosts targets = Some tokens →
  materialize_ips is_ip_address getaddrinfo tokens = Some ips →
  (∃ out, expand_loop ip_network_hosts targets [] = Some out
          ∧ first_seen_order out tokens)
  ∧ (∃ produced,
       full_expansion ip_network_hosts is_ip_address getaddrinfo targets
       = Some produced
       ∧ first_seen_order produced ips)
  ∧ (∀ hosts, ip_network_hosts "192.168.0.0/30" = Some hosts →
       ∃ l, expand_targets ip_network_hosts ["192.168.0.0/30"; "192.168.0.1"]
            = Some l
            ∧ first_seen_order (hosts ++ ["192.168.0.1"]) l
            ∧ length (filter (λ y, y = "192.168.0.1") l) = 1%nat
            ∧ ∀ ips', is_ip_address "192.168.0.1" = true →
                materialize_ips is_ip_address getaddrinfo l = Some ips' →
                length (filter (λ y, y = "192.168.0.1") ips') = 1%nat).
Proof.
  intros Hexp Hmat. split; [|split].
  - unfold expand_targets in Hexp.
    destruct (expand_loop _ targets []) as [out|]; simpl in Hexp; [|done].
    injection Hexp as <-. exists out. split; [done|apply dedup_first_seen_order].
  - destruct (materialize_expand _ _ _ Hexp Hmat) as (produced & Hfull & ->).
    exists produced. split; [done|apply dedup_first_seen_order].
  - intros hosts Hhosts.
    assert (expand_targets ip_network_hosts ["192.168.0.0/30"; "192.168.0.1"]
            = Some (dedup (hosts ++ ["192.168.0.1"]))) as Hl.
    { unfold expand_targets.
      change (expand_loop ip_network_hosts ["192.168.0.0/30"; "192.168.0.1"] [])
        with (hs ← ip_network_hosts "192.168.0.0/30"; Some (([] ++ hs) ++ ["192.168.0.1"])).
      by rewrite Hhosts. }
    eexists. split; [exact Hl|].
    pose proof (dedup_first_seen_order (hosts ++ ["192.168.0.1"])) as Hord.
    split; [done|]. split.
    { apply (first_seen_order_once _ _ _ Hord), elem_of_app. right. left. }
    intros ips' Hlit Hips'.
    destruct (materialize_expand _ _ _ Hl Hips') as (produced & Hfull & ->).
    apply (first_seen_order_once produced); [apply dedup_first_seen_order|].
    revert Hfull. unfold full_expansion.
    change (expand_loop ip_network_hosts ["192.168.0.0/30"; "192.168.0.1"] [])
      with (hs ← ip_network_hosts "192.168.0.0/30"; Some (([] ++ hs) ++ ["192.168.0.1"])).
    rewrite Hhosts. simpl. clear Hl Hord Hips' Hhosts.
    revert produced. induction hosts as [|h hosts IH]; intros produced; simpl.
    + unfold token_addresses. rewrite Hlit. simpl. intros [= <-]. left.
    + destruct (token_addresses' h) as [a|]; simpl; [|done].
      destruct (gather_addresses' (hosts ++ _)) as [r|]; simpl; [|done].
      intros [= <-]. apply elem_of_app. right. by apply IH.
Qed.
End TargetResolverFacts.

Lemma target_expansion_first_seen_witness :
  let targets := ["192.168.0.0/30"; " router.lan"; "192.168.0.1"; "10.0.0.9"] in
  expand_targets Sample.ip_network_hosts targets
  = Some ["192.168.0.1"; "192.168.0.2"; "router.lan"; "10.0.0.9"]
  ∧ materialize_ips Sample.is_ip_address Sample.getaddrinfo
      ["192.168.0.1"; "192.168.0.2"; "router.lan"; "10.0.0.9"]
    = Some ["192.168.0.1"; "192.168.0.2"; "10.0.0.9"]
  ∧ ∃ produced,
      full_expansion Sample.ip_network_hosts Sample.is_ip_address
        Sample.getaddrinfo targets = Some produced
      ∧ first_seen_order produced ["192.168.0.1"; "192.168.0.2"; "10.0.0.9"].
Proof.
  assert (expand_targets Sample.ip_network_hosts
            ["192.168.0.0/30"; " router.lan"; "192.168.0.1"; "10.0.0.9"]
          = Some ["192.168.0.1"; "192.168.0.2"; "router.lan"; "10.0.0.9"]) as H1.
  { vm_compute. reflexivity. }
  assert (materialize_ips Sample.is_ip_address Sample.getaddrinfo
            ["192.168.0.1"; "192.168.0.2"; "router.lan"; "10.0.0.9"]
          = Some ["192.168.0.1"; "192.168.0.2"; "10.0.0.9"]) as H2.
  { vm_compute. reflexivity. }
  split; [exact H1|]. split; [exact H2|].
  exact (proj1 (proj2 (target_expansion_first_seen Sample.ip_network_hosts
    Sample.is_ip_address Sample.getaddrinfo _ _ _ H1 H2))).
Defined.

(** ** Banner Prober *)

Ltac unfold_io :=
  unfold probe, probe_log, probe_io, try_except, suppress, banner_sequence,
    reader_read, io_decode, call, mbind, io_bind, mret, io_ret in *.

(** C8. With banner capture enabled, the only read a probe makes asks for at
    most 128 bytes under the timeout [min(0.6, timeout)] (the connect timeout
    when it is below 0.6, else 0.6) and hands on at most 128 bytes; and when
    the connection opened but a step of the banner sequence fails, the probe
    returns what it returns with banner capture disabled: an empty banner,
    and the state open as soon as closing the connection does not raise. *)
Theorem probe_banner_limits decode net ip p timeout :
  (∀ n t, Read n t ∈ probe_log decode net ip p timeout true →
     n = 128%nat
     ∧ t = if PrimFloat.ltb timeout 0.6%float then timeout else 0.6%float)
  ∧ (∀ n t log data, (reader_read n t net log).1 = Some data →
       (length data ≤ n)%nat)
  ∧ (net (OpenConnection ip p timeout) ≠ None →
     banner_failure decode net timeout →
     probe decode net ip p timeout true = probe decode net ip p timeout false
     ∧ (probe decode net ip p timeout true).2 = ""
     ∧ (net Close ≠ None → probe decode net ip p timeout true = (true, ""))).
Proof.
  split; [|split].
  - intros n t. unfold_io. simpl.
    destruct (net (OpenConnection ip p timeout)); simpl;
      [|rewrite list_elem_of_singleton; done].
    destruct (net (Write _)); simpl;
      [|destruct (net Close); simpl; [destruct (net WaitClosed)|]; simpl;
        rewrite !elem_of_cons, elem_of_nil; naive_solver].
    destruct (net Drain); simpl;
      [|destruct (net Close); simpl; [destruct (net WaitClosed)|]; simpl;
        rewrite !elem_of_cons, elem_of_nil; naive_solver].
    destruct (net (Read _ _)) as [data|]; simpl;
      [destruct (decode _); simpl|];
      (destruct (net Close); simpl; [destruct (net WaitClosed)|]; simpl;
       rewrite !elem_of_cons, elem_of_nil; unfold py_min; naive_solver).
  - intros n t log data. unfold_io. simpl.
    destruct (net (Read n t)) as [d|]; simpl; [|done].
    intros [= <-]. rewrite length_take. lia.
  - intros Hopen Hfail. unfold_io. simpl.
    destruct (net (OpenConnection ip p timeout)); [clear Hopen|done]. simpl.
    assert (∀ data, net (Read 128 (py_min 0.6%float timeout)) = Some data →
                    net (Write [Byte.x0d; Byte.x0a]) ≠ None → net Drain ≠ None →
                    decode (take 128 data) = None) as Hdecode.
    { intros data Hdata ? ?.
      destruct Hfail as [?|[?|[?|(d & Hd & ?)]]]; [congruence..|].
      rewrite Hdata in Hd. by injection Hd as <-. }
    destruct (net (Write _)); simpl;
      [|destruct (net Close); simpl; [destruct (net WaitClosed)|]; done].
    destruct (net Drain); simpl;
      [|destruct (net Close); simpl; [destruct (net WaitClosed)|]; done].
    destruct (net (Read _ _)) as [data|]; simpl;
      [rewrite (Hdecode data) by done; simpl|];
      (destruct (net Close); simpl; [destruct (net WaitClosed)|]; done).
Qed.

Lemma probe_banner_limits_witness :
  probe Sample.decode Sample.silent "10.0.0.1" 22 1.2%float true = (true, "")
  ∧ probe Sample.decode (Sample.greets Sample.ssh_banner) "10.0.0.1" 22 0.25%float true
    = (true, "SSH-2.0")
  ∧ ∀ n t, Read n t ∈ probe_log Sample.decode (Sample.greets Sample.ssh_banner)
                        "10.0.0.1" 22 0.25%float true →
           n = 128%nat ∧ t = 0.25%float.
Proof.
  split; [|split].
  - apply (probe_banner_limits Sample.decode Sample.silent "10.0.0.1" 22 1.2%float).
    + vm_compute. discriminate.
    + right. right. left. vm_compute. reflexivity.
    + vm_compute. discriminate.
  - vm_compute. reflexivity.
  - apply (probe_banner_limits Sample.decode (Sample.greets Sample.ssh_banner)).
Defined.

(** ** Probe Scheduler *)

Lemma elem_of_create_tasks ips ports ip p :
  (ip, p) ∈ create_tasks ips ports ↔ ip ∈ ips ∧ p ∈ ports.
Proof.
  unfold create_tasks. rewrite list_elem_of_bind. split.
  - intros (ip' & (p' & Hp & ?)%list_elem_of_bind & ?).
    apply list_elem_of_singleton in Hp. by simplify_eq.
  - intros [? ?]. exists ip. split; [|done].
    apply list_elem_of_bind. exists p. split; [left|done].
Qed.

Lemma length_create_tasks ips ports :
  length (create_tasks ips ports) = (length ips * length ports)%nat.
Proof.
  unfold create_tasks. induction ips as [|ip ips IH]; [done|].
  rewrite bind_cons, length_app, IH. simpl. f_equal. clear IH.
  induction ports as [|p ports IHp]; [done|].
  rewrite bind_cons, length_app, IHp. done.
Qed.

Lemma elem_of_working_ports ports exclude p :
  p ∈ working_ports ports exclude ↔ (p ∉ exclude) ∧ p ∈ ports.
Proof. unfold working_ports. by rewrite list_elem_of_filter. Qed.

Lemma results_append_keys ip e (r : report) : (results_append ip e r).*1 = r.*1.
Proof.
  unfold results_append. induction r as [|[k v] r IH]; [done|].
  rewrite !fmap_cons, IH. simpl. by case_bool_decide.
Qed.

Lemma elem_of_results_append ip e (r : report) k v :
  (k, v) ∈ results_append ip e r →
  (k, v) ∈ r ∨ ∃ v', k = ip ∧ v = v' ++ [e] ∧ (k, v') ∈ r.
Proof.
  unfold results_append. intros ([k' v'] & Heq & Hin)%list_elem_of_fmap.
  simpl in Heq. case_bool_decide; simplify_eq; [right|left]; eauto.
Qed.

Lemma report_pairs_append ip e (r : report) :
  NoDup r.*1 → ip ∈ r.*1 →
  report_pairs (results_append ip e r) ≡ₚ (ip, port e) :: report_pairs r.
Proof.
  unfold report_pairs, results_append.
  induction r as [|[k v] r IH]; intros Hnd Hin; [by apply elem_of_nil in Hin|].
  rewrite fmap_cons in Hnd, Hin. apply NoDup_cons in Hnd as [Hk Hnd].
  rewrite fmap_cons, !bind_cons. simpl. case_bool_decide as Heq; simpl.
  - subst k. rewrite fmap_app. simpl.
    assert (((λ kv : string * list entry,
               if bool_decide (kv.1 = ip) then (kv.1, kv.2 ++ [e]) else kv) <$> r) = r)
      as ->.
    { clear IH Hin Hnd. induction r as [|[k' v'] r IHr]; [done|].
      rewrite fmap_cons in Hk. apply not_elem_of_cons in Hk as [? ?].
      rewrite fmap_cons. simpl. rewrite bool_decide_eq_false_2 by done.
      f_equal. auto. }
    rewrite <- app_assoc. simpl.
    by rewrite <- Permutation_middle.
  - apply elem_of_cons in Hin as [?|Hin]; [done|].
    rewrite (IH Hnd Hin). by rewrite <- Permutation_middle.
Qed.

Lemma NoDup_dedup xs : NoDup (dedup xs).
Proof. rewrite dedup_first_seen. apply NoDup_first_seen. Qed.

Lemma elem_of_dedup xs x : x ∈ dedup xs ↔ x ∈ xs.
Proof. apply dedup_first_seen_order. Qed.
Section SchedulerFacts.
Variable decode : list Byte.byte → option string.
Variables (timeout : float) (do_banner open_only : bool).

Abbreviation step' := (step decode timeout do_banner open_only).
Abbreviation steps' := (steps decode timeout do_banner open_only).

(** What [task_finish] changes, whatever the probe returns. *)
Lemma task_finish_fields ip p net st :
  ∃ ok b,
    probe decode net ip p timeout do_banner = (ok, b)
    ∧ task_finish decode timeout do_banner open_only ip p net st
      = Sched (sem st + 1) (waiting st) (active st)
          (if ok || negb open_only then
             results_append ip
               (Entry p (if ok then "open" else "closed") (if ok then b else ""))
               (results st)
           else results st)
          (S (done st)) (attempts st).
Proof.
  unfold task_finish. destruct (probe _ _ _ _ _ _) as [ok b]. by exists ok, b.
Qed.

Lemma scan_start_inv ips ports capacity exclude st0 :
  scan_start ips ports capacity exclude = Some st0 →
  scan_inv open_only ips (create_tasks ips (working_ports ports exclude)) capacity st0.
Proof.
  unfold scan_start. case_bool_decide; [done|]. intros [= <-].
  split; simpl; try done.
  - lia.
  - lia.
  - by rewrite app_nil_r.
  - unfold empty_results. rewrite <- list_fmap_compose. apply list_fmap_id.
  - intros t Ht. by apply elem_of_nil in Ht.
  - unfold empty_results. intros ip entries e (k & [= -> ->] & _)%list_elem_of_fmap He.
    by apply elem_of_nil in He.
  - unfold empty_results. intros ip entries e (k & [= -> ->] & _)%list_elem_of_fmap He.
    by apply elem_of_nil in He.
  - intros _. rewrite app_nil_r. unfold report_pairs, empty_results.
    induction (dedup ips) as [|k l IH]; [done|]. by rewrite fmap_cons, bind_cons.
Qed.

Lemma step_inv ips tasks capacity st ev st' :
  (∀ ip p, (ip, p) ∈ tasks → ip ∈ ips) →
  scan_inv open_only ips tasks capacity st →
  step' st ev = Some st' →
  scan_inv open_only ips tasks capacity st'.
Proof.
  intros Htasks [Hsem Hslots Htk Hdone Hkeys Hact Hent Hst Hall].
  destruct ev as [i|j net]; simpl.
  - destruct (waiting st !! i) as [t|] eqn:Hi; simpl; [|done].
    case_bool_decide; [|done]. intros [= <-].
    split; simpl; try done.
    + lia.
    + rewrite length_app. simpl. lia.
    + rewrite <- Htk. transitivity ((t :: delete i (waiting st)) ++ attempts st).
      * simpl. rewrite app_assoc. symmetry. apply Permutation_cons_append.
      * f_equiv. symmetry. by apply delete_Permutation.
    + rewrite !length_app. simpl. lia.
    + intros t' [? | ->%list_elem_of_singleton]%elem_of_app; [auto|].
      rewrite <- Htk. apply elem_of_app. left. by eapply list_elem_of_lookup_2.
    + intros Hoo. by rewrite app_assoc, (Hall Hoo).
  - destruct (active st !! j) as [[ip p]|] eqn:Hj; simpl; [|done].
    destruct (task_finish_fields ip p net
                (Sched (sem st) (waiting st) (delete j (active st))
                   (results st) (done st) (attempts st)))
      as (ok & b & Hprobe & ->).
    assert ((ip, p) ∈ tasks) as Htask.
    { apply Hact. by eapply list_elem_of_lookup_2. }
    assert (length (active st) = S (length (delete j (active st)))) as Hlen.
    { by rewrite (delete_Permutation _ _ _ Hj) at 1. }
    intros [= <-]. split; simpl.
    + lia.
    + lia.
    + done.
    + lia.
    + destruct (ok || negb open_only); [|done]. by rewrite results_append_keys.
    + intros t Ht. apply Hact. rewrite (delete_Permutation _ _ _ Hj). by right.
    + intros k v e. destruct (ok || negb open_only); [|by apply Hent].
      intros [?|(v' & -> & -> & Hv')]%elem_of_results_append; [by apply Hent|].
      intros [? | ->%list_elem_of_singleton]%elem_of_app; [by eapply Hent; eauto|done].
    + intros k v e. destruct (ok || negb open_only) eqn:Hcond; [|by apply (Hst k)].
      intros [?|(v' & -> & -> & Hv')]%elem_of_results_append; [by apply (Hst k)|].
      intros [? | ->%list_elem_of_singleton]%elem_of_app; [by eapply Hst; eauto|].
      simpl. destruct ok; [by left|]. right. by destruct open_only.
    + intros Hoo. rewrite Hoo, orb_true_r.
      rewrite report_pairs_append; simpl.
      * rewrite <- (Hall Hoo).
        transitivity (report_pairs (results st) ++ (ip, p) :: delete j (active st)).
        { apply Permutation_middle. }
        f_equiv. symmetry. by apply delete_Permutation.
      * rewrite Hkeys. apply NoDup_dedup.
      * rewrite Hkeys. apply elem_of_dedup. eauto.
Qed.

Lemma steps_inv ips tasks capacity evs st st' :
  (∀ ip p, (ip, p) ∈ tasks → ip ∈ ips) →
  scan_inv open_only ips tasks capacity st →
  steps' st evs = Some st' →
  scan_inv open_only ips tasks capacity st'.
Proof.
  intros Htasks. revert st. induction evs as [|ev evs IH]; intros st Hinv; simpl.
  { by intros [= <-]. }
  destruct (step' st ev) as [st1|] eqn:Hstep; simpl; [|done].
  apply IH. by eapply step_inv.
Qed.
End SchedulerFacts.
(** A returned scan ended in a state that satisfies the invariant and has
    no task left. *)
Lemma run_scan_Returned decode ips ports timeout capacity do_banner progress
    open_only exclude evs rep probed :
  run_scan decode ips ports timeout capacity do_banner progress open_only exclude evs
  = Returned (rep, probed) →
  ∃ st, scan_inv open_only ips (create_tasks ips (working_ports ports exclude))
          capacity st
        ∧ waiting st = [] ∧ active st = []
        ∧ rep = final_report open_only (results st) ∧ probed = attempts st.
Proof.
  unfold run_scan.
  destruct (scan_start ips ports capacity exclude) as [st0|] eqn:Hstart; [|done].
  destruct (steps _ _ _ _ st0 evs) as [st|] eqn:Hsteps; [|done].
  unfold finished. case_bool_decide as Hfin; [|done]. destruct Hfin as [? ?].
  intros [= <- <-]. exists st. split; [|done].
  eapply steps_inv; [|by apply scan_start_inv|done].
  intros ip p. rewrite elem_of_create_tasks. tauto.
Qed.

Lemma elem_of_final_report open_only (r : report) ip entries :
  (ip, entries) ∈ final_report open_only r ↔
  (entries ≠ [] ∧ (open_only = false ∨ Exists (λ e, is_open e = true) entries))
  ∧ (ip, entries) ∈ r.
Proof. unfold final_report. by rewrite list_elem_of_filter. Qed.

(** C1. A scan that returns created one probe task per (host, port) pair
    with the port outside the exclusion set, [|H| * |P - E|] tasks in all,
    and probed each of them once; no entry of the report it returns has a
    port of the exclusion set. *)
Theorem run_scan_probes_and_exclusion decode ips ports timeout capacity
    do_banner progress open_only exclude evs rep probed :
  run_scan decode ips ports timeout capacity do_banner progress open_only exclude evs
  = Returned (rep, probed) →
  length (create_tasks ips (working_ports ports exclude))
  = (length ips * length (filter (λ p, p ∉ exclude) ports))%nat
  ∧ (∀ ip p, (ip, p) ∈ create_tasks ips (working_ports ports exclude)
             ↔ ip ∈ ips ∧ p ∈ ports ∧ p ∉ exclude)
  ∧ probed ≡ₚ create_tasks ips (working_ports ports exclude)
  ∧ length probed = (length ips * length (filter (λ p, p ∉ exclude) ports))%nat
  ∧ ∀ ip entries e, (ip, entries) ∈ rep → e ∈ entries → port e ∉ exclude.
Proof.
  intros (st & Hinv & Hw & Ha & -> & ->)%run_scan_Returned.
  assert (attempts st ≡ₚ create_tasks ips (working_ports ports exclude)) as Hperm.
  { rewrite <- (inv_tasks _ _ _ _ _ Hinv), Hw. done. }
  split; [apply length_create_tasks|]. split; [|split; [done|split]].
  - intros ip p. rewrite elem_of_create_tasks, elem_of_working_ports. tauto.
  - rewrite Hperm. apply length_create_tasks.
  - intros ip entries e [_ Hin]%elem_of_final_report He.
    pose proof (inv_entries _ _ _ _ _ Hinv ip entries e Hin He) as Htask.
    apply elem_of_create_tasks in Htask as [_ Hp].
    apply elem_of_working_ports in Hp. tauto.
Qed.

(** C9. From the start of a scan on, the semaphore's counter never drops below
    zero and the tasks that are probing are exactly as many as the slots
    taken, hence never more than the capacity; a task starts probing only by
    taking a free slot, a probe completes only for a task that holds one, and
    a negative capacity starts no scan. The default capacity is 1024. *)
Theorem concurrency_bounded decode timeout do_banner open_only ips ports
    capacity exclude evs st0 st :
  scan_start ips ports capacity exclude = Some st0 →
  steps decode timeout do_banner open_only st0 evs = Some st →
  (0 ≤ sem st
   ∧ Z.of_nat (length (active st)) = capacity - sem st
   ∧ Z.of_nat (length (active st)) ≤ capacity)
  ∧ (∀ i st', step decode timeout do_banner open_only st (Acquire i) = Some st' →
       0 < sem st ∧ length (active st') = S (length (active st)))
  ∧ (∀ j net st', step decode timeout do_banner open_only st (Finish j net) = Some st' →
       is_Some (active st !! j) ∧ S (length (active st')) = length (active st))
  ∧ (∀ ips' ports' exclude' n, n < 0 → scan_start ips' ports' n exclude' = None)
  ∧ ∀ targets, Args.concurrency (Args.defaults targets) = 1024.
Proof.
  intros Hstart Hsteps.
  assert (scan_inv open_only ips (create_tasks ips (working_ports ports exclude))
            capacity st) as Hinv.
  { eapply steps_inv; [|by apply scan_start_inv|done].
    intros ip p. rewrite elem_of_create_tasks. tauto. }
  destruct Hinv as [Hsem Hslots _ _ _ _ _ _ _].
  split; [lia|]. split; [|split; [|split; [|done]]].
  - intros i st'. simpl. destruct (waiting st !! i); simpl; [|done].
    case_bool_decide; [|done]. intros [= <-]. simpl.
    rewrite length_app. simpl. split; [done|lia].
  - intros j net st'. simpl.
    destruct (active st !! j) as [[ip p]|] eqn:Hj; simpl; [|done].
    destruct (task_finish_fields decode timeout do_banner open_only ip p net
                (Sched (sem st) (waiting st) (delete j (active st))
                   (results st) (done st) (attempts st)))
      as (ok & b & _ & ->).
    intros [= <-]. simpl. split; [by eexists|].
    by rewrite (delete_Permutation _ _ _ Hj) at 2.
  - intros ips' ports' exclude' n Hn. unfold scan_start.
    by rewrite bool_decide_eq_true_2.
Qed.
Lemma sample_scan_open : SampleScan.run true
  = Returned (SampleScan.open_report, SampleScan.probed).
Proof. vm_compute. reflexivity. Qed.

Lemma sample_scan_all : SampleScan.run false
  = Returned (SampleScan.full_report, SampleScan.probed).
Proof. vm_compute. reflexivity. Qed.

Lemma run_scan_probes_and_exclusion_witness :
  SampleScan.run true = Returned (SampleScan.open_report, SampleScan.probed)
  ∧ length SampleScan.probed = 4%nat
  ∧ ∀ ip entries e,
      (ip, entries) ∈ SampleScan.open_report → e ∈ entries →
      port e ∉ SampleScan.exclude.
Proof.
  assert (SampleScan.run true
          = Returned (SampleScan.open_report, SampleScan.probed)) as Hrun.
  { vm_compute. reflexivity. }
  split; [exact Hrun|].
  destruct (run_scan_probes_and_exclusion _ _ _ _ _ _ _ _ _ _ _ _ Hrun)
    as (_ & _ & _ & Hlen & Hrep).
  split; [exact Hlen|exact Hrep].
Defined.

Lemma concurrency_bounded_witness :
  ∃ st, steps Sample.decode 1.2%float true true
          (Sched 2 (create_tasks SampleScan.ips
                      (working_ports SampleScan.ports SampleScan.exclude))
             [] (empty_results SampleScan.ips) 0 [])
          (take 2 SampleScan.events) = Some st
        ∧ length (active st) = 2%nat
        ∧ Z.of_nat (length (active st)) ≤ 2
        ∧ step Sample.decode 1.2%float true true st (Acquire 0) = None.
Proof.
  eexists. split; [vm_compute; reflexivity|].
  split; [reflexivity|]. split; [|vm_compute; reflexivity].
  eapply (concurrency_bounded Sample.decode 1.2%float true true
            SampleScan.ips SampleScan.ports 2 SampleScan.exclude
            (take 2 SampleScan.events)).
  - vm_compute. reflexivity.
  - vm_compute. reflexivity.
Defined.
(** ** Result Aggregator *)

Lemma filter_all {A} (P : A → Prop) `{∀ x, Decision (P x)} (l : list A) :
  Forall P l → filter P l = l.
Proof.
  induction 1 as [|x l Hx _ IH]; [done|].
  by rewrite filter_cons, decide_True, IH.
Qed.

Lemma sorted_by_port_Permutation entries : sorted_by_port entries ≡ₚ entries.
Proof. apply sorted_Permutation. Qed.

Lemma pretty_entries_all_open entries :
  (∀ e, e ∈ entries → state e = "open") →
  pretty_entries true entries = sorted_by_port entries.
Proof.
  intros Hopen. unfold pretty_entries. apply filter_all, Forall_forall.
  intros e He%elem_of_sorted. unfold is_open. by rewrite bool_decide_eq_true_2; auto.
Qed.

Lemma row_entries_all_open entries :
  (∀ e, e ∈ entries → state e = "open") →
  row_entries true entries = sorted_by_port entries.
Proof.
  intros Hopen. unfold row_entries. apply filter_all, Forall_forall.
  intros e He%elem_of_sorted [_ Hclosed]. unfold is_open in Hclosed.
  rewrite bool_decide_eq_true_2 in Hclosed by auto. done.
Qed.

Lemma row_entries_show_all entries : row_entries false entries = sorted_by_port entries.
Proof.
  unfold row_entries. apply filter_all, Forall_forall. intros e _ [? _]. done.
Qed.

Lemma report_pairs_final_show_all (r : report) :
  report_pairs (final_report false r) = report_pairs r.
Proof.
  unfold report_pairs, final_report. induction r as [|[k v] r IH]; [done|].
  rewrite filter_cons. destruct (decide _) as [?|Hno].
  - by rewrite !bind_cons, IH.
  - rewrite bind_cons, IH. simpl in *.
    destruct v; [done|]. destruct Hno. split; [done|by left].
Qed.

(** C5. The report a scan returns has no host without entries. In open-only
    mode, which is the default, every host of the report has an open entry
    and only open entries, and each renderer shows exactly these entries; in
    show-all mode the report holds one entry for every probe that was made,
    and each renderer shows all entries of a host. *)
Theorem open_only_filtering decode ips ports timeout capacity do_banner
    progress open_only exclude evs rep probed :
  run_scan decode ips ports timeout capacity do_banner progress open_only exclude evs
  = Returned (rep, probed) →
  (∀ ip entries, (ip, entries) ∈ rep → entries ≠ [])
  ∧ (open_only = true →
     ∀ ip entries, (ip, entries) ∈ rep →
       (∃ e, e ∈ entries ∧ state e = "open")
       ∧ (∀ e, e ∈ entries → state e = "open")
       ∧ pretty_entries true entries ≡ₚ entries
       ∧ row_entries true entries ≡ₚ entries)
  ∧ (open_only = false →
     report_pairs rep ≡ₚ probed
     ∧ ∀ ip entries, (ip, entries) ∈ rep →
         pretty_entries false entries ≡ₚ entries
         ∧ row_entries false entries ≡ₚ entries)
  ∧ ∀ targets, Args.open_only (Args.defaults targets) = true.
Proof.
  intros (st & Hinv & Hw & Ha & -> & ->)%run_scan_Returned.
  split; [|split; [|split; [|done]]].
  - intros ip entries [[? _] _]%elem_of_final_report. done.
  - intros -> ip entries [[_ [?|Hex]] Hin]%elem_of_final_report; [done|].
    assert (∀ e, e ∈ entries → state e = "open") as Hopen.
    { intros e He.
      destruct (inv_states _ _ _ _ _ Hinv ip entries e Hin He) as [?|[? _]]; done. }
    split; [|split; [done|split]].
    + apply Exists_exists in Hex as (e & He & _). eauto.
    + rewrite pretty_entries_all_open by done. apply sorted_by_port_Permutation.
    + rewrite row_entries_all_open by done. apply sorted_by_port_Permutation.
  - intros ->. split.
    + rewrite report_pairs_final_show_all.
      rewrite <- (inv_all _ _ _ _ _ Hinv eq_refl), Ha. by rewrite app_nil_r.
    + intros ip entries _. rewrite row_entries_show_all.
      split; apply sorted_by_port_Permutation.
Qed.

Lemma open_only_filtering_witness :
  (∀ ip entries, (ip, entries) ∈ SampleScan.open_report →
     ∃ e, e ∈ entries ∧ state e = "open")
  ∧ report_pairs SampleScan.full_report ≡ₚ SampleScan.probed.
Proof.
  assert (SampleScan.run true
          = Returned (SampleScan.open_report, SampleScan.probed)) as Hopen.
  { vm_compute. reflexivity. }
  assert (SampleScan.run false
          = Returned (SampleScan.full_report, SampleScan.probed)) as Hall.
  { vm_compute. reflexivity. }
  split.
  - intros ip entries Hin.
    exact (proj1 (proj1 (proj2 (open_only_filtering _ _ _ _ _ _ _ _ _ _ _ _ Hopen))
                    eq_refl ip entries Hin)).
  - exact (proj1 (proj1 (proj2 (proj2 (open_only_filtering _ _ _ _ _ _ _ _ _ _ _ _
                                             Hall)))
                    eq_refl)).
Defined.
Lemma StronglySorted_filter {A} (R : relation A) (P : A → Prop)
    `{∀ x, Decision (P x)} (l : list A) :
  StronglySorted R l → StronglySorted R (filter P l).
Proof.
  induction 1 as [|x l _ IH Hx]; [constructor|].
  rewrite filter_cons. destruct (decide (P x)); [|done].
  constructor; [done|]. apply Forall_forall. intros y [_ Hy]%list_elem_of_filter.
  rewrite Forall_forall in Hx. auto.
Qed.

Lemma sorted_by_port_ascending entries :
  StronglySorted (λ a b, port a ≤ port b) (sorted_by_port entries).
Proof.
  apply (StronglySorted_weaken (λ a b, (port a <=? port b) = true)).
  { intros a b. apply Z.leb_le. }
  apply sorted_StronglySorted.
  - intros a b ?%Z.leb_gt. apply Z.leb_le. lia.
  - intros a b c ?%Z.leb_le ?%Z.leb_le. apply Z.leb_le. lia.
Qed.

(** The three text renderers sort by port themselves. *)
Lemma pretty_entries_ascending open_only entries :
  StronglySorted (λ a b, port a ≤ port b) (pretty_entries open_only entries).
Proof.
  unfold pretty_entries. destruct open_only.
  - apply StronglySorted_filter, sorted_by_port_ascending.
  - apply sorted_by_port_ascending.
Qed.

Lemma row_entries_ascending open_only entries :
  StronglySorted (λ a b, port a ≤ port b) (row_entries open_only entries).
Proof. apply StronglySorted_filter, sorted_by_port_ascending. Qed.

(** The document [print_json] writes: hosts sorted by name, the entries of
    each host in the order of the report. *)
Lemma print_json_document (rep : report) :
  print_json rep
  = [Json (JObj (sorted (λ a b, String.leb a.1 b.1)
                   ((λ kv, (kv.1, JArr (entry_json_sorted <$> kv.2))) <$> rep)))].
Proof.
  unfold print_json, report_json. simpl. do 4 f_equal.
  rewrite <- list_fmap_compose. apply list_fmap_ext. intros _ [k v] _. simpl.
  f_equal. f_equal. rewrite <- list_fmap_compose. by apply list_fmap_ext.
Qed.

(** C4 fails on the JSON rendering: with two open ports whose probes complete
    in the order 80, 22, [--json] writes the entry of port 80 before that of
    port 22, while [--csv] on the same run writes port 22 first. *)
Theorem json_rendering_keeps_completion_order :
  Sample.main (SampleRun.args true false false) SampleRun.events
  = Returned
      (Exit 0
         [Json (JObj [("10.0.0.1",
                       JArr [entry_json_sorted (Entry 80 "open" "HTTP/1.0 400");
                             entry_json_sorted (Entry 22 "open" "")])])],
       SampleRun.probed)
  ∧ Sample.main (SampleRun.args false true false) SampleRun.events
    = Returned
        (Exit 0 [csv_line "10.0.0.1" (Entry 22 "open" "");
                 csv_line "10.0.0.1" (Entry 80 "open" "HTTP/1.0 400")],
         SampleRun.probed).
Proof. split; vm_compute; reflexivity. Qed.

(** C10. In open-only mode no state of a scan holds a closed entry in any
    host's list, so the report the scan returns has open entries only, and
    the document [print_json] writes for it, one array per host with the
    entries of the report as they are, has only entries whose state is
    open. *)
Theorem open_only_collects_open_entries decode ips ports timeout capacity
    do_banner progress exclude :
  (∀ evs st0 st ip entries e,
     scan_start ips ports capacity exclude = Some st0 →
     steps decode timeout do_banner true st0 evs = Some st →
     (ip, entries) ∈ results st → e ∈ entries → state e = "open")
  ∧ ∀ evs rep probed,
      run_scan decode ips ports timeout capacity do_banner progress true exclude evs
      = Returned (rep, probed) →
      (∀ ip entries e, (ip, entries) ∈ rep → e ∈ entries → state e = "open")
      ∧ ∃ members,
          print_json rep = [Json (JObj members)]
          ∧ ∀ host doc, (host, doc) ∈ members →
              ∃ entries,
                (host, entries) ∈ rep
                ∧ doc = JArr ((λ e, JObj [("banner", JStr (banner e));
                                          ("port", JNum (port e));
                                          ("state", JStr "open")]) <$> entries).
Proof.
  split.
  - intros evs st0 st ip entries e Hstart Hsteps Hin He.
    assert (scan_inv true ips (create_tasks ips (working_ports ports exclude))
              capacity st) as Hinv.
    { eapply steps_inv; [|by apply scan_start_inv|done].
      intros ip' p. rewrite elem_of_create_tasks. tauto. }
    destruct (inv_states _ _ _ _ _ Hinv ip entries e Hin He) as [?|[? _]]; done.
  - intros evs rep probed (st & Hinv & _ & _ & -> & _)%run_scan_Returned.
    assert (∀ ip entries e, (ip, entries) ∈ final_report true (results st) →
                            e ∈ entries → state e = "open") as Hopen.
    { intros ip entries e [_ Hin]%elem_of_final_report He.
      destruct (inv_states _ _ _ _ _ Hinv ip entries e Hin He) as [?|[? _]]; done. }
    split; [done|]. eexists. split; [apply print_json_document|].
    intros host doc ([k v] & [= -> ->] & Hin)%elem_of_sorted%list_elem_of_fmap.
    exists v. split; [done|]. simpl. f_equal.
    apply list_fmap_ext. intros _ e He%list_elem_of_lookup_2.
    unfold entry_json_sorted. by rewrite (Hopen k v e Hin He).
Qed.

Lemma open_only_collects_open_entries_witness :
  (∀ ip entries e, (ip, entries) ∈ SampleScan.open_report → e ∈ entries →
     state e = "open")
  ∧ ∃ members, print_json SampleScan.open_report = [Json (JObj members)].
Proof.
  assert (SampleScan.run true
          = Returned (SampleScan.open_report, SampleScan.probed)) as Hrun.
  { vm_compute. reflexivity. }
  destruct (proj2 (open_only_collects_open_entries Sample.decode SampleScan.ips
                     SampleScan.ports 1.2%float 2 true false SampleScan.exclude)
              _ _ _ Hrun) as (Hopen & members & Hdoc & _).
  split; [exact Hopen|]. exists members. exact Hdoc.
Defined.
(** ** The command *)

Lemma create_tasks_nil ips : create_tasks ips [] = [].
Proof. unfold create_tasks. induction ips as [|ip ips IH]; [done|]. by rewrite bind_cons, IH. Qed.

Lemma final_report_empty_results open_only ips :
  final_report open_only (empty_results ips) = [].
Proof.
  unfold final_report, empty_results. induction (dedup ips) as [|k l IH]; [done|].
  rewrite fmap_cons, filter_cons. destruct (decide _) as [[Hne _]|_]; [done|apply IH].
Qed.

(** A scan without tasks returns the empty report at once, and in no other
    way. *)
Lemma run_scan_no_tasks decode ips ports timeout capacity do_banner progress
    open_only exclude :
  0 ≤ capacity → working_ports ports exclude = [] →
  run_scan decode ips ports timeout capacity do_banner progress open_only exclude []
  = Returned ([], [])
  ∧ ∀ evs,
      evs ≠ [] →
      run_scan decode ips ports timeout capacity do_banner progress open_only
        exclude evs = Incomplete.
Proof.
  intros Hcap Hports. unfold run_scan, scan_start.
  rewrite bool_decide_eq_false_2 by lia. rewrite Hports, create_tasks_nil.
  split.
  - simpl. by rewrite final_report_empty_results.
  - by intros [|[i|j net] evs] ?.
Qed.

(** C2, as the code has it. An empty port list is a fatal input error when
    the parsed list is empty before the exclusion set is subtracted: [main]
    then returns 2 and starts no probe. When the list is not empty and only
    becomes empty by the exclusion, a run with resolvable targets and a
    non-negative capacity starts no probe either, renders the empty report
    and returns 0. *)
Theorem empty_port_list_exit_code ip_network_hosts is_ip_address getaddrinfo
    decode (a : Args.t) :
  (parse_ports (Args.ports a) = Some [] →
   ∀ evs, main ip_network_hosts is_ip_address getaddrinfo decode a evs
          = Returned (Exit 2 [], []))
  ∧ ∀ tokens ports exclude ip ips,
      parse_inputs ip_network_hosts a = Some (tokens, ports, exclude) →
      materialize_ips is_ip_address getaddrinfo tokens = Some (ip :: ips) →
      0 ≤ Args.concurrency a →
      working_ports ports exclude = [] →
      ports ≠ []
      ∧ main ip_network_hosts is_ip_address getaddrinfo decode a []
        = Returned (Exit 0 (render a []), [])
      ∧ ∀ evs r,
          main ip_network_hosts is_ip_address getaddrinfo decode a evs = Returned r →
          r = (Exit 0 (render a []), []).
Proof.
  split.
  - intros Hports evs. unfold main, parse_inputs.
    destruct (expand_targets _ _); simpl; [|done]. by rewrite Hports.
  - intros tokens ports exclude ip ips Hparse Hips Hcap Hwork.
    split.
    { revert Hparse. unfold parse_inputs.
      destruct (expand_targets _ _); simpl; [|done].
      destruct (parse_ports _) as [ps|]; simpl; [|done].
      case_bool_decide; [done|].
      destruct (parse_exclude _); simpl; [|done]. by intros [= _ <- _]. }
    destruct (run_scan_no_tasks decode (ip :: ips) ports (Args.timeout a)
                (Args.concurrency a) (negb (Args.no_banner a)) (Args.progress a)
                (Args.open_only a) exclude Hcap Hwork) as [Hrun Honly].
    unfold main. rewrite Hparse, Hips. split.
    + by rewrite Hrun.
    + intros [|ev evs] r.
      * rewrite Hrun. by intros [= <-].
      * by rewrite Honly.
Qed.

(** C2 as stated fails: with ports "80" and exclusion "80" the working port
    list is empty after the exclusion, yet [main] returns 0. *)
Lemma empty_after_exclusion_returns_0 :
  parse_ports (Args.ports excluded_args) = Some [80]
  ∧ (∃ exclude, parse_exclude (Args.exclude excluded_args) = Some exclude
                ∧ working_ports [80] exclude = [])
  ∧ Sample.main excluded_args [] = Returned (Exit 0 [Text "No open ports found."], []).
Proof.
  split; [vm_compute; reflexivity|]. split; [|vm_compute; reflexivity].
  eexists. split; [reflexivity|]. vm_compute. reflexivity.
Qed.

Lemma empty_port_list_exit_code_witness :
  (∀ evs, Sample.main invalid_ports_args evs = Returned (Exit 2 [], []))
  ∧ Sample.main excluded_args [] = Returned (Exit 0 [Text "No open ports found."], [])
  ∧ ∀ evs r, Sample.main excluded_args evs = Returned r →
             r = (Exit 0 [Text "No open ports found."], []).
Proof.
  split.
  - apply (empty_port_list_exit_code Sample.ip_network_hosts Sample.is_ip_address
             Sample.getaddrinfo Sample.decode).
    vm_compute. reflexivity.
  - assert (parse_inputs Sample.ip_network_hosts excluded_args
            = Some (["10.0.0.1"], [80], {[80]})) as Hparse.
    { vm_compute. reflexivity. }
    assert (materialize_ips Sample.is_ip_address Sample.getaddrinfo ["10.0.0.1"]
            = Some ["10.0.0.1"]) as Hips.
    { vm_compute. reflexivity. }
    assert (0 ≤ Args.concurrency excluded_args) as Hcap.
    { vm_compute. discriminate. }
    assert (working_ports [80] ({[80]} : gset Z) = []) as Hwork.
    { vm_compute. reflexivity. }
    destruct (proj2 (empty_port_list_exit_code Sample.ip_network_hosts
                       Sample.is_ip_address Sample.getaddrinfo Sample.decode
                       excluded_args)
                _ _ _ _ _ Hparse Hips Hcap Hwork) as (_ & Hmain & Honly).
    split; [exact Hmain|exact Honly].
Defined.

(** C3 fails on the code: a name that [getaddrinfo] cannot resolve raises,
    nothing catches the exception, and it escapes [main] although another
    target is a literal address. Only a name that resolves to no address at
    all is passed over, and a run whose names all do so returns 2. *)
Theorem resolution_failure_escapes :
  materialize_ips Sample.is_ip_address Sample.getaddrinfo
    ["nosuch.invalid"; "192.168.0.1"] = None
  ∧ (∀ evs, Sample.main (Args.defaults ["nosuch.invalid"; "192.168.0.1"]) evs
            = Returned (Uncaught gaierror, []))
  ∧ materialize_ips Sample.is_ip_address Sample.getaddrinfo
      ["empty.lan"; "192.168.0.1"] = Some ["192.168.0.1"]
  ∧ ∀ evs, Sample.main (Args.defaults ["empty.lan"]) evs = Returned (Exit 2 [], []).
Proof.
  split; [vm_compute; reflexivity|]. split; [intros evs; vm_compute; reflexivity|].
  split; [vm_compute; reflexivity|]. intros evs. vm_compute. reflexivity.
Qed.

(** Whatever the platform, one unresolvable name among the tokens makes
    [materialize_ips] raise and the exception escape [main]. *)
Lemma materialize_ips_raises is_ip_address getaddrinfo toks tok :
  tok ∈ toks → is_ip_address tok = false → getaddrinfo tok = None →
  materialize_ips is_ip_address getaddrinfo toks = None.
Proof.
  intros Hin Hlit Hfail. unfold materialize_ips.
  rewrite materialize_loop_gather.
  assert (gather_addresses is_ip_address getaddrinfo toks = None) as ->; [|done].
  induction toks as [|t toks IH]; [by apply elem_of_nil in Hin|].
  simpl. apply elem_of_cons in Hin as [<-|Hin].
  - unfold token_addresses, resolve_target. by rewrite Hlit, Hfail.
  - rewrite IH by done. by destruct (token_addresses _ _ t).
Qed.

Lemma main_resolution_failure ip_network_hosts is_ip_address getaddrinfo decode
    a tokens ports exclude tok evs :
  parse_inputs ip_network_hosts a = Some (tokens, ports, exclude) →
  tok ∈ tokens → is_ip_address tok = false → getaddrinfo tok = None →
  main ip_network_hosts is_ip_address getaddrinfo decode a evs
  = Returned (Uncaught gaierror, []).
Proof.
  intros Hparse Hin Hlit Hfail. unfold main. rewrite Hparse.
  by rewrite (materialize_ips_raises _ _ _ _ Hin Hlit Hfail).
Qed.

(** ** Examples from the test suite *)

Example parse_ports_common_includes_22 :
  ∃ ports, parse_ports "common" = Some ports ∧ 22 ∈ ports.
Proof.
  eexists. split; [reflexivity|]. apply (bool_decide_unpack _). by vm_compute.
Qed.

Example parse_ports_ranges_and_dedupe :
  parse_ports "5-7,7-9,22" = Some [5; 6; 7; 8; 9; 22].
Proof. vm_compute. reflexivity. Qed.

Example parse_exclude_range :
  parse_exclude (Some "80-81,443") = Some (list_to_set [80; 81; 443]).
Proof. vm_compute. reflexivity. Qed.

Example expand_targets_cidr_order_and_dedupe :
  expand_targets Sample.ip_network_hosts ["192.168.0.0/30"; "192.168.0.1"]
  = Some ["192.168.0.1"; "192.168.0.2"].
Proof. vm_compute. reflexivity. Qed.

Example parse_ports_swapped_range :
  parse_ports " 9 - 7 , 0, 70000 ,+3" = Some [3; 7; 8; 9].
Proof. vm_compute. reflexivity. Qed.

Example parse_ports_malformed : parse_ports "22,x" = None.
Proof. vm_compute. reflexivity. Qed.

(** * Further properties of the code *)

(** ** Python string helpers *)

Lemma lstrip_clean s :
  match PyStr.lstrip s with
  | String c _ => PyStr.is_space c = false
  | EmptyString => True
  end.
Proof.
  induction s as [|c s IH]; simpl; [done|].
  destruct (PyStr.is_space c) eqn:Hc; [done|]. simpl. done.
Qed.

Lemma lstrip_id s :
  match s with String c _ => PyStr.is_space c = false | EmptyString => True end →
  PyStr.lstrip s = s.
Proof. destruct s as [|c s]; simpl; [done|]. by intros ->. Qed.

Lemma rstrip_head c s :
  PyStr.is_space c = false → ∃ r, PyStr.rstrip (String c s) = String c r.
Proof.
  intros Hc. simpl. destruct (PyStr.rstrip s); [rewrite Hc|]; by eexists.
Qed.

Lemma rstrip_idemp s : PyStr.rstrip (PyStr.rstrip s) = PyStr.rstrip s.
Proof.
  induction s as [|c s IH]; simpl; [done|].
  destruct (PyStr.rstrip s) as [|d r] eqn:Hr.
  - destruct (PyStr.is_space c) eqn:Hc; simpl; [done|]. by rewrite Hc.
  - simpl in *. by rewrite IH.
Qed.

Lemma strip_idemp s : PyStr.strip (PyStr.strip s) = PyStr.strip s.
Proof.
  unfold PyStr.strip.
  rewrite (lstrip_id (PyStr.rstrip (PyStr.lstrip s))); [apply rstrip_idemp|].
  pose proof (lstrip_clean s) as Hclean.
  destruct (PyStr.lstrip s) as [|c t]; simpl; [done|].
  destruct (PyStr.rstrip t); [rewrite Hclean|]; done.
Qed.

Lemma split_nonempty sep s : PyStr.split sep s ≠ [].
Proof.
  destruct s as [|c s]; simpl; [done|].
  case_bool_decide; [done|]. by destruct (PyStr.split sep s).
Qed.

Lemma split_app sep s1 s2 :
  PyStr.split sep (s1 +:+ String sep s2) = PyStr.split sep s1 ++ PyStr.split sep s2.
Proof.
  induction s1 as [|c s1 IH]; simpl.
  { by rewrite bool_decide_eq_true_2. }
  change (String.app s1 (String sep s2)) with (s1 +:+ String sep s2).
  case_bool_decide; [by rewrite IH|]. rewrite IH.
  pose proof (split_nonempty sep s1). by destruct (PyStr.split sep s1).
Qed.

Lemma contains_app sep s1 s2 :
  PyStr.contains sep (s1 +:+ s2) = PyStr.contains sep s1 || PyStr.contains sep s2.
Proof.
  induction s1 as [|c s1 IH]; simpl; [done|].
  change (String.app s1 s2) with (s1 +:+ s2). rewrite IH. by rewrite orb_assoc.
Qed.

Lemma lower_contains sep s :
  PyStr.lower_char sep = sep → (∀ c, PyStr.lower_char c = sep → c = sep) →
  PyStr.contains sep (PyStr.lower s) = PyStr.contains sep s.
Proof.
  intros Hsep Hinj. induction s as [|c s IH]; simpl; [done|]. rewrite IH. f_equal.
  apply bool_decide_ext. split; [apply Hinj|]. by intros ->.
Qed.
(** ** Port Set Builder: further properties *)

Lemma parse_parts_acc parts out :
  parse_parts parts out = (λ o, out ∪ o) <$> parse_parts parts ∅.
Proof.
  revert out. induction parts as [|part rest IH]; intros out.
  { simpl. by rewrite (right_id_L ∅ (∪)). }
  rewrite !parse_parts_cons. case_bool_decide; [apply IH|].
  destruct (parse_segment _) as [seg|]; simpl; [|done].
  rewrite IH, (IH (∅ ∪ _)). destruct (parse_parts rest ∅) as [o|]; simpl; [|done].
  f_equal. by rewrite (left_id_L ∅ (∪)), (assoc_L (∪)).
Qed.

Lemma parse_parts_app l1 l2 out :
  parse_parts (l1 ++ l2) out = parse_parts l1 out ≫= parse_parts l2.
Proof.
  revert out. induction l1 as [|part rest IH]; intros out; [done|].
  rewrite <- app_comm_cons, !parse_parts_cons. case_bool_decide; [apply IH|].
  destruct (parse_segment _) as [seg|]; simpl; [apply IH|done].
Qed.

Lemma sorted_valid_elements (set : gset Z) :
  StronglySorted Z.lt (sorted_ints (filter (λ p, valid_port p = true) (elements set)))
  ∧ ∀ p, p ∈ sorted_ints (filter (λ p, valid_port p = true) (elements set))
         ↔ 1 ≤ p ≤ 65535 ∧ p ∈ set.
Proof.
  split.
  - apply StronglySorted_le_NoDup_lt; [apply sorted_ints_ascending|].
    unfold sorted_ints. rewrite sorted_Permutation.
    apply NoDup_filter, NoDup_elements.
  - intros p. unfold sorted_ints.
    rewrite elem_of_sorted, list_elem_of_filter, elem_of_elements.
    unfold valid_port. rewrite andb_true_iff, !Z.leb_le. done.
Qed.

Lemma parse_ports_not_alias s :
  PyStr.lower s ≠ "common" →
  parse_ports s
  = set ← parse_parts (PyStr.split ","%char s) ∅;
    Some (sorted_ints (filter (λ p, valid_port p = true) (elements set))).
Proof. intros Hs. unfold parse_ports. by rewrite bool_decide_eq_false_2. Qed.

(** X1. Whatever the specification, alias or not, a port list that
    [parse_ports] returns is strictly ascending and lies within [1, 65535]. *)
Theorem parse_ports_port_set s out :
  parse_ports s = Some out →
  StronglySorted Z.lt out ∧ ∀ p, p ∈ out → 1 ≤ p ≤ 65535.
Proof.
  unfold parse_ports. case_bool_decide.
  - intros [= <-]. split.
    + by apply (bool_decide_unpack _); vm_compute.
    + apply Forall_forall. by apply (bool_decide_unpack _); vm_compute.
  - destruct (parse_parts _ _) as [set|]; simpl; [|done]. intros [= <-].
    destruct (sorted_valid_elements set) as [Hsorted Helem].
    split; [done|]. intros p Hp. by apply Helem in Hp as [? _].
Qed.

Lemma parse_ports_port_set_witness :
  StronglySorted Z.lt [3; 7; 8; 9] ∧ ∀ p, p ∈ [3; 7; 8; 9] → 1 ≤ p ≤ 65535.
Proof.
  apply (parse_ports_port_set " 9 - 7 , 0, 70000 ,+3"). vm_compute. reflexivity.
Defined.

(** [int] does not skip the separators that [strip] removes, and gives up on
    a literal of more than 4300 digits. *)
Example int_rejects :
  PyStr.int (String "5" (String (ascii_of_nat 31) "")) = None
  ∧ parse_ports ("5" +:+ String (ascii_of_nat 31) "-7") = None
  ∧ parse_ports (String (ascii_of_nat 31) "5-7") = Some [5; 6; 7]
  ∧ PyStr.int (String.concat "" (replicate 4301 "1")) = None
  ∧ is_Some (PyStr.int (String.concat "" (replicate 4300 "1"))).
Proof. repeat split; try (vm_compute; reflexivity). vm_compute. eauto. Qed.

Lemma lower_char_comma c : PyStr.lower_char c = ","%char → c = ","%char.
Proof.
  destruct c as [[] [] [] [] [] [] [] []]; vm_compute; congruence.
Qed.

Lemma comma_not_alias s1 s2 : PyStr.lower (s1 +:+ String ","%char s2) ≠ "common".
Proof.
  intros Heq.
  assert (PyStr.contains ","%char (PyStr.lower (s1 +:+ String ","%char s2)) = true)
    as Hc.
  { rewrite lower_contains; [|done|apply lower_char_comma].
    rewrite contains_app. apply orb_true_iff. by right. }
  rewrite Heq in Hc. vm_compute in Hc. done.
Qed.

(** X2. Joining two port specifications with a comma unions them: for
    specifications other than the alias, the joined one raises exactly when
    one of the two does, and otherwise yields, strictly ascending, the ports
    of the one list or the other. *)
Theorem parse_ports_comma s1 s2 :
  PyStr.lower s1 ≠ "common" → PyStr.lower s2 ≠ "common" →
  (parse_ports (s1 +:+ String ","%char s2) = None
   ↔ parse_ports s1 = None ∨ parse_ports s2 = None)
  ∧ ∀ l1 l2, parse_ports s1 = Some l1 → parse_ports s2 = Some l2 →
      ∃ out, parse_ports (s1 +:+ String ","%char s2) = Some out
             ∧ StronglySorted Z.lt out
             ∧ ∀ p, p ∈ out ↔ p ∈ l1 ∨ p ∈ l2.
Proof.
  intros H1 H2.
  rewrite (parse_ports_not_alias _ (comma_not_alias s1 s2)).
  rewrite (parse_ports_not_alias _ H1), (parse_ports_not_alias _ H2).
  rewrite split_app, parse_parts_app.
  destruct (parse_parts (PyStr.split _ s1) ∅) as [set1|]; simpl.
  2: { split; [split; [by left|done]|]. by intros l1 l2 ?. }
  rewrite parse_parts_acc.
  destruct (parse_parts (PyStr.split _ s2) ∅) as [set2|]; simpl.
  2: { split; [split; [by right|done]|]. by intros l1 l2 _ ?. }
  split; [by split; [|intros [?|?]]|].
  intros l1 l2 [= <-] [= <-]. eexists. split; [done|].
  destruct (sorted_valid_elements (set1 ∪ set2)) as [Hsorted Helem].
  split; [done|]. intros p.
  rewrite Helem, (proj2 (sorted_valid_elements set1)),
    (proj2 (sorted_valid_elements set2)), elem_of_union. tauto.
Qed.

Lemma parse_ports_comma_witness :
  ∃ out, parse_ports "9-7,8-10" = Some out
         ∧ StronglySorted Z.lt out
         ∧ ∀ p, p ∈ out ↔ p ∈ [7; 8; 9] ∨ p ∈ [8; 9; 10].
Proof.
  apply (parse_ports_comma "9-7" "8-10"); [by vm_compute|by vm_compute|..];
    vm_compute; reflexivity.
Defined.

Lemma filter_none {A} (P : A → Prop) `{∀ x, Decision (P x)} (l : list A) :
  (∀ x, x ∈ l → ¬ P x) → filter P l = [].
Proof.
  induction l as [|x l IH]; intros Hl; [done|].
  rewrite filter_cons, decide_False by (apply Hl; left).
  apply IH. intros y Hy. apply Hl. by right.
Qed.

(** X3. An exclusion that is absent or empty removes nothing. Any other
    exclusion raises exactly when [parse_ports] raises on it, and otherwise
    the working list is the port list, in its order, without the ports that
    [parse_ports] gives for the exclusion; so excluding the scanned
    specification itself leaves no port. *)
Theorem parse_exclude_working_ports (x : string) (ports : list Z) :
  working_ports ports ∅ = ports
  ∧ parse_exclude None = Some ∅
  ∧ parse_exclude (Some "") = Some ∅
  ∧ (x ≠ "" →
     (parse_exclude (Some x) = None ↔ parse_ports x = None)
     ∧ (∀ xs, parse_ports x = Some xs →
          ∃ E, parse_exclude (Some x) = Some E
               ∧ working_ports ports E = filter (λ p, p ∉ xs) ports)
     ∧ (parse_ports x = Some ports →
          ∃ E, parse_exclude (Some x) = Some E ∧ working_ports ports E = [])).
Proof.
  split; [|split; [done|split; [done|]]].
  { unfold working_ports. apply filter_all, Forall_forall.
    intros p _. apply not_elem_of_empty. }
  intros Hx. destruct x as [|c x]; [done|]. simpl.
  assert (∀ xs, working_ports ports (list_to_set xs) = filter (λ p, p ∉ xs) ports)
    as Hwork.
  { intros xs. unfold working_ports. apply list_filter_iff.
    intros p. by rewrite elem_of_list_to_set. }
  split; [|split].
  - by destruct (parse_ports _).
  - intros xs ->. simpl. eexists. split; [done|apply Hwork].
  - intros ->. simpl. eexists. split; [done|]. rewrite Hwork.
    apply filter_none. intros p Hp Hn. done.
Qed.

Lemma parse_exclude_working_ports_witness :
  ∃ E, parse_exclude (Some "80-81") = Some E
       ∧ working_ports [22; 80; 81; 443] E
         = filter (λ p, p ∉ [80; 81]) [22; 80; 81; 443].
Proof.
  apply (parse_exclude_working_ports "80-81" [22; 80; 81; 443]); [done|].
  vm_compute. reflexivity.
Defined.
(** ** Target Resolver: further properties *)

Lemma first_seen_NoDup seen xs :
  NoDup xs → (∀ x, x ∈ xs → x ∉ seen) → first_seen seen xs = xs.
Proof.
  intros Hnd. revert seen. induction Hnd as [|x xs Hx Hnd IH]; intros seen Hseen; [done|].
  simpl. rewrite bool_decide_eq_false_2 by (apply Hseen; left). f_equal.
  apply IH. intros y Hy. rewrite elem_of_union, elem_of_singleton.
  intros [->|?]; [done|]. by apply (Hseen y); [right|].
Qed.

Lemma dedup_fix xs : NoDup xs → dedup xs = xs.
Proof.
  intros Hnd. rewrite dedup_first_seen. apply first_seen_NoDup; [done|].
  intros x _. apply not_elem_of_empty.
Qed.

(** X4. The de-duplication loop changes nothing on a list without
    duplicates, so running it twice is running it once. *)
Theorem dedup_idempotent xs :
  dedup (dedup xs) = dedup xs ∧ (NoDup xs → dedup xs = xs).
Proof. split; [apply dedup_fix, NoDup_dedup|apply dedup_fix]. Qed.

Lemma dedup_idempotent_witness :
  dedup ["10.0.0.2"; "10.0.0.1"] = ["10.0.0.2"; "10.0.0.1"].
Proof.
  apply (dedup_idempotent ["10.0.0.2"; "10.0.0.1"]).
  by apply (bool_decide_unpack _); vm_compute.
Defined.

Section TargetResolverMore.
Variable ip_network_hosts : string → option (list string).
Variable is_ip_address : string → bool.
Variable getaddrinfo : string → option (list (family * string)).

Lemma expand_loop_strip targets out :
  expand_loop ip_network_hosts (PyStr.strip <$> targets) out
  = expand_loop ip_network_hosts targets out.
Proof.
  revert out. induction targets as [|t rest IH]; intros out; [done|].
  rewrite fmap_cons. simpl. rewrite strip_idemp.
  case_bool_decide; [apply IH|].
  destruct (PyStr.contains _ _); [|apply IH].
  destruct (ip_network_hosts _); simpl; [apply IH|done].
Qed.

Lemma expand_loop_blank targets out :
  expand_loop ip_network_hosts (filter (λ t, PyStr.strip t ≠ "") targets) out
  = expand_loop ip_network_hosts targets out.
Proof.
  revert out. induction targets as [|t rest IH]; intros out; [done|].
  rewrite filter_cons. destruct (decide _) as [Hne|Hblank]; simpl.
  - rewrite bool_decide_eq_false_2 by done.
    destruct (PyStr.contains _ _); [|apply IH].
    destruct (ip_network_hosts _); simpl; [apply IH|done].
  - rewrite bool_decide_eq_true_2; [apply IH|].
    by destruct (decide (PyStr.strip t = "")).
Qed.

(** X5. [expand_targets] ignores the whitespace around a target and targets
    that are blank: stripping every target first, or removing the blank
    ones, changes neither its result nor whether it raises. *)
Theorem expand_targets_whitespace targets :
  expand_targets ip_network_hosts (PyStr.strip <$> targets)
  = expand_targets ip_network_hosts targets
  ∧ expand_targets ip_network_hosts (filter (λ t, PyStr.strip t ≠ "") targets)
    = expand_targets ip_network_hosts targets.
Proof.
  unfold expand_targets. by rewrite expand_loop_strip, expand_loop_blank.
Qed.

Lemma expand_loop_no_slash targets out :
  (∀ t, t ∈ targets → PyStr.contains "/"%char (PyStr.strip t) = false) →
  expand_loop ip_network_hosts targets out
  = Some (out ++ filter (λ t, t ≠ "") (PyStr.strip <$> targets)).
Proof.
  revert out. induction targets as [|t rest IH]; intros out Hno.
  { simpl. by rewrite app_nil_r. }
  rewrite fmap_cons, filter_cons. simpl.
  assert (∀ t', t' ∈ rest → PyStr.contains "/"%char (PyStr.strip t') = false) as Hrest.
  { intros t' ?. apply Hno. by right. }
  case_bool_decide as Hblank.
  - rewrite decide_False by (intros ?; done). by apply IH.
  - rewrite decide_True by done. rewrite (Hno t) by left.
    rewrite IH by done. by rewrite <- app_assoc.
Qed.

(** X6. Without a CIDR target nothing can go wrong in [expand_targets]: it
    returns the stripped, non-blank targets, de-duplicated in their order.
    With a CIDR target that [ip_network] rejects, it raises whatever the
    other targets are, and [main] then returns 2 without output on standard
    output and without starting a probe. *)
Theorem expand_targets_errors decode targets :
  ((∀ t, t ∈ targets → PyStr.contains "/"%char (PyStr.strip t) = false) →
   expand_targets ip_network_hosts targets
   = Some (dedup (filter (λ t, t ≠ "") (PyStr.strip <$> targets))))
  ∧ (∀ t, t ∈ targets →
       PyStr.contains "/"%char (PyStr.strip t) = true →
       ip_network_hosts (PyStr.strip t) = None →
       expand_targets ip_network_hosts targets = None
       ∧ ∀ a evs, Args.targets a = targets →
           main ip_network_hosts is_ip_address getaddrinfo decode a evs
           = Returned (Exit 2 [], [])).
Proof.
  split.
  - intros Hno. unfold expand_targets. by rewrite expand_loop_no_slash.
  - intros t Hin Hslash Hbad.
    assert (expand_targets ip_network_hosts targets = None) as Hnone.
    { unfold expand_targets.
      assert (∀ out, expand_loop ip_network_hosts targets out = None) as ->; [|done].
      induction targets as [|t' rest IH]; intros out; [by apply elem_of_nil in Hin|].
      simpl. apply elem_of_cons in Hin as [<-|Hin].
      - case_bool_decide as Hblank.
        { rewrite Hblank in Hslash. done. }
        by rewrite Hslash, Hbad.
      - case_bool_decide; [by apply IH|].
        destruct (PyStr.contains _ (PyStr.strip t')); [|by apply IH].
        destruct (ip_network_hosts (PyStr.strip t')); simpl; [by apply IH|done]. }
    split; [done|]. intros a evs <-. unfold main, parse_inputs. by rewrite Hnone.
Qed.

(** X7. [resolve_target] returns a literal address as it is, without asking
    [getaddrinfo]; for a name it returns, without duplicates, exactly the
    addresses of the IPv4 and IPv6 answers, and raises only when
    [getaddrinfo] does. *)
Theorem resolve_target_result t :
  (is_ip_address t = true → resolve_target is_ip_address getaddrinfo t = Some [t])
  ∧ (is_ip_address t = false →
     (resolve_target is_ip_address getaddrinfo t = None ↔ getaddrinfo t = None)
     ∧ ∀ infos, getaddrinfo t = Some infos →
         ∃ ips, resolve_target is_ip_address getaddrinfo t = Some ips
                ∧ NoDup ips
                ∧ ∀ ip, ip ∈ ips ↔ ∃ fam, (fam, ip) ∈ infos ∧ is_inet fam = true).
Proof.
  unfold resolve_target. split; [by intros ->|]. intros ->. split.
  - by destruct (getaddrinfo t).
  - intros infos ->. simpl. eexists. split; [done|]. split; [apply NoDup_dedup|].
    intros ip. rewrite elem_of_dedup, list_elem_of_fmap. split.
    + intros ([fam ip'] & -> & [? ?]%list_elem_of_filter). by exists fam.
    + intros (fam & ? & ?). exists (fam, ip). split; [done|].
      by apply list_elem_of_filter.
Qed.

Lemma gather_literals toks :
  (∀ t, t ∈ toks → is_ip_address t = true) →
  gather_addresses is_ip_address getaddrinfo toks = Some toks.
Proof.
  induction toks as [|t toks IH]; intros Hlit; [done|].
  simpl. unfold token_addresses. rewrite (Hlit t) by left. simpl.
  rewrite IH; [done|]. intros t' ?. apply Hlit. by right.
Qed.

(** X8. When every token is a literal address, [materialize_ips] resolves no
    name and cannot raise: it returns the tokens de-duplicated in their
    order, and returns the tokens unchanged when they are what
    [expand_targets] returned. *)
Theorem materialize_ips_literals toks :
  (∀ t, t ∈ toks → is_ip_address t = true) →
  materialize_ips is_ip_address getaddrinfo toks = Some (dedup toks)
  ∧ ∀ targets, expand_targets ip_network_hosts targets = Some toks →
      materialize_ips is_ip_address getaddrinfo toks = Some toks.
Proof.
  intros Hlit.
  assert (materialize_ips is_ip_address getaddrinfo toks = Some (dedup toks)) as Hm.
  { unfold materialize_ips. rewrite materialize_loop_gather, gather_literals by done.
    done. }
  split; [done|]. intros targets. unfold expand_targets.
  destruct (expand_loop _ _ _) as [out|]; simpl; [|done]. intros [= <-].
  rewrite Hm. f_equal. apply dedup_fix, NoDup_dedup.
Qed.
End TargetResolverMore.
Lemma expand_targets_errors_witness :
  expand_targets Sample.ip_network_hosts [" 10.0.0.1 "; " "; "10.0.0.1"]
  = Some ["10.0.0.1"]
  ∧ ∀ evs, Sample.main (Args.defaults ["10.0.0.1"; "10.0.0.0/33"]) evs
           = Returned (Exit 2 [], []).
Proof.
  split.
  - apply (proj1 (expand_targets_errors Sample.ip_network_hosts Sample.is_ip_address
                    Sample.getaddrinfo Sample.decode [" 10.0.0.1 "; " "; "10.0.0.1"])).
    intros t Ht. repeat (apply elem_of_cons in Ht as [->|Ht]; [by vm_compute|]).
    by apply elem_of_nil in Ht.
  - intros evs.
    apply (proj2 (expand_targets_errors Sample.ip_network_hosts Sample.is_ip_address
                    Sample.getaddrinfo Sample.decode ["10.0.0.1"; "10.0.0.0/33"])
             "10.0.0.0/33").
    + right. left.
    + vm_compute. reflexivity.
    + vm_compute. reflexivity.
    + reflexivity.
Defined.

Lemma resolve_target_result_witness :
  resolve_target Sample.is_ip_address Sample.getaddrinfo "10.0.0.1" = Some ["10.0.0.1"]
  ∧ ∃ ips, resolve_target Sample.is_ip_address Sample.getaddrinfo "router.lan" = Some ips
           ∧ NoDup ips.
Proof.
  split.
  - apply (resolve_target_result Sample.is_ip_address Sample.getaddrinfo "10.0.0.1").
    vm_compute. reflexivity.
  - destruct (proj2 (proj2 (resolve_target_result Sample.is_ip_address
                              Sample.getaddrinfo "router.lan") eq_refl)
                [(AF_INET, "192.168.0.1"); (AF_INET, "192.168.0.1")] eq_refl)
      as (ips & Hips & Hnd & _).
    exists ips. split; [exact Hips|exact Hnd].
Defined.

Lemma materialize_ips_literals_witness :
  materialize_ips Sample.is_ip_address Sample.getaddrinfo
    ["10.0.0.2"; "10.0.0.1"; "10.0.0.2"]
  = Some (dedup ["10.0.0.2"; "10.0.0.1"; "10.0.0.2"]).
Proof.
  apply (materialize_ips_literals Sample.ip_network_hosts Sample.is_ip_address
           Sample.getaddrinfo ["10.0.0.2"; "10.0.0.1"; "10.0.0.2"]).
  intros t Ht. repeat (apply elem_of_cons in Ht as [->|Ht]; [by vm_compute|]).
  by apply elem_of_nil in Ht.
Defined.

(** ** Probe: further properties *)

(** X9. A probe whose connection attempt fails asks the network for nothing
    else and returns closed with an empty banner; a probe whose connection
    opened always asks to close it; and with banner capture disabled a probe
    never writes to the peer, flushes or reads. *)
Theorem probe_requests decode net ip p timeout do_banner :
  (net (OpenConnection ip p timeout) = None →
   probe decode net ip p timeout do_banner = (false, "")
   ∧ probe_log decode net ip p timeout do_banner = [OpenConnection ip p timeout])
  ∧ (net (OpenConnection ip p timeout) ≠ None →
     Close ∈ probe_log decode net ip p timeout do_banner)
  ∧ (∀ r, r ∈ probe_log decode net ip p timeout false →
       r = OpenConnection ip p timeout ∨ r = Close ∨ r = WaitClosed).
Proof.
  split; [|split].
  - intros Hopen. unfold_io. simpl. by rewrite Hopen.
  - intros Hopen. unfold_io. simpl.
    destruct (net (OpenConnection ip p timeout)); [clear Hopen|done]. simpl.
    destruct do_banner; simpl.
    + destruct (net (Write _)); simpl;
        [destruct (net Drain); simpl;
         [destruct (net (Read _ _)); simpl; [destruct (decode _); simpl|]|]|];
        (destruct (net Close); simpl; [destruct (net WaitClosed)|]; simpl;
         rewrite !elem_of_cons; tauto).
    + destruct (net Close); simpl; [destruct (net WaitClosed)|]; simpl;
        rewrite !elem_of_cons; tauto.
  - intros r. unfold_io. simpl.
    destruct (net (OpenConnection ip p timeout)); simpl;
      [destruct (net Close); simpl; [destruct (net WaitClosed)|]|]; simpl;
      rewrite !elem_of_cons, elem_of_nil; tauto.
Qed.

Lemma probe_requests_witness :
  probe Sample.decode Sample.refused "10.0.0.1" 22 1.2%float true = (false, "")
  ∧ Close ∈ probe_log Sample.decode Sample.silent "10.0.0.1" 22 1.2%float true.
Proof.
  split.
  - apply (probe_requests Sample.decode Sample.refused "10.0.0.1" 22 1.2%float true).
    reflexivity.
  - apply (probe_requests Sample.decode Sample.silent "10.0.0.1" 22 1.2%float true).
    vm_compute. discriminate.
Defined.

(** X10. The banner a probe returns is never padded with whitespace, and it
    is non-empty only when the port is open, banner capture is enabled and
    the banner sequence went through: it is then the stripped decoding of the
    at most 128 bytes read. *)
Theorem probe_banner_result decode net ip p timeout do_banner :
  PyStr.strip (probe decode net ip p timeout do_banner).2
  = (probe decode net ip p timeout do_banner).2
  ∧ ((probe decode net ip p timeout do_banner).2 ≠ "" →
     (probe decode net ip p timeout do_banner).1 = true
     ∧ do_banner = true
     ∧ ∃ data text,
         net (Read 128 (py_min 0.6%float timeout)) = Some data
         ∧ decode (take 128 data) = Some text
         ∧ (probe decode net ip p timeout do_banner).2 = PyStr.strip text).
Proof.
  unfold_io. simpl.
  destruct (net (OpenConnection ip p timeout)); simpl; [|done].
  destruct do_banner; simpl.
  - destruct (net (Write _)); simpl;
      [|destruct (net Close); simpl; [destruct (net WaitClosed)|]; done].
    destruct (net Drain); simpl;
      [|destruct (net Close); simpl; [destruct (net WaitClosed)|]; done].
    destruct (net (Read _ _)) as [data|]; simpl;
      [|destruct (net Close); simpl; [destruct (net WaitClosed)|]; done].
    destruct (decode _) as [text|] eqn:Hdec; simpl;
      [|destruct (net Close); simpl; [destruct (net WaitClosed)|]; done].
    destruct (net Close); simpl; [|done].
    destruct (net WaitClosed); simpl;
      (split; [apply strip_idemp|]; intros _; split; [done|]; split; [done|];
       by exists data, text).
  - destruct (net Close); simpl; [destruct (net WaitClosed)|]; done.
Qed.

Lemma probe_banner_result_witness :
  (probe Sample.decode (Sample.greets Sample.ssh_banner) "10.0.0.1" 22 1.2%float true).1
  = true.
Proof.
  apply (probe_banner_result Sample.decode (Sample.greets Sample.ssh_banner)
           "10.0.0.1" 22 1.2%float true).
  vm_compute. discriminate.
Defined.

(** X11. Whether [wait_closed] raises has no effect on what a probe
    returns. *)
Theorem probe_ignores_wait_closed decode net net' ip p timeout do_banner :
  (∀ r, r ≠ WaitClosed → net r = net' r) →
  probe decode net ip p timeout do_banner = probe decode net' ip p timeout do_banner.
Proof.
  intros Hsame.
  pose proof (Hsame (OpenConnection ip p timeout)) as Hopen.
  pose proof (Hsame Close) as Hclose.
  pose proof (Hsame (Write [Byte.x0d; Byte.x0a])) as Hwrite.
  pose proof (Hsame Drain) as Hdrain.
  pose proof (Hsame (Read 128 (py_min 0.6%float timeout))) as Hread.
  unfold_io. destruct do_banner; simpl.
  - rewrite <- Hopen, <- Hclose, <- Hwrite, <- Hdrain, <- Hread by done.
    destruct (net (OpenConnection ip p timeout)); simpl; [|done].
    destruct (net (Write _)); simpl;
      [destruct (net Drain); simpl;
       [destruct (net (Read _ _)); simpl; [destruct (decode _); simpl|]|]|];
      (destruct (net Close); simpl; [|done];
       by destruct (net WaitClosed), (net' WaitClosed)).
  - rewrite <- Hopen, <- Hclose by done.
    destruct (net (OpenConnection ip p timeout)); simpl; [|done].
    destruct (net Close); simpl; [|done].
    by destruct (net WaitClosed), (net' WaitClosed).
Qed.

Lemma probe_ignores_wait_closed_witness :
  probe Sample.decode (Sample.greets Sample.ssh_banner) "10.0.0.1" 22 1.2%float true
  = probe Sample.decode
      (λ r, match r with WaitClosed => None | _ => Sample.greets Sample.ssh_banner r end)
      "10.0.0.1" 22 1.2%float true.
Proof.
  apply (probe_ignores_wait_closed Sample.decode).
  intros r Hr. by destruct r.
Defined.
(** ** Probe Scheduler: further properties *)

Lemma probe_banner_shape decode net ip p timeout do_banner :
  PyStr.strip (probe decode net ip p timeout do_banner).2
  = (probe decode net ip p timeout do_banner).2
  ∧ (do_banner = false → (probe decode net ip p timeout do_banner).2 = "").
Proof.
  unfold_io. simpl.
  destruct (net (OpenConnection ip p timeout)); simpl; [|done].
  destruct do_banner; simpl.
  - destruct (net (Write _)); simpl;
      [destruct (net Drain); simpl;
       [destruct (net (Read _ _)); simpl; [destruct (decode _); simpl|]|]|];
      (destruct (net Close); simpl; [destruct (net WaitClosed)|]; simpl;
       (split; [done || apply strip_idemp|done])).
  - destruct (net Close); simpl; [destruct (net WaitClosed)|]; done.
Qed.

Section SchedulerMore.
Variable decode : list Byte.byte → option string.
Variables (timeout : float) (do_banner open_only : bool).

Abbreviation step2 := (step decode timeout do_banner open_only).
Abbreviation steps2 := (steps decode timeout do_banner open_only).

(** Induction over the events of a scan, with the invariant at hand. *)
Lemma steps_inv_with (P : sched → Prop) ips tasks capacity :
  (∀ ip p, (ip, p) ∈ tasks → ip ∈ ips) →
  (∀ st ev st', scan_inv open_only ips tasks capacity st → P st →
                step2 st ev = Some st' → P st') →
  ∀ evs st st', scan_inv open_only ips tasks capacity st → P st →
                steps2 st evs = Some st' → P st'.
Proof.
  intros Htasks Hstep. induction evs as [|ev evs IH]; intros st st' Hinv HP; simpl.
  { by intros [= <-]. }
  destruct (step2 st ev) as [st1|] eqn:Hev; simpl; [|done].
  apply IH; [by eapply step_inv|by eapply Hstep].
Qed.

Lemma reachable_inv ips ports capacity exclude evs st0 st :
  scan_start ips ports capacity exclude = Some st0 →
  steps2 st0 evs = Some st →
  scan_inv open_only ips (create_tasks ips (working_ports ports exclude)) capacity st.
Proof.
  intros Hstart Hsteps. eapply steps_inv; [|by apply scan_start_inv|done].
  intros ip p. rewrite elem_of_create_tasks. tauto.
Qed.

(** The entries of the results never outnumber the probes started. *)
Lemma reachable_pairs ips ports capacity exclude evs st0 st :
  scan_start ips ports capacity exclude = Some st0 →
  steps2 st0 evs = Some st →
  report_pairs (results st) ++ active st ⊆+ attempts st.
Proof.
  intros Hstart Hsteps.
  assert (∀ ip p, (ip, p) ∈ create_tasks ips (working_ports ports exclude) → ip ∈ ips)
    as Htasks.
  { intros ip p. rewrite elem_of_create_tasks. tauto. }
  assert (report_pairs (results st0) ++ active st0 ⊆+ attempts st0) as Hstart_pairs.
  { unfold scan_start in Hstart. case_bool_decide; [done|].
    injection Hstart as <-. simpl. rewrite app_nil_r.
    unfold report_pairs, empty_results.
    induction (dedup ips) as [|k l IH]; [done|]. by rewrite fmap_cons, bind_cons. }
  refine (steps_inv_with
            (λ st, report_pairs (results st) ++ active st ⊆+ attempts st)
            ips _ capacity Htasks _ evs st0 st
            (scan_start_inv _ _ _ _ _ _ Hstart) Hstart_pairs Hsteps).
  clear st Hsteps Hstart_pairs. intros st ev st' Hinv HP.
  destruct ev as [i|j net]; simpl.
  - destruct (waiting st !! i) as [t|]; simpl; [|done].
    case_bool_decide; [|done]. intros [= <-]. simpl.
    rewrite app_assoc. by apply submseteq_skips_r.
  - destruct (active st !! j) as [[ip p]|] eqn:Hj; simpl; [|done].
    destruct (task_finish_fields decode timeout do_banner open_only ip p net
                (Sched (sem st) (waiting st) (delete j (active st))
                   (results st) (done st) (attempts st)))
      as (ok & b & _ & ->).
    intros [= <-]. simpl.
    pose proof (delete_Permutation _ _ _ Hj) as Hdel.
    assert (ip ∈ ips) as Hip.
    { apply (Htasks ip p), (inv_active _ _ _ _ _ Hinv).
      by eapply list_elem_of_lookup_2. }
    destruct (ok || negb open_only).
    + rewrite report_pairs_append; simpl.
      * etrans; [|exact HP]. rewrite Hdel at 2.
        by rewrite <- Permutation_middle.
      * rewrite (inv_keys _ _ _ _ _ Hinv). apply NoDup_dedup.
      * rewrite (inv_keys _ _ _ _ _ Hinv). by apply elem_of_dedup.
    + etrans; [|exact HP]. apply submseteq_skips_l.
      rewrite Hdel at 2. by apply submseteq_cons.
Qed.
End SchedulerMore.
Lemma run_scan_Returned_steps decode ips ports timeout capacity do_banner progress
    open_only exclude evs rep probed :
  run_scan decode ips ports timeout capacity do_banner progress open_only exclude evs
  = Returned (rep, probed) →
  ∃ st0 st, scan_start ips ports capacity exclude = Some st0
            ∧ steps decode timeout do_banner open_only st0 evs = Some st
            ∧ waiting st = [] ∧ active st = []
            ∧ rep = final_report open_only (results st) ∧ probed = attempts st.
Proof.
  unfold run_scan.
  destruct (scan_start ips ports capacity exclude) as [st0|] eqn:Hstart; [|done].
  destruct (steps _ _ _ _ st0 evs) as [st|] eqn:Hsteps; [|done].
  unfold finished. case_bool_decide as Hfin; [|done]. destruct Hfin as [? ?].
  intros [= <- <-]. by exists st0, st.
Qed.

Lemma sequential_steps decode timeout do_banner open_only nets w :
  ∀ st, waiting st = w → active st = [] → 1 ≤ sem st →
    ∃ st', steps decode timeout do_banner open_only st (sequential_events nets w)
           = Some st'
           ∧ waiting st' = [] ∧ active st' = []
           ∧ attempts st' = attempts st ++ w.
Proof.
  induction w as [|[ip p] w IH]; intros st Hw Ha Hsem.
  { exists st. by rewrite app_nil_r. }
  unfold sequential_events. rewrite bind_cons.
  change (steps decode timeout do_banner open_only st
            ([Acquire 0; Finish 0 (nets ip p)] ++ sequential_events nets w))
    with (step decode timeout do_banner open_only st (Acquire 0)
          ≫= λ st1, step decode timeout do_banner open_only st1 (Finish 0 (nets ip p))
          ≫= λ st2, steps decode timeout do_banner open_only st2
                      (sequential_events nets w)).
  simpl. rewrite Hw, Ha. simpl. rewrite bool_decide_eq_true_2 by lia. simpl.
  destruct (task_finish_fields decode timeout do_banner open_only ip p (nets ip p)
              (Sched (sem st - 1) w [] (results st) (done st) (attempts st ++ [(ip, p)])))
    as (ok & b & _ & ->).
  edestruct (IH (Sched (sem st - 1 + 1) w []
                   (if ok || negb open_only
                    then results_append ip
                           (Entry p (if ok then "open" else "closed")
                              (if ok then b else "")) (results st)
                    else results st)
                   (S (done st)) (attempts st ++ [(ip, p)])))
    as (st' & Hsteps & Hw' & Ha' & Hatt); simpl; [done|done|lia|].
  exists st'. split; [exact Hsteps|]. split; [done|]. split; [done|].
  rewrite Hatt. simpl. by rewrite <- app_assoc.
Qed.

(** X12. With a capacity of at least one every scan can run to its end:
    whatever the hosts, the ports and the behaviour of the network, the
    schedule that probes the tasks one after the other in submission order is
    an execution of [run_scan] that returns, having probed every task. *)
Theorem run_scan_completes decode ips ports timeout capacity do_banner progress
    open_only exclude nets :
  1 ≤ capacity →
  ∃ rep,
    run_scan decode ips ports timeout capacity do_banner progress open_only exclude
      (sequential_events nets (create_tasks ips (working_ports ports exclude)))
    = Returned (rep, create_tasks ips (working_ports ports exclude)).
Proof.
  intros Hcap. unfold run_scan, scan_start.
  rewrite bool_decide_eq_false_2 by lia.
  edestruct (sequential_steps decode timeout do_banner open_only nets
               (create_tasks ips (working_ports ports exclude))
               (Sched capacity (create_tasks ips (working_ports ports exclude)) []
                  (empty_results ips) 0 []))
    as (st' & -> & Hw & Ha & Hatt); simpl; [done|done|done|].
  unfold finished. rewrite bool_decide_eq_true_2 by done.
  eexists. by rewrite Hatt.
Qed.

Lemma run_scan_completes_witness :
  ∃ rep,
    run_scan Sample.decode SampleScan.ips SampleScan.ports 1.2%float 1 true false
      false SampleScan.exclude
      (sequential_events (λ _ _, Sample.refused)
         (create_tasks SampleScan.ips
            (working_ports SampleScan.ports SampleScan.exclude)))
    = Returned (rep, create_tasks SampleScan.ips
                       (working_ports SampleScan.ports SampleScan.exclude)).
Proof.
  apply (run_scan_completes Sample.decode SampleScan.ips SampleScan.ports
           1.2%float 1 true false false SampleScan.exclude (λ _ _, Sample.refused)).
  lia.
Defined.

(** X13. With a capacity of zero a scan that has at least one task never
    returns: no task can take a slot, so no probe is started and [gather]
    waits for ever. *)
Theorem run_scan_zero_capacity decode ips ports timeout do_banner progress
    open_only exclude evs :
  ips ≠ [] → working_ports ports exclude ≠ [] →
  run_scan decode ips ports timeout 0 do_banner progress open_only exclude evs
  = Incomplete.
Proof.
  intros Hips Hports. unfold run_scan, scan_start. simpl.
  destruct ips as [|ip ips]; [done|].
  destruct (working_ports ports exclude) as [|p ps]; [done|].
  destruct evs as [|[i|j net] evs]; simpl; [done| |done].
  by destruct (_ !! i).
Qed.

Lemma run_scan_zero_capacity_witness :
  run_scan Sample.decode SampleScan.ips SampleScan.ports 1.2%float 0 true false
    true SampleScan.exclude SampleScan.events = Incomplete.
Proof.
  apply run_scan_zero_capacity; vm_compute; discriminate.
Defined.

(** X14. A negative capacity makes [run_scan] raise [ValueError] before any
    task exists, and nothing in [main] catches it: with inputs that parse
    and a host to scan, the exception escapes [main] instead of becoming exit
    code 2. *)
Theorem negative_capacity_escapes ip_network_hosts is_ip_address getaddrinfo
    decode (a : Args.t) tokens ports exclude ip ips evs :
  Args.concurrency a < 0 →
  parse_inputs ip_network_hosts a = Some (tokens, ports, exclude) →
  materialize_ips is_ip_address getaddrinfo tokens = Some (ip :: ips) →
  run_scan decode (ip :: ips) ports (Args.timeout a) (Args.concurrency a)
    (negb (Args.no_banner a)) (Args.progress a) (Args.open_only a) exclude evs
  = Raised ValueError
  ∧ main ip_network_hosts is_ip_address getaddrinfo decode a evs
    = Returned (Uncaught ValueError, []).
Proof.
  intros Hneg Hparse Hips.
  assert (run_scan decode (ip :: ips) ports (Args.timeout a) (Args.concurrency a)
            (negb (Args.no_banner a)) (Args.progress a) (Args.open_only a) exclude evs
          = Raised ValueError) as Hrun.
  { unfold run_scan, scan_start. by rewrite bool_decide_eq_true_2. }
  split; [done|]. unfold main. by rewrite Hparse, Hips, Hrun.
Qed.
Lemma negative_capacity_escapes_witness :
  Sample.main negative_capacity_args [Acquire 0]
  = Returned (Uncaught ValueError, []).
Proof.
  apply (negative_capacity_escapes Sample.ip_network_hosts Sample.is_ip_address
           Sample.getaddrinfo Sample.decode negative_capacity_args
           ["10.0.0.1"] [22] ∅ "10.0.0.1" [] [Acquire 0]).
  - vm_compute. reflexivity.
  - vm_compute. reflexivity.
  - vm_compute. reflexivity.
Defined.

Lemma report_pairs_final_sublist open_only (r : report) :
  report_pairs (final_report open_only r) `sublist_of` report_pairs r.
Proof.
  unfold report_pairs, final_report. induction r as [|[k v] r IH]; [done|].
  rewrite filter_cons. destruct (decide _).
  - rewrite !bind_cons. by apply sublist_app.
  - rewrite bind_cons. by apply sublist_inserts_l.
Qed.

(** X15. The hosts of a returned report are hosts that were given, each host
    at most once, in the order in which the hosts were first given. *)
Theorem report_hosts decode ips ports timeout capacity do_banner progress
    open_only exclude evs rep probed :
  run_scan decode ips ports timeout capacity do_banner progress open_only exclude evs
  = Returned (rep, probed) →
  rep.*1 `sublist_of` dedup ips ∧ NoDup rep.*1 ∧ ∀ ip, ip ∈ rep.*1 → ip ∈ ips.
Proof.
  intros (st & Hinv & _ & _ & -> & _)%run_scan_Returned.
  assert ((final_report open_only (results st)).*1 `sublist_of` dedup ips) as Hsub.
  { rewrite <- (inv_keys _ _ _ _ _ Hinv). unfold final_report.
    apply fmap_sublist, sublist_filter. }
  split; [done|]. split.
  - apply (sublist_NoDup _ _ (NoDup_dedup ips) Hsub).
  - intros ip Hip. apply elem_of_dedup. by apply (elem_of_sublist _ _ _ Hip).
Qed.

Lemma report_hosts_witness :
  SampleScan.open_report.*1 `sublist_of` dedup SampleScan.ips.
Proof.
  assert (SampleScan.run true
          = Returned (SampleScan.open_report, SampleScan.probed)) as Hrun.
  { vm_compute. reflexivity. }
  apply (report_hosts _ _ _ _ _ _ _ _ _ _ _ _ Hrun).
Defined.

(** X16. When the hosts and the ports given to [run_scan] are free of
    duplicates, the returned report holds at most one entry for a host and a
    port. *)
Theorem report_one_entry_per_port decode ips ports timeout capacity do_banner
    progress open_only exclude evs rep probed :
  NoDup ips → NoDup ports →
  run_scan decode ips ports timeout capacity do_banner progress open_only exclude evs
  = Returned (rep, probed) →
  NoDup (report_pairs rep)
  ∧ ∀ ip entries, (ip, entries) ∈ rep → NoDup (port <$> entries).
Proof.
  intros Hips Hports Hrun.
  destruct (run_scan_Returned_steps _ _ _ _ _ _ _ _ _ _ _ _ Hrun)
    as (st0 & st & Hstart & Hsteps & Hw & Ha & -> & _).
  pose proof (reachable_pairs _ _ _ _ _ _ _ _ _ _ _ Hstart Hsteps) as Hsub.
  pose proof (reachable_inv _ _ _ _ _ _ _ _ _ _ _ Hstart Hsteps) as Hinv.
  assert (NoDup (create_tasks ips (working_ports ports exclude))) as Htasks.
  { unfold create_tasks. apply NoDup_bind; [|intros ip _|done].
    - intros ip1 ip2 [ip' p'] _ _
        (q1 & Hq1%list_elem_of_singleton & _)%list_elem_of_bind
        (q2 & Hq2%list_elem_of_singleton & _)%list_elem_of_bind. congruence.
    - apply NoDup_bind; [|intros; apply NoDup_singleton|].
      + intros p1 p2 [ip' p'] _ _
          Hq1%list_elem_of_singleton Hq2%list_elem_of_singleton.
        congruence.
      + by apply NoDup_filter. }
  assert (NoDup (report_pairs (final_report open_only (results st)))) as Hnd.
  { refine (sublist_NoDup _ _ _ (report_pairs_final_sublist _ _)).
    rewrite Ha, app_nil_r in Hsub.
    apply submseteq_Permutation in Hsub as [k Hk].
    rewrite <- (inv_tasks _ _ _ _ _ Hinv), Hw in Htasks. simpl in Htasks.
    rewrite Hk in Htasks. by apply NoDup_app in Htasks as [? _]. }
  split; [done|]. intros ip entries Hin.
  apply list_elem_of_split in Hin as (r1 & r2 & Hr).
  rewrite Hr in Hnd. unfold report_pairs in Hnd.
  rewrite bind_app, bind_cons in Hnd. simpl in Hnd.
  apply NoDup_app in Hnd as (_ & _ & Hnd). apply NoDup_app in Hnd as (Hnd & _ & _).
  rewrite (list_fmap_compose port (pair ip)) in Hnd.
  by apply (NoDup_fmap_1 (pair ip)) in Hnd.
Qed.
Lemma report_one_entry_per_port_witness :
  NoDup (report_pairs SampleScan.full_report).
Proof.
  assert (SampleScan.run false
          = Returned (SampleScan.full_report, SampleScan.probed)) as Hrun.
  { vm_compute. reflexivity. }
  assert (NoDup SampleScan.ips) as Hips.
  { by apply (bool_decide_unpack _); vm_compute. }
  assert (NoDup SampleScan.ports) as Hports.
  { by apply (bool_decide_unpack _); vm_compute. }
  apply (report_one_entry_per_port _ _ _ _ _ _ _ _ _ _ _ _ Hips Hports Hrun).
Defined.

Lemma reachable_banners decode timeout do_banner open_only ips ports capacity
    exclude evs st0 st :
  scan_start ips ports capacity exclude = Some st0 →
  steps decode timeout do_banner open_only st0 evs = Some st →
  ∀ ip entries e, (ip, entries) ∈ results st → e ∈ entries →
    PyStr.strip (banner e) = banner e ∧ (do_banner = false → banner e = "").
Proof.
  intros Hstart Hsteps.
  assert (∀ ip p, (ip, p) ∈ create_tasks ips (working_ports ports exclude) → ip ∈ ips)
    as Htasks.
  { intros ip p. rewrite elem_of_create_tasks. tauto. }
  refine (steps_inv_with decode timeout do_banner open_only
            (λ st, ∀ ip entries e, (ip, entries) ∈ results st → e ∈ entries →
               PyStr.strip (banner e) = banner e ∧ (do_banner = false → banner e = ""))
            ips _ capacity Htasks _ evs st0 st
            (scan_start_inv _ _ _ _ _ _ Hstart) _ Hsteps).
  - clear st Hsteps. intros st ev st' _ HP. destruct ev as [i|j net]; simpl.
    + destruct (waiting st !! i) as [t|]; simpl; [|done].
      case_bool_decide; [|done]. by intros [= <-].
    + destruct (active st !! j) as [[ip p]|] eqn:Hj; simpl; [|done].
      destruct (task_finish_fields decode timeout do_banner open_only ip p net
                  (Sched (sem st) (waiting st) (delete j (active st))
                     (results st) (done st) (attempts st)))
        as (ok & b & Hprobe & ->).
      intros [= <-]. simpl. intros k v e.
      destruct (ok || negb open_only); [|by apply HP].
      intros [?|(v' & -> & -> & Hv')]%elem_of_results_append; [by apply (HP k)|].
      intros [? | ->%list_elem_of_singleton]%elem_of_app; [by eapply HP; eauto|].
      simpl. destruct ok; [|done].
      pose proof (probe_banner_shape decode net ip p timeout do_banner) as Hshape.
      by rewrite Hprobe in Hshape.
  - unfold scan_start in Hstart. case_bool_decide; [done|].
    injection Hstart as <-. simpl. unfold empty_results.
    intros ip entries e (k & [= -> ->] & _)%list_elem_of_fmap He.
    by apply elem_of_nil in He.
Qed.

(** X17. Every entry of a returned report belongs to a host and a port that
    were given; its state is "open" or "closed"; the banner of a closed
    entry is empty; no banner is padded with whitespace; and with banner
    capture disabled every banner is empty. *)
Theorem report_entries_wellformed decode ips ports timeout capacity do_banner
    progress open_only exclude evs rep probed :
  run_scan decode ips ports timeout capacity do_banner progress open_only exclude evs
  = Returned (rep, probed) →
  ∀ ip entries e, (ip, entries) ∈ rep → e ∈ entries →
    ip ∈ ips ∧ port e ∈ ports
    ∧ (state e = "open" ∨ (state e = "closed" ∧ banner e = ""))
    ∧ PyStr.strip (banner e) = banner e
    ∧ (do_banner = false → banner e = "").
Proof.
  intros Hrun ip entries e Hin He.
  destruct (run_scan_Returned_steps _ _ _ _ _ _ _ _ _ _ _ _ Hrun)
    as (st0 & st & Hstart & Hsteps & _ & _ & -> & _).
  apply elem_of_final_report in Hin as [_ Hin].
  pose proof (reachable_inv _ _ _ _ _ _ _ _ _ _ _ Hstart Hsteps) as Hinv.
  pose proof (inv_entries _ _ _ _ _ Hinv ip entries e Hin He) as Htask.
  apply elem_of_create_tasks in Htask as [Hip Hport].
  apply elem_of_working_ports in Hport as [_ Hport].
  destruct (reachable_banners _ _ _ _ _ _ _ _ _ _ _ Hstart Hsteps ip entries e Hin He)
    as [Hstrip Hnob].
  split; [done|]. split; [done|]. split; [|done].
  destruct (inv_states _ _ _ _ _ Hinv ip entries e Hin He) as [?|(_ & ? & ?)]; auto.
Qed.

Lemma report_entries_wellformed_witness :
  "10.0.0.1" ∈ SampleScan.ips
  ∧ port (Entry 443 "open" "HTTP/1.0 400") ∈ SampleScan.ports
  ∧ (state (Entry 443 "open" "HTTP/1.0 400") = "open"
     ∨ (state (Entry 443 "open" "HTTP/1.0 400") = "closed"
        ∧ banner (Entry 443 "open" "HTTP/1.0 400") = ""))
  ∧ PyStr.strip (banner (Entry 443 "open" "HTTP/1.0 400"))
    = banner (Entry 443 "open" "HTTP/1.0 400")
  ∧ (true = false → banner (Entry 443 "open" "HTTP/1.0 400") = "").
Proof.
  apply (report_entries_wellformed Sample.decode SampleScan.ips SampleScan.ports
           1.2%float 2 true false false SampleScan.exclude SampleScan.events
           SampleScan.full_report SampleScan.probed)
    with (entries := [Entry 443 "open" "HTTP/1.0 400"; Entry 22 "open" ""]).
  - vm_compute. reflexivity.
  - vm_compute. apply list_elem_of_here.
  - apply list_elem_of_here.
Defined.

(** X18. Throughout a scan the completed-probe counter, the tasks that wait
    for a slot and the tasks that are probing add up to the total
    [len(ips) * len(ports)] computed at the start; so the counter never
    exceeds the total and equals it when [gather] returns. *)
Theorem progress_counter decode timeout do_banner open_only ips ports capacity
    exclude evs st0 st :
  scan_start ips ports capacity exclude = Some st0 →
  steps decode timeout do_banner open_only st0 evs = Some st →
  (done st + length (waiting st) + length (active st)
   = length ips * length (working_ports ports exclude))%nat
  ∧ (finished st = true →
     done st = (length ips * length (working_ports ports exclude))%nat).
Proof.
  intros Hstart Hsteps.
  pose proof (reachable_inv _ _ _ _ _ _ _ _ _ _ _ Hstart Hsteps) as Hinv.
  pose proof (inv_tasks _ _ _ _ _ Hinv) as Htk.
  apply Permutation_length in Htk. rewrite length_app, length_create_tasks in Htk.
  pose proof (inv_done _ _ _ _ _ Hinv) as Hdone.
  split; [lia|]. unfold finished. intros [Hw Ha]%bool_decide_eq_true.
  rewrite Hw, Ha in *. simpl in *. lia.
Qed.

Lemma progress_counter_witness :
  ∃ st, steps Sample.decode 1.2%float true true
          (Sched 2 (create_tasks SampleScan.ips
                      (working_ports SampleScan.ports SampleScan.exclude))
             [] (empty_results SampleScan.ips) 0 [])
          (take 3 SampleScan.events) = Some st
        ∧ (done st + length (waiting st) + length (active st) = 2 * 2)%nat.
Proof.
  eexists. split; [vm_compute; reflexivity|].
  eapply (progress_counter Sample.decode 1.2%float true true
            SampleScan.ips SampleScan.ports 2 SampleScan.exclude
            (take 3 SampleScan.events)).
  - vm_compute. reflexivity.
  - vm_compute. reflexivity.
Defined.
(** ** Renderers: further properties *)

(** X19. For every report and mode the three text renderers show the same
    entries of a host in the same, ascending, port order: all entries of the
    host in show-all mode, its open entries in open-only mode. *)
Theorem text_renderers_agree open_only entries :
  pretty_entries open_only entries = row_entries open_only entries
  ∧ StronglySorted (λ a b, port a ≤ port b) (row_entries open_only entries)
  ∧ (∀ e, e ∈ row_entries open_only entries
          ↔ e ∈ entries ∧ (open_only = true → state e = "open"))
  ∧ (open_only = false → row_entries open_only entries ≡ₚ entries).
Proof.
  split; [|split; [apply row_entries_ascending|split]].
  - unfold pretty_entries, row_entries. destruct open_only.
    + apply list_filter_iff. intros e. unfold is_open.
      destruct (bool_decide (state e = "open")); naive_solver.
    + symmetry. apply filter_all, Forall_forall. intros e _ [? _]. done.
  - intros e. unfold row_entries, sorted_by_port.
    rewrite list_elem_of_filter, elem_of_sorted.
    unfold is_open. destruct open_only.
    + case_bool_decide; naive_solver.
    + naive_solver.
  - intros ->. rewrite row_entries_show_all. apply sorted_by_port_Permutation.
Qed.

Lemma text_renderers_agree_witness :
  row_entries false [Entry 443 "closed" ""; Entry 80 "open" "HTTP/1.1 200 OK"]
  ≡ₚ [Entry 443 "closed" ""; Entry 80 "open" "HTTP/1.1 200 OK"].
Proof.
  apply (text_renderers_agree false
           [Entry 443 "closed" ""; Entry 80 "open" "HTTP/1.1 200 OK"]).
  reflexivity.
Defined.

Lemma dquote_char c : String c "" = dquote ↔ c = ascii_of_nat 34.
Proof. unfold dquote. split; [by intros [= ->]|by intros ->]. Qed.

(** X20. Doubling the quotes of a banner for the CSV field loses nothing: two
    banners with the same escaped text are the same banner. *)
Theorem double_quotes_lossless s1 s2 :
  double_quotes s1 = double_quotes s2 → s1 = s2.
Proof.
  revert s2. induction s1 as [|c1 s1 IH]; intros [|c2 s2]; simpl; [done|..].
  - case_bool_decide; done.
  - case_bool_decide; done.
  - case_bool_decide as H1; case_bool_decide as H2.
    + apply dquote_char in H1 as ->. apply dquote_char in H2 as ->.
      intros [= Heq]. f_equal. by apply IH.
    + apply dquote_char in H1 as ->. intros [= <-]. by destruct H2.
    + apply dquote_char in H2 as ->. intros [= ->]. by destruct H1.
    + intros [= -> Heq]. f_equal. by apply IH.
Qed.

Lemma double_quotes_lossless_witness :
  dquote +:+ "OK" +:+ dquote = String (ascii_of_nat 34) ("OK" +:+ dquote).
Proof.
  apply (double_quotes_lossless (dquote +:+ "OK" +:+ dquote)
           (String (ascii_of_nat 34) ("OK" +:+ dquote))).
  vm_compute. reflexivity.
Defined.
(** On the report of a returned scan the renderers' own filters retain
    every entry. *)
Lemma returned_report_retained decode ips ports timeout capacity do_banner progress
    open_only exclude evs rep probed :
  run_scan decode ips ports timeout capacity do_banner progress open_only exclude evs
  = Returned (rep, probed) →
  Forall (λ kv, kv.2 ≠ []
                ∧ pretty_entries open_only kv.2 = sorted_by_port kv.2
                ∧ row_entries open_only kv.2 = sorted_by_port kv.2) rep.
Proof.
  intros (st & Hinv & _ & _ & -> & _)%run_scan_Returned.
  apply Forall_forall. intros [ip entries] [[Hne _] Hin]%elem_of_final_report.
  simpl. split; [done|]. destruct open_only.
  - assert (∀ e, e ∈ entries → state e = "open") as Hopen.
    { intros e He.
      destruct (inv_states _ _ _ _ _ Hinv ip entries e Hin He) as [?|[? _]]; done. }
    by rewrite pretty_entries_all_open, row_entries_all_open.
  - by rewrite row_entries_show_all.
Qed.

Lemma sorted_by_port_nil entries : sorted_by_port entries = [] → entries = [].
Proof.
  intros Hnil. apply Permutation_nil_r. by rewrite <- Hnil, sorted_by_port_Permutation.
Qed.

(** X21. On the report that a scan returned, every renderer writes every
    entry: [print_pretty] prints the fallback line exactly when the report is
    empty and otherwise, host by host, a header line and one line per entry;
    [print_csv] and [print_ndjson] print one row per entry; all three in
    ascending port order within a host. *)
Theorem rendered_output_shape decode ips ports timeout capacity do_banner
    progress open_only exclude evs rep probed header :
  run_scan decode ips ports timeout capacity do_banner progress open_only exclude evs
  = Returned (rep, probed) →
  print_pretty rep open_only
  = (if bool_decide (rep = [])
     then [Text (if open_only then "No open ports found." else "No results.")]
     else kv ← rep; Text (newline +:+ kv.1) :: (pretty_line <$> sorted_by_port kv.2))
  ∧ print_csv rep open_only header
    = (if header then [Text "ip,port,protocol,state,banner"] else [])
      ++ (kv ← rep; csv_line kv.1 <$> sorted_by_port kv.2)
  ∧ print_ndjson rep open_only
    = (kv ← rep; ndjson_line kv.1 <$> sorted_by_port kv.2).
Proof.
  intros Hret%returned_report_retained. split; [|split].
  - unfold print_pretty. destruct rep as [|kv0 rep]; [done|].
    rewrite bool_decide_eq_false_2 by done.
    apply Forall_bind_ext. eapply Forall_impl; [exact Hret|].
    intros kv (Hne & -> & _). simpl.
    destruct (sorted_by_port kv.2) eqn:Hs; [|done].
    by apply sorted_by_port_nil in Hs.
  - unfold print_csv. f_equal.
    apply Forall_bind_ext. eapply Forall_impl; [exact Hret|].
    by intros kv (_ & _ & ->).
  - unfold print_ndjson.
    apply Forall_bind_ext. eapply Forall_impl; [exact Hret|].
    by intros kv (_ & _ & ->).
Qed.

Lemma rendered_output_shape_witness :
  print_csv SampleScan.full_report false true
  = [Text "ip,port,protocol,state,banner"]
    ++ (kv ← SampleScan.full_report; csv_line kv.1 <$> sorted_by_port kv.2).
Proof.
  assert (SampleScan.run false
          = Returned (SampleScan.full_report, SampleScan.probed)) as Hrun.
  { vm_compute. reflexivity. }
  apply (rendered_output_shape _ _ _ _ _ _ _ _ _ _ _ _ true Hrun).
Defined.

Lemma StronglySorted_fmap {A B} (R : relation B) (f : A → B) (l : list A) :
  StronglySorted (λ a b, R (f a) (f b)) l → StronglySorted R (f <$> l).
Proof.
  induction 1 as [|x l _ IH Hx]; [constructor|].
  rewrite fmap_cons. constructor; [done|]. by apply Forall_fmap.
Qed.

(** X22. The document [print_json] writes lists the hosts in ascending order
    of their names, whatever their order in the report, and for each host all
    its entries in the order of the report. *)
Theorem print_json_hosts (rep : report) :
  ∃ members,
    print_json rep = [Json (JObj members)]
    ∧ StronglySorted String.le members.*1
    ∧ members ≡ₚ (λ kv, (kv.1, JArr (entry_json_sorted <$> kv.2))) <$> rep.
Proof.
  eexists. split; [apply print_json_document|]. split.
  - apply StronglySorted_fmap.
    apply (StronglySorted_weaken (λ a b, String.leb a.1 b.1 = true)).
    { intros a b Hab. unfold String.le. by rewrite Hab. }
    apply sorted_StronglySorted.
    + intros a b Hab. destruct (total String.le a.1 b.1) as [H|H];
        unfold String.le in H; [by rewrite Hab in H|by apply Is_true_true].
    + intros a b c Hab%Is_true_true Hbc%Is_true_true. apply Is_true_true.
      by apply (transitivity (R := String.le) Hab Hbc).
  - apply sorted_Permutation.
Qed.

(** * The duplicate-file finder *)

Module DupesFacts.
Import Dupes.

Section Grouping.
Context {K V : Type} `{EqDecision K} (key : V → K).

Lemma dd_append_cons k (v : V) kv (d : list (K * list V)) :
  dd_append k v (kv :: d)
  = if decide (kv.1 = k) then (kv.1, kv.2 ++ [v]) :: d else kv :: dd_append k v d.
Proof. done. Qed.

Lemma dd_append_key k (v : V) (d : list (K * list V)) k' :
  k' ∈ (dd_append k v d).*1 ↔ k' = k ∨ k' ∈ d.*1.
Proof.
  induction d as [|kv d IH].
  { change (k' ∈ [k] ↔ k' = k ∨ k' ∈ []).
    rewrite list_elem_of_singleton, elem_of_nil. tauto. }
  rewrite dd_append_cons. destruct (decide (kv.1 = k)) as [<-|Hne].
  - rewrite !fmap_cons, !elem_of_cons. simpl. tauto.
  - rewrite !fmap_cons, !elem_of_cons, IH. tauto.
Qed.

Lemma dd_append_NoDup k (v : V) (d : list (K * list V)) :
  NoDup d.*1 → NoDup (dd_append k v d).*1.
Proof.
  induction d as [|kv d IH]; intros Hnd.
  { change (NoDup [k]). apply NoDup_singleton. }
  rewrite dd_append_cons. rewrite fmap_cons in Hnd.
  apply NoDup_cons in Hnd as [Hkv Hnd].
  destruct (decide (kv.1 = k)) as [<-|Hne]; rewrite fmap_cons.
  - by apply NoDup_cons.
  - apply NoDup_cons. split; [|by apply IH].
    rewrite dd_append_key. intros [?|?]; done.
Qed.

Lemma elem_of_dd_append k (v : V) (d : list (K * list V)) k' vs' :
  NoDup d.*1 →
  (k', vs') ∈ dd_append k v d ↔
    (k' ≠ k ∧ (k', vs') ∈ d)
    ∨ (k' = k ∧ ((∃ vs, (k, vs) ∈ d ∧ vs' = vs ++ [v]) ∨ ((k ∉ d.*1) ∧ vs' = [v]))).
Proof.
  induction d as [|[k0 vs0] d IH]; intros Hnd.
  { change ((k', vs') ∈ [(k, [v])] ↔
            (k' ≠ k ∧ (k', vs') ∈ [])
            ∨ (k' = k ∧ ((∃ vs, (k, vs) ∈ [] ∧ vs' = vs ++ [v])
                         ∨ ((k ∉ []) ∧ vs' = [v])))).
    rewrite list_elem_of_singleton. split.
    - intros Heq. injection Heq as -> ->. right. split; [done|]. right.
      split; [apply not_elem_of_nil|done].
    - intros [[_ Hin]|[-> [(vs & Hin & _)|[_ ->]]]];
        [by apply elem_of_nil in Hin|by apply elem_of_nil in Hin|done]. }
  rewrite fmap_cons in Hnd. simpl in Hnd.
  apply NoDup_cons in Hnd as [Hk0 Hnd]. specialize (IH Hnd).
  assert (∀ vs, (k0, vs) ∉ d) as Hfresh.
  { intros vs Hin. apply Hk0. apply list_elem_of_fmap. by exists (k0, vs). }
  rewrite dd_append_cons, fmap_cons. simpl.
  destruct (decide (k0 = k)) as [->|Hne].
  - rewrite !elem_of_cons. split.
    + intros [Heq|Hin].
      * injection Heq as -> ->. right. split; [done|]. left. exists vs0.
        split; [by left|done].
      * left. split; [|by right]. intros ->. by apply (Hfresh vs').
    + intros [[Hne [Heq|Hin]]|[-> [(vs & [Heq|Hin]%elem_of_cons & ->)|[Hnin ->]]]].
      * by injection Heq as -> ->.
      * by right.
      * injection Heq as ->. by left.
      * by destruct (Hfresh vs).
      * destruct Hnin. by left.
  - rewrite !elem_of_cons, IH. split.
    + intros [Heq|[[? ?]|[-> [(vs & Hin & ->)|[Hnin ->]]]]].
      * injection Heq as -> ->. left. split; [done|by left].
      * left. split; [done|by right].
      * right. split; [done|]. left. exists vs. split; [by right|done].
      * right. split; [done|]. right. split; [|done].
        intros [->|?]; done.
    + intros [[? [Heq|Hin]]|[-> [(vs & [Heq|Hin]%elem_of_cons & ->)|[Hnin ->]]]].
      * by left.
      * right. left. done.
      * by injection Heq as -> ->.
      * right. right. split; [done|]. left. by exists vs.
      * right. right. split; [done|]. right. split; [|done].
        intros Hin. apply Hnin. by right.
Qed.

Lemma grouped_append d xs x :
  grouped key d xs → grouped key (dd_append (key x) x d) (xs ++ [x]).
Proof.
  intros [Hnd Hd]. split; [by apply dd_append_NoDup|].
  intros k vs. rewrite elem_of_dd_append by done. rewrite filter_app.
  split.
  - intros [[Hne Hin]|[-> [(vs0 & Hin & ->)|[Hnin ->]]]].
    + apply Hd in Hin as [? ->]. split; [done|].
      rewrite filter_cons, decide_False by done. by rewrite app_nil_r.
    + apply Hd in Hin as [? ->]. split; [by destruct (filter _ xs)|].
      by rewrite filter_cons, decide_True.
    + split; [done|]. rewrite filter_cons, decide_True by done.
      destruct (filter (λ y, key y = key x) xs) as [|y l] eqn:Hf; [done|].
      destruct Hnin. apply list_elem_of_fmap. exists (key x, y :: l).
      split; [done|]. apply Hd. by rewrite Hf.
  - intros [Hne ->]. destruct (decide (k = key x)) as [->|Hk].
    + right. split; [done|]. rewrite filter_cons, decide_True by done.
      destruct (filter (λ y, key y = key x) xs) as [|y l] eqn:Hf.
      * right. split; [|done]. intros ((k' & vs')& Hk' & Hin)%list_elem_of_fmap.
        simpl in Hk'. subst k'. apply Hd in Hin as [? ->]. done.
      * left. exists (y :: l). split; [|done]. apply Hd. by rewrite Hf.
    + left. split; [done|]. apply Hd.
      rewrite filter_cons, decide_False, app_nil_r in * by done. done.
Qed.

Lemma group_all_grouped d done xs :
  grouped key d done → grouped key (group_all key d xs) (done ++ xs).
Proof.
  revert d done. induction xs as [|x xs IH]; intros d done Hd; simpl.
  { by rewrite app_nil_r. }
  rewrite (cons_middle x), app_assoc. apply IH. by apply grouped_append.
Qed.

Lemma group_all_nil xs : grouped key (group_all key [] xs) xs.
Proof.
  apply (group_all_grouped [] []). split; [constructor|].
  intros k vs. split; [by intros ?%elem_of_nil|]. by intros [? ->].
Qed.
End Grouping.

Section GroupingMore.
Context {K V : Type} `{EqDecision K} (key : V → K).

Lemma group_all_app d (xs ys : list V) :
  group_all key d (xs ++ ys) = group_all key (group_all key d xs) ys.
Proof. unfold group_all. apply foldl_app. Qed.

Lemma dd_append_values k (v : V) (d : list (K * list V)) :
  mjoin (dd_append k v d).*2 ≡ₚ v :: mjoin d.*2.
Proof.
  induction d as [|kv d IH]; [done|].
  rewrite dd_append_cons. destruct (decide (kv.1 = k)).
  - rewrite !fmap_cons. simpl. rewrite <- app_assoc. simpl.
    by rewrite <- Permutation_middle.
  - rewrite !fmap_cons. simpl. rewrite IH. by rewrite <- Permutation_middle.
Qed.

Lemma group_all_values d (xs : list V) :
  mjoin (group_all key d xs).*2 ≡ₚ mjoin d.*2 ++ xs.
Proof.
  revert d. induction xs as [|x xs IH]; intros d; simpl.
  { by rewrite app_nil_r. }
  rewrite IH, dd_append_values. by rewrite <- Permutation_middle.
Qed.

Lemma join_filter_sublist (P : K * list V → Prop) `{∀ g, Decision (P g)}
    (gs : list (K * list V)) :
  mjoin (filter P gs).*2 `sublist_of` mjoin gs.*2.
Proof.
  induction gs as [|g gs IH]; [done|]. rewrite filter_cons.
  destruct (decide (P g)); rewrite ?fmap_cons; simpl.
  - by apply sublist_app.
  - by apply sublist_inserts_l.
Qed.

Lemma two_in_filter (P : V → Prop) `{∀ x, Decision (P x)} f1 f2 (l : list V) :
  two_in f1 f2 l → P f1 → P f2 → two_in f1 f2 (filter P l).
Proof.
  intros (a & b & c & ->) H1 H2.
  exists (filter P a), (filter P b), (filter P c).
  rewrite filter_app, filter_cons, decide_True by done.
  by rewrite filter_app, filter_cons, decide_True.
Qed.

Lemma two_in_join f1 f2 (g : list V) k (gs : list (K * list V)) :
  (k, g) ∈ gs → two_in f1 f2 g → two_in f1 f2 (mjoin gs.*2).
Proof.
  intros (g1 & g2 & ->)%list_elem_of_split (a & b & c & ->).
  exists (mjoin g1.*2 ++ a), b, (c ++ mjoin g2.*2).
  rewrite fmap_app, fmap_cons, join_app. simpl.
  rewrite <- !app_assoc. simpl. by rewrite <- !app_assoc.
Qed.

Lemma two_in_length f1 f2 (l : list V) :
  two_in f1 f2 l → (2 ≤ length l)%nat ∧ f1 ∈ l ∧ f2 ∈ l.
Proof.
  intros (a & b & c & ->). rewrite !length_app. simpl. rewrite length_app. simpl.
  split; [lia|]. split.
  - apply elem_of_app. right. left.
  - apply elem_of_app. right. right. apply elem_of_app. right. left.
Qed.
End GroupingMore.

Lemma two_in_sublist {V} (f1 f2 : V) (l : list V) :
  two_in f1 f2 l ↔ [f1; f2] `sublist_of` l.
Proof.
  unfold two_in. rewrite sublist_cons_l. split.
  - intros (a & b & c & ->). exists a, (b ++ f2 :: c). split; [done|].
    apply sublist_cons_l. exists b, c. split; [done|]. apply sublist_nil_l.
  - intros (k1 & k2 & -> & (k3 & k4 & -> & _)%sublist_cons_l).
    by exists k1, k3, k4.
Qed.

Lemma eligible_inv min_bytes p :
  eligible min_bytes p = true →
  is_file p = Some true
  ∧ ∃ sz, st_size p = Some sz ∧ min_bytes ≤ sz ∧ size_of p = sz.
Proof.
  unfold eligible, size_of. intros [Hf%bool_decide_eq_true Hsz]%andb_prop.
  split; [done|].
  destruct (st_size p) as [sz|]; [|done]. simpl in *.
  apply bool_decide_eq_true in Hsz. exists sz. repeat split; lia.
Qed.

(** The first loop gets through exactly when [is_file] answers for every
    entry, and then holds the kept files grouped by size. *)
Lemma by_size_step_answered min_bytes d p :
  is_file p ≠ None →
  by_size_step min_bytes d p
  = Some (if decide (eligible min_bytes p = true)
          then dd_append (size_of p) p d else d).
Proof.
  unfold by_size_step, eligible, size_of.
  destruct (is_file p) as [[]|], (st_size p) as [sz|]; simpl; try done;
    intros _; try case_bool_decide;
    first [done | by rewrite decide_True | by rewrite decide_False].
Qed.

Lemma by_size_loop_walked min_bytes d listing :
  walked listing →
  by_size_loop min_bytes d listing
  = Some (group_all size_of d (filter (λ p, eligible min_bytes p = true) listing)).
Proof.
  revert d. induction listing as [|p listing IH]; intros d Hw; [done|].
  simpl. rewrite by_size_step_answered by (apply Hw; left). simpl.
  rewrite IH by (intros q Hq; apply Hw; by right).
  rewrite filter_cons. by destruct (decide (_ = true)).
Qed.

Lemma by_size_loop_None min_bytes d listing :
  by_size_loop min_bytes d listing = None ↔ ∃ p, p ∈ listing ∧ is_file p = None.
Proof.
  revert d. induction listing as [|p listing IH]; intros d; simpl.
  { split; [done|]. by intros (? & ?%elem_of_nil & _). }
  destruct (is_file p) as [b|] eqn:Hp.
  - rewrite by_size_step_answered by congruence. simpl. rewrite IH.
    split.
    + intros (q & ? & ?). exists q. split; [by right|done].
    + intros (q & [->|?]%elem_of_cons & Hq); [congruence|eauto].
  - unfold by_size_step. rewrite Hp. simpl. split; [|done].
    intros _. exists p. split; [left|done].
Qed.

Lemma by_size_Some min_bytes listing sizes :
  by_size min_bytes listing = Some sizes →
  walked listing
  ∧ sizes = group_all size_of [] (filter (λ p, eligible min_bytes p = true) listing).
Proof.
  intros Hs.
  assert (walked listing) as Hw.
  { intros p Hp Hnone.
    assert (by_size min_bytes listing = None) as Hn
      by (apply by_size_loop_None; eauto).
    congruence. }
  split; [done|]. unfold by_size in Hs.
  rewrite by_size_loop_walked in Hs by done. congruence.
Qed.

Lemma by_size_grouped min_bytes listing sizes :
  by_size min_bytes listing = Some sizes →
  grouped size_of sizes (filter (λ p, eligible min_bytes p = true) listing).
Proof. intros [_ ->]%by_size_Some. apply group_all_nil. Qed.

Lemma walked_Permutation (l1 l2 : list file) : l1 ≡ₚ l2 → walked l1 → walked l2.
Proof. intros Hp Hw p Hin. apply Hw. by rewrite Hp. Qed.

Section DupesMain.
Context {H : Type} (sha256 : H) (update : H → list Byte.byte → H)
  (hexdigest : H → string) (can_read : Z → bool).

Abbreviation file_hash' := (file_hash sha256 update hexdigest can_read).
Abbreviation readable' := (readable sha256 update hexdigest can_read).
Abbreviation digest_of' := (digest_of sha256 update hexdigest can_read).
Abbreviation hashed' := (hashed sha256 update hexdigest can_read).
Abbreviation dup_groups' := (dup_groups sha256 update hexdigest can_read).
Abbreviation duplicates' := (duplicates sha256 update hexdigest can_read).
Abbreviation main' := (main sha256 update hexdigest can_read).

Lemma hash_fold d (l : list file) :
  foldl (hash_step sha256 update hexdigest can_read) d l
  = group_all digest_of' d (filter (λ p, readable' p = true) l).
Proof.
  assert (∀ d' p, hash_step sha256 update hexdigest can_read d' p
                  = if decide (readable' p = true)
                    then dd_append (digest_of' p) p d' else d') as Hstep.
  { intros d' p. unfold hash_step, readable, digest_of.
    destruct (content p ≫= _) as [h|].
    - destruct (decide _) as [|Hn]; [done|]. exfalso. apply Hn.
      apply bool_decide_eq_true. by eexists.
    - destruct (decide _) as [Hr|]; [|done].
      by apply bool_decide_eq_true in Hr as [? [=]]. }
  revert d. induction l as [|p l IH]; intros d; [done|].
  simpl. rewrite IH, filter_cons, Hstep. by destruct (decide (_ = true)).
Qed.

Lemma group_fold d (gs : list (Z * list file)) :
  foldl (group_step sha256 update hexdigest can_read) d gs
  = group_all digest_of' d
      (filter (λ p, readable' p = true)
         (mjoin (filter (λ g, (2 ≤ length g.2)%nat) gs).*2)).
Proof.
  revert d. induction gs as [|g gs IH]; intros d; [done|].
  simpl. rewrite IH, filter_cons. unfold group_step. case_bool_decide.
  - rewrite decide_False by lia. done.
  - rewrite decide_True by lia. rewrite fmap_cons. simpl.
    rewrite filter_app, group_all_app. by rewrite hash_fold.
Qed.

Lemma dup_groups_grouped min_bytes listing sizes :
  by_size min_bytes listing = Some sizes →
  grouped digest_of' (dup_groups' sizes) (hashed' min_bytes listing).
Proof.
  intros Hs. unfold dup_groups, hashed. rewrite group_fold, Hs. simpl.
  apply group_all_nil.
Qed.

Lemma readable_inv p :
  readable' p = true →
  ∃ bytes, content p = Some bytes
           ∧ file_hash' bytes 1048576 = Some (digest_of' p).
Proof.
  unfold readable, digest_of. intros [h Hh]%bool_decide_eq_true.
  rewrite Hh. simpl. destruct (content p) as [bytes|]; [|done].
  exists bytes. split; [done|]. exact Hh.
Qed.

Lemma main_walked min_bytes listing :
  walked listing →
  main' min_bytes listing
  = Some (report_lines (dup_groups' (default [] (by_size min_bytes listing))), 0).
Proof.
  intros Hw. unfold main, by_size. by rewrite by_size_loop_walked.
Qed.

Lemma duplicates_walked min_bytes listing :
  walked listing →
  duplicates' min_bytes listing
  = filter (λ g, (1 < length g.2)%nat)
      (dup_groups' (default [] (by_size min_bytes listing))).
Proof.
  intros Hw. unfold duplicates, by_size. by rewrite by_size_loop_walked.
Qed.

Lemma elem_of_hashed min_bytes listing p :
  p ∈ hashed' min_bytes listing →
  readable' p = true ∧ eligible min_bytes p = true ∧ p ∈ listing
  ∧ (2 ≤ length (filter (λ q, size_of q = size_of p)
                   (filter (λ q, eligible min_bytes q = true) listing)))%nat.
Proof.
  unfold hashed. intros [Hr Hin]%list_elem_of_filter. split; [done|].
  destruct (by_size min_bytes listing) as [sizes|] eqn:Hs; simpl in Hin;
    [|by apply elem_of_nil in Hin].
  apply list_elem_of_join in Hin as (grp & Hp & Hgrp).
  apply list_elem_of_fmap in Hgrp as ([sz grp'] & -> & Hg).
  apply list_elem_of_filter in Hg as [Hlen Hg]. simpl in *.
  destruct (by_size_grouped _ _ _ Hs) as [_ Hby].
  apply Hby in Hg as [_ ->].
  apply list_elem_of_filter in Hp as [Hsz Hp].
  apply list_elem_of_filter in Hp as [Hel Hp].
  repeat split; [done..|]. by rewrite Hsz.
Qed.

Lemma two_in_hashed min_bytes listing f1 f2 :
  walked listing →
  two_in f1 f2 listing →
  eligible min_bytes f1 = true → eligible min_bytes f2 = true →
  size_of f1 = size_of f2 → readable' f1 = true → readable' f2 = true →
  two_in f1 f2 (hashed' min_bytes listing).
Proof.
  intros Hw Htwo He1 He2 Hsz Hr1 Hr2. unfold hashed.
  apply two_in_filter; [|done..].
  assert (by_size min_bytes listing
          = Some (group_all size_of []
                    (filter (λ p, eligible min_bytes p = true) listing))) as Hs
    by (by apply by_size_loop_walked).
  rewrite Hs. simpl.
  destruct (by_size_grouped _ _ _ Hs) as [_ Hby].
  assert (two_in f1 f2 (filter (λ q, size_of q = size_of f1)
            (filter (λ q, eligible min_bytes q = true) listing))) as Hgrp.
  { apply two_in_filter; [|done..]. by apply two_in_filter. }
  eapply (two_in_join _ _ _ (size_of f1)); [|exact Hgrp].
  apply list_elem_of_filter. split.
  { simpl. by apply two_in_length in Hgrp as [? _]. }
  apply Hby. split; [|done].
  apply two_in_length in Hgrp as (_ & Hin & _). intros Heq.
  rewrite Heq in Hin. by apply elem_of_nil in Hin.
Qed.

(** What is printed for a group that holds two files of the hashed ones. *)
Lemma reported_group min_bytes listing h f1 f2 :
  walked listing →
  two_in f1 f2 (filter (λ p, digest_of' p = h) (hashed' min_bytes listing)) →
  ∃ fs out,
    (h, fs) ∈ duplicates' min_bytes listing ∧ two_in f1 f2 fs
    ∧ main' min_bytes listing = Some (out, 0)
    ∧ out ≠ ["No duplicates found."]
    ∧ ∀ p, p ∈ fs → path p ∈ out.
Proof.
  intros Hw Hfs.
  set (fs := filter (λ p, digest_of' p = h) (hashed' min_bytes listing)) in *.
  destruct (two_in_length _ _ _ Hfs) as (Hlen & Hin1 & _).
  assert (by_size min_bytes listing
          = Some (default [] (by_size min_bytes listing))) as Hs.
  { unfold by_size. by rewrite by_size_loop_walked. }
  destruct (dup_groups_grouped _ _ _ Hs) as [_ Hgr].
  assert ((h, fs) ∈ duplicates' min_bytes listing) as Hdup.
  { rewrite duplicates_walked by done.
    apply list_elem_of_filter. split; [simpl; lia|].
    apply Hgr. split; [|done]. intros Heq. rewrite Heq in Hin1.
    by apply elem_of_nil in Hin1. }
  exists fs. eexists. split; [done|]. split; [done|].
  rewrite main_walked by done. split; [reflexivity|].
  rewrite duplicates_walked in Hdup by done.
  unfold report_lines.
  destruct (filter _ (dup_groups' _)) as [|g gs] eqn:Hd.
  { by apply elem_of_nil in Hdup. }
  rewrite <- Hd in *. clear Hd g gs.
  split.
  - intros Heq. apply (f_equal length) in Heq.
    apply list_elem_of_split in Hdup as (l1 & l2 & Hsplit).
    rewrite Hsplit in Heq. rewrite bind_app, bind_cons in Heq.
    rewrite !length_app in Heq. simpl in Heq. rewrite length_fmap in Heq. lia.
  - intros p Hp. apply list_elem_of_bind. exists (h, fs). split; [|done].
    simpl. right. apply list_elem_of_fmap. by exists p.
Qed.
End DupesMain.

Section FileHashFacts.
Context {H : Type} (sha256 : H) (update : H → list Byte.byte → H)
  (hexdigest : H → string) (can_read : Z → bool).
(** Feeding a hash object two pieces is feeding it their concatenation. *)
Hypothesis update_app : ∀ h a b, update (update h a) b = update h (a ++ b).

Lemma f_read_positive chunk rest :
  0 < chunk → can_read chunk = true →
  f_read can_read chunk rest = Some (take (Z.to_nat chunk) rest).
Proof.
  unfold f_read. intros Hpos Hcan.
  rewrite !bool_decide_eq_false_2 by lia. by rewrite Hcan.
Qed.

Lemma read_loop_positive fuel chunk h rest :
  0 < chunk → can_read chunk = true →
  (length rest < fuel)%nat →
  read_loop update can_read fuel chunk h rest
  = Some match rest with [] => h | _ => update h rest end.
Proof.
  intros Hpos Hcan. revert h rest.
  induction fuel as [|fuel IH]; intros h rest Hfuel; [lia|].
  simpl. rewrite f_read_positive by done. simpl.
  destruct rest as [|x rest]; [by rewrite take_nil|].
  destruct (Z.to_nat chunk) as [|n] eqn:Hn; [lia|]. simpl.
  rewrite IH by (rewrite length_drop, length_take; simpl in *; lia).
  rewrite length_take. f_equal.
  destruct (decide (n < length rest)%nat) as [Hlt|Hge].
  - rewrite Nat.min_l by lia.
    destruct (drop n rest) as [|y l] eqn:Hdrop.
    + apply (f_equal length) in Hdrop. rewrite length_drop in Hdrop.
      simpl in Hdrop. lia.
    + rewrite update_app. simpl. by rewrite <- Hdrop, take_drop.
  - rewrite Nat.min_r by lia. rewrite drop_all. by rewrite take_ge by lia.
Qed.

Lemma read_loop_everything fuel h rest :
  rest = [] ∨ can_read (Z.of_nat (length rest)) = true →
  (length rest < fuel)%nat →
  read_loop update can_read fuel (-1) h rest
  = Some match rest with [] => h | _ => update h rest end.
Proof.
  intros Hcan Hfuel. destruct fuel as [|fuel]; [lia|].
  destruct rest as [|x rest]; [done|].
  destruct Hcan as [?|Hcan]; [done|].
  simpl. unfold f_read at 1. simpl. simpl in Hcan. rewrite Hcan. simpl.
  rewrite drop_all. by destruct fuel.
Qed.

(** X24. For a hash object on which feeding two pieces is feeding their
    concatenation: [file_hash] raises when the chunk size is below [-1], or
    is a positive size that the platform cannot read at once, or is [-1] on
    a file whose bytes it cannot read at once. With chunk size [-1], or a
    positive one, that can be read it digests the whole file, so the digest
    is that of the bytes fed at once (of nothing for an empty file). With a
    chunk size of zero the first read is empty and the digest is that of
    nothing. *)
Theorem file_hash_chunks (bytes : list Byte.byte) (chunk : Z) :
  (chunk < -1 ∨ (0 < chunk ∧ can_read chunk = false)
   ∨ (chunk = -1 ∧ bytes ≠ [] ∧ can_read (Z.of_nat (length bytes)) = false) →
   file_hash sha256 update hexdigest can_read bytes chunk = None)
  ∧ ((0 < chunk ∧ can_read chunk = true)
     ∨ (chunk = -1 ∧ (bytes = [] ∨ can_read (Z.of_nat (length bytes)) = true)) →
     (bytes ≠ [] →
      file_hash sha256 update hexdigest can_read bytes chunk
      = Some (hexdigest (update sha256 bytes)))
     ∧ (bytes = [] →
        file_hash sha256 update hexdigest can_read bytes chunk
        = Some (hexdigest sha256)))
  ∧ (chunk = 0 →
     file_hash sha256 update hexdigest can_read bytes chunk
     = Some (hexdigest sha256)).
Proof.
  unfold file_hash. split; [|split].
  - intros Hbad. simpl. unfold f_read.
    destruct Hbad as [?|[[? Hcan]|(-> & Hne & Hcan)]].
    + by rewrite bool_decide_eq_true_2 by lia.
    + rewrite !bool_decide_eq_false_2 by lia. by rewrite Hcan.
    + simpl. rewrite Hcan. by rewrite bool_decide_eq_false_2.
  - intros [[Hpos Hcan]|[-> Hcan]].
    + rewrite read_loop_positive by (done || lia).
      split; [by destruct bytes|by intros ->].
    + rewrite read_loop_everything by (done || lia).
      split; [by destruct bytes|by intros ->].
  - intros ->. simpl. by destruct bytes.
Qed.
End FileHashFacts.

Section DupesReport.
Context {H : Type} (sha256 : H) (update : H → list Byte.byte → H)
  (hexdigest : H → string) (can_read : Z → bool).

(** X25. Every group that [main] reports holds two files or more, and every
    file in it was listed, is a regular file whose size could be read and is
    at least [--min-bytes], shares that size with another such file, and
    could be read, with the digest the group is printed under. *)
Theorem duplicates_sound (min_bytes : Z) (listing : list file) (h : string)
    (fs : list file) :
  (h, fs) ∈ duplicates sha256 update hexdigest can_read min_bytes listing →
  (2 ≤ length fs)%nat
  ∧ ∀ p, p ∈ fs →
      p ∈ listing ∧ is_file p = Some true
      ∧ (∃ sz, st_size p = Some sz ∧ min_bytes ≤ sz
           ∧ (2 ≤ length (filter (λ q, st_size q = Some sz)
                            (filter (λ q, eligible min_bytes q = true) listing)))%nat)
      ∧ ∃ bytes, content p = Some bytes
           ∧ file_hash sha256 update hexdigest can_read bytes 1048576 = Some h.
Proof.
  unfold duplicates.
  destruct (by_size min_bytes listing) as [sizes|] eqn:Hs;
    [|by intros ?%elem_of_nil].
  intros [Hlen Hin]%list_elem_of_filter. simpl in Hlen.
  split; [lia|]. intros p Hp.
  destruct (dup_groups_grouped sha256 update hexdigest can_read _ _ _ Hs)
    as [_ Hgr].
  apply Hgr in Hin as [_ ->].
  apply list_elem_of_filter in Hp as [Hdig Hp].
  apply elem_of_hashed in Hp as (Hr & Hel & Hp & Hshare).
  destruct (eligible_inv _ _ Hel) as (Hfile & sz & Hst & Hmin & Hsz).
  repeat split; [done..| |].
  - exists sz. repeat split; [done..|].
    rewrite Hsz in Hshare.
    erewrite list_filter_filter in Hshare. erewrite list_filter_filter.
    erewrite (list_filter_iff _ (λ q, size_of q = sz ∧ eligible min_bytes q = true));
      [exact Hshare|].
    intros q. split; intros [Hq Hq']; (split; [|done]).
    + unfold size_of. by rewrite Hq.
    + destruct (eligible_inv _ _ Hq') as (_ & sz' & Hst' & _ & Hsz').
      rewrite Hst'. f_equal. congruence.
  - apply readable_inv in Hr as (bytes & Hc & Hh).
    exists bytes. split; [done|]. by rewrite Hh, Hdig.
Qed.

(** X26. On a tree that the walk gets through, two listed regular files of
    the same size, at least [--min-bytes], that can both be hashed and have
    the same digest (so any two with the same bytes) are reported together:
    one printed group holds both, in the order of the listing, [main]
    returns 0, its output is not the fallback line, and both paths are
    printed. *)
Theorem duplicates_complete (min_bytes : Z) (listing : list file)
    (f1 f2 : file) (b1 b2 : list Byte.byte) (h : string) :
  walked listing →
  two_in f1 f2 listing →
  eligible min_bytes f1 = true → eligible min_bytes f2 = true →
  st_size f1 = st_size f2 →
  content f1 = Some b1 → content f2 = Some b2 →
  file_hash sha256 update hexdigest can_read b1 1048576 = Some h →
  file_hash sha256 update hexdigest can_read b2 1048576 = Some h →
  ∃ fs out,
    (h, fs) ∈ duplicates sha256 update hexdigest can_read min_bytes listing
    ∧ two_in f1 f2 fs
    ∧ main sha256 update hexdigest can_read min_bytes listing = Some (out, 0)
    ∧ out ≠ ["No duplicates found."]
    ∧ path f1 ∈ out ∧ path f2 ∈ out.
Proof.
  intros Hw Htwo He1 He2 Hst Hc1 Hc2 Hh1 Hh2.
  assert (readable sha256 update hexdigest can_read f1 = true) as Hr1.
  { unfold readable. rewrite Hc1. simpl. rewrite Hh1.
    apply bool_decide_eq_true. by eexists. }
  assert (readable sha256 update hexdigest can_read f2 = true) as Hr2.
  { unfold readable. rewrite Hc2. simpl. rewrite Hh2.
    apply bool_decide_eq_true. by eexists. }
  destruct (reported_group sha256 update hexdigest can_read min_bytes listing
              h f1 f2 Hw) as (fs & out & Hdup & Hfs & Hmain & Hout & Hpaths).
  { apply two_in_filter.
    - apply two_in_hashed; try done. unfold size_of. by rewrite Hst.
    - unfold digest_of. rewrite Hc1. simpl. by rewrite Hh1.
    - unfold digest_of. rewrite Hc2. simpl. by rewrite Hh2. }
  exists fs, out. destruct (two_in_length _ _ _ Hfs) as (_ & Hin1 & Hin2).
  repeat split; auto.
Qed.

(** X27. No listed file is reported twice: the files of all printed groups
    together are, up to order, part of the listing, each as often as it was
    listed; and no digest heads two groups. *)
Theorem duplicates_once (min_bytes : Z) (listing : list file) :
  mjoin (duplicates sha256 update hexdigest can_read min_bytes listing).*2
    ⊆+ listing
  ∧ NoDup (duplicates sha256 update hexdigest can_read min_bytes listing).*1.
Proof.
  unfold duplicates.
  destruct (by_size min_bytes listing) as [sizes|] eqn:Hs.
  2:{ split; [apply submseteq_nil_l|constructor]. }
  destruct (by_size_Some _ _ _ Hs) as [_ Hsizes].
  split.
  - etransitivity; [apply sublist_submseteq, join_filter_sublist|].
    unfold dup_groups. rewrite group_fold, group_all_values. simpl.
    etransitivity; [apply sublist_submseteq, sublist_filter|].
    etransitivity; [apply sublist_submseteq, join_filter_sublist|].
    rewrite Hsizes, group_all_values. simpl.
    apply sublist_submseteq, sublist_filter.
  - destruct (dup_groups_grouped sha256 update hexdigest can_read _ _ _ Hs)
      as [Hnd _].
    eapply sublist_NoDup; [exact Hnd|]. apply fmap_sublist, sublist_filter.
Qed.

(** X28. [main] lets an exception escape exactly when [is_file] raises for
    an entry of the tree. When it returns, it has printed the fallback line
    exactly when no two of the files it hashed have the same digest. *)
Theorem main_fallback (min_bytes : Z) (listing : list file) :
  (main sha256 update hexdigest can_read min_bytes listing = None
   ↔ ∃ p, p ∈ listing ∧ is_file p = None)
  ∧ ∀ out rc,
      main sha256 update hexdigest can_read min_bytes listing = Some (out, rc) →
      (out = ["No duplicates found."]
       ↔ ∀ f1 f2,
           two_in f1 f2 (hashed sha256 update hexdigest can_read min_bytes listing) →
           digest_of sha256 update hexdigest can_read f1
           ≠ digest_of sha256 update hexdigest can_read f2).
Proof.
  split.
  { rewrite <- (by_size_loop_None min_bytes []). unfold main, by_size.
    by destruct (by_size_loop _ _ _). }
  intros out rc Hmain.
  destruct (by_size min_bytes listing) as [sizes|] eqn:Hs;
    [|by unfold main in Hmain; rewrite Hs in Hmain].
  destruct (by_size_Some _ _ _ Hs) as [Hw _].
  destruct (dup_groups_grouped sha256 update hexdigest can_read _ _ _ Hs)
    as [_ Hgr].
  split.
  - intros -> f1 f2 Htwo Hdig.
    destruct (reported_group sha256 update hexdigest can_read min_bytes listing
                (digest_of sha256 update hexdigest can_read f1) f1 f2 Hw)
      as (fs & out & _ & _ & Hmain' & Hout & _).
    { by apply two_in_filter. }
    rewrite Hmain in Hmain'. by injection Hmain' as <- _.
  - intros Hno. unfold main in Hmain. rewrite Hs in Hmain. simpl in Hmain.
    injection Hmain as <- _. unfold report_lines.
    destruct (filter _ (dup_groups _ _ _ _ sizes)) as [|[h fs] gs] eqn:Hd; [done|].
    exfalso.
    assert ((h, fs) ∈ filter (λ g, (1 < length g.2)%nat)
                         (dup_groups sha256 update hexdigest can_read sizes))
      as Hdup by (rewrite Hd; left).
    apply list_elem_of_filter in Hdup as [Hlen Hin].
    simpl in Hlen. apply Hgr in Hin as [_ Hfs].
    destruct fs as [|a [|b r]]; simpl in Hlen; [lia..|].
    assert (two_in a b (a :: b :: r)) as Htwo by (by exists [], [], r).
    rewrite Hfs in Htwo.
    apply two_in_length in Htwo as Hab. destruct Hab as (_ & Ha & Hb).
    apply list_elem_of_filter in Ha as [Ha _].
    apply list_elem_of_filter in Hb as [Hb _].
    apply (Hno a b); [|congruence].
    apply two_in_sublist. apply two_in_sublist in Htwo.
    etransitivity; [exact Htwo|]. apply sublist_filter.
Qed.
End DupesReport.

Lemma file_hash_chunks_witness :
  file_hash SampleDupes.sha256 SampleDupes.update SampleDupes.hexdigest
    SampleDupes.can_read (String.list_byte_of_string "abcde") (-2) = None
  ∧ file_hash SampleDupes.sha256 SampleDupes.update SampleDupes.hexdigest
      SampleDupes.can_read (String.list_byte_of_string "abcde") 2
    = Some (SampleDupes.hexdigest
              (SampleDupes.update SampleDupes.sha256
                 (String.list_byte_of_string "abcde"))).
Proof.
  split.
  - apply (file_hash_chunks SampleDupes.sha256 SampleDupes.update
             SampleDupes.hexdigest SampleDupes.can_read
             (λ h a b, eq_sym (app_assoc h a b))
             (String.list_byte_of_string "abcde") (-2)).
    left. lia.
  - apply (file_hash_chunks SampleDupes.sha256 SampleDupes.update
             SampleDupes.hexdigest SampleDupes.can_read
             (λ h a b, eq_sym (app_assoc h a b))
             (String.list_byte_of_string "abcde") 2).
    + left. split; [lia|reflexivity].
    + vm_compute. discriminate.
Defined.

Lemma duplicates_sound_witness :
  (2 ≤ length [SampleDupes.notes; SampleDupes.copy])%nat
  ∧ ∀ p, p ∈ [SampleDupes.notes; SampleDupes.copy] →
      p ∈ SampleDupes.listing ∧ is_file p = Some true
      ∧ (∃ sz, st_size p = Some sz ∧ 1 ≤ sz
           ∧ (2 ≤ length (filter (λ q, st_size q = Some sz)
                            (filter (λ q, eligible 1 q = true)
                               SampleDupes.listing)))%nat)
      ∧ ∃ bytes, content p = Some bytes
           ∧ file_hash SampleDupes.sha256 SampleDupes.update
               SampleDupes.hexdigest SampleDupes.can_read bytes 1048576
             = Some "abc".
Proof.
  apply (duplicates_sound SampleDupes.sha256 SampleDupes.update
           SampleDupes.hexdigest SampleDupes.can_read 1 SampleDupes.listing
           "abc" [SampleDupes.notes; SampleDupes.copy]).
  vm_compute. apply list_elem_of_here.
Defined.

Lemma sample_tree_walked : walked SampleDupes.listing.
Proof.
  intros p Hp. unfold SampleDupes.listing in Hp.
  repeat (apply elem_of_cons in Hp as [->|Hp]; [done|]).
  by apply elem_of_nil in Hp.
Qed.

Lemma duplicates_complete_witness :
  ∃ fs out,
    ("abc", fs) ∈ duplicates SampleDupes.sha256 SampleDupes.update
                    SampleDupes.hexdigest SampleDupes.can_read 1
                    SampleDupes.listing
    ∧ two_in SampleDupes.notes SampleDupes.copy fs
    ∧ main SampleDupes.sha256 SampleDupes.update SampleDupes.hexdigest
        SampleDupes.can_read 1 SampleDupes.listing = Some (out, 0)
    ∧ out ≠ ["No duplicates found."]
    ∧ path SampleDupes.notes ∈ out ∧ path SampleDupes.copy ∈ out.
Proof.
  apply (duplicates_complete SampleDupes.sha256 SampleDupes.update
           SampleDupes.hexdigest SampleDupes.can_read 1 SampleDupes.listing
           SampleDupes.notes SampleDupes.copy
           (String.list_byte_of_string "abc") (String.list_byte_of_string "abc")
           "abc").
  - apply sample_tree_walked.
  - exists [], [SampleDupes.sub],
      [SampleDupes.other; SampleDupes.locked; SampleDupes.gone; SampleDupes.long].
    reflexivity.
  - reflexivity.
  - reflexivity.
  - reflexivity.
  - reflexivity.
  - reflexivity.
  - vm_compute. reflexivity.
  - vm_compute. reflexivity.
Defined.

Lemma main_fallback_witness :
  (main SampleDupes.sha256 SampleDupes.update SampleDupes.hexdigest
     SampleDupes.can_read 4 SampleDupes.listing = None
   ↔ ∃ p, p ∈ SampleDupes.listing ∧ is_file p = None)
  ∧ (["No duplicates found."] = ["No duplicates found."]
     ↔ ∀ f1 f2,
         two_in f1 f2 (hashed SampleDupes.sha256 SampleDupes.update
                         SampleDupes.hexdigest SampleDupes.can_read 4
                         SampleDupes.listing) →
         digest_of SampleDupes.sha256 SampleDupes.update SampleDupes.hexdigest
           SampleDupes.can_read f1
         ≠ digest_of SampleDupes.sha256 SampleDupes.update SampleDupes.hexdigest
             SampleDupes.can_read f2).
Proof.
  pose proof (main_fallback SampleDupes.sha256 SampleDupes.update
                SampleDupes.hexdigest SampleDupes.can_read 4 SampleDupes.listing)
    as [Hnone Hsome].
  split; [exact Hnone|].
  apply (Hsome ["No duplicates found."] 0).
  vm_compute. reflexivity.
Defined.
End DupesFacts.

(** * The largest-files finder *)

Module BigfilesFacts.
Import Dupes Bigfiles.

Section BigfilesMain.
Context (path_lt : string → string → bool) (format_mb : Z → string).

Lemma files_step_answered min_bytes files p :
  is_file p ≠ None →
  files_step min_bytes files p
  = Some (if decide (eligible min_bytes p = true)
          then files ++ [(size_of p, path p)] else files).
Proof.
  unfold files_step, eligible, size_of.
  destruct (is_file p) as [[]|], (st_size p) as [sz|]; simpl; try done;
    intros _; try case_bool_decide;
    first [done | by rewrite decide_True | by rewrite decide_False].
Qed.

Lemma collect_loop_walked min_bytes files listing :
  walked listing →
  collect_loop min_bytes files listing
  = Some (files ++ ((λ p, (size_of p, path p))
                      <$> filter (λ p, eligible min_bytes p = true) listing)).
Proof.
  revert files. induction listing as [|p listing IH]; intros files Hw; simpl.
  { by rewrite app_nil_r. }
  rewrite files_step_answered by (apply Hw; left). simpl.
  rewrite IH by (intros q Hq; apply Hw; by right).
  rewrite filter_cons. destruct (decide (_ = true)); [|done].
  by rewrite fmap_cons, <- app_assoc.
Qed.

Lemma collect_loop_None min_bytes files listing :
  collect_loop min_bytes files listing = None
  ↔ ∃ p, p ∈ listing ∧ is_file p = None.
Proof.
  revert files. induction listing as [|p listing IH]; intros files; simpl.
  { split; [done|]. by intros (? & ?%elem_of_nil & _). }
  destruct (is_file p) as [b|] eqn:Hp.
  - rewrite files_step_answered by congruence. simpl. rewrite IH.
    split.
    + intros (q & ? & ?). exists q. split; [by right|done].
    + intros (q & [->|?]%elem_of_cons & Hq); [congruence|eauto].
  - unfold files_step. rewrite Hp. simpl. split; [|done].
    intros _. exists p. split; [left|done].
Qed.

Lemma collect_Some min_bytes listing files :
  collect min_bytes listing = Some files →
  walked listing
  ∧ files = (λ p, (size_of p, path p))
              <$> filter (λ p, eligible min_bytes p = true) listing.
Proof.
  intros Hs.
  assert (walked listing) as Hw.
  { intros p Hp Hnone.
    assert (collect min_bytes listing = None) as Hn
      by (apply collect_loop_None; eauto).
    congruence. }
  split; [done|]. unfold collect in Hs.
  rewrite collect_loop_walked in Hs by done. simpl in Hs. congruence.
Qed.

Lemma sort_reverse_descending files :
  StronglySorted (λ a b, b.1 ≤ a.1) (sort_reverse path_lt files).
Proof.
  unfold sort_reverse. induction files as [|x files IH]; simpl; [constructor|].
  revert IH. generalize (sorted (λ a b, negb (tuple_lt path_lt a b)) files).
  intros l. induction 1 as [|y l Hl IH Hy]; simpl.
  { repeat constructor. }
  destruct (negb (tuple_lt path_lt x y)) eqn:Hxy.
  - constructor; [by constructor|].
    assert (y.1 ≤ x.1) as Hle.
    { apply negb_true_iff in Hxy. unfold tuple_lt in Hxy.
      case_bool_decide; [lia|]. apply bool_decide_eq_false in Hxy. lia. }
    constructor; [done|]. eapply Forall_impl; [exact Hy|]. simpl. lia.
  - constructor; [done|].
    assert (x.1 ≤ y.1) as Hle.
    { apply negb_false_iff in Hxy. unfold tuple_lt in Hxy.
      case_bool_decide; [lia|]. apply bool_decide_eq_true in Hxy. lia. }
    apply Forall_forall. intros z Hz.
    rewrite insert_sorted_Permutation in Hz.
    apply elem_of_cons in Hz as [->|Hz]; [done|].
    rewrite Forall_forall in Hy. by apply Hy.
Qed.

Lemma slice_to_prefix {A} top (l : list A) :
  ∃ rest, l = slice_to top l ++ rest
    ∧ length (slice_to top l)
      = Z.to_nat (if bool_decide (top < 0) then Z.of_nat (length l) + top
                  else Z.min top (Z.of_nat (length l))).
Proof.
  unfold slice_to. case_bool_decide.
  - exists (drop (Z.to_nat (Z.of_nat (length l) + top)) l).
    rewrite take_drop, length_take. split; [done|]. lia.
  - exists (drop (Z.to_nat top) l).
    rewrite take_drop, length_take. split; [done|]. lia.
Qed.

(** X29. The files [main] prints are regular files of the listing whose size
    could be read and is at least [--min-mb] mebibytes, largest first.
    [main] lets an exception escape exactly when [is_file] raises for an
    entry of the tree; on a tree that the walk gets through it returns 0
    after one line per printed file, their number is [--top] or the number
    of such files if that is less (for a negative [--top], that many fewer
    than there are), and each such file that is left out is no larger than
    any that is printed. *)
Theorem bigfiles_shown (min_mb top : Z) (listing : list file) :
  let n := length (filter (λ p, eligible (min_mb * 1024 * 1024) p = true) listing) in
  (∀ sz p, (sz, p) ∈ shown path_lt min_mb top listing →
     ∃ f, f ∈ listing ∧ is_file f = Some true ∧ st_size f = Some sz ∧ path f = p
          ∧ min_mb * 1048576 ≤ sz)
  ∧ StronglySorted (λ a b, b.1 ≤ a.1) (shown path_lt min_mb top listing)
  ∧ (main path_lt format_mb min_mb top listing = None
     ↔ ∃ p, p ∈ listing ∧ is_file p = None)
  ∧ (walked listing →
     length (shown path_lt min_mb top listing)
     = Z.to_nat (if bool_decide (top < 0) then Z.of_nat n + top
                 else Z.min top (Z.of_nat n))
     ∧ (∃ files rest,
          collect (min_mb * 1024 * 1024) listing = Some files
          ∧ shown path_lt min_mb top listing ++ rest ≡ₚ files
          ∧ ∀ a b, a ∈ shown path_lt min_mb top listing → b ∈ rest → b.1 ≤ a.1)
     ∧ ∃ lines,
         main path_lt format_mb min_mb top listing = Some (lines, 0)
         ∧ length lines = length (shown path_lt min_mb top listing)).
Proof.
  intros n. unfold main, shown.
  assert (collect (min_mb * 1024 * 1024) listing = None
          ↔ ∃ p, p ∈ listing ∧ is_file p = None) as Hnone
    by apply collect_loop_None.
  destruct (collect (min_mb * 1024 * 1024) listing) as [files|] eqn:Hc; simpl.
  2:{ split; [by intros ?? ?%elem_of_nil|]. split; [constructor|].
      split; [by rewrite <- Hnone|].
      intros Hw. exfalso. destruct Hnone as [(p & Hp & Hnone) _]; [done|].
      by apply (Hw p). }
  destruct (collect_Some _ _ _ Hc) as [Hw Hfiles].
  destruct (slice_to_prefix top (sort_reverse path_lt files))
    as (rest & Hsplit & Hlen).
  pose proof (sort_reverse_descending files) as Hsorted.
  assert (sort_reverse path_lt files ≡ₚ files) as Hperm
    by apply sorted_Permutation.
  split; [|split; [|split]].
  - intros sz p Hin.
    assert ((sz, p) ∈ files) as Hf.
    { rewrite <- Hperm, Hsplit. apply elem_of_app. by left. }
    rewrite Hfiles in Hf.
    apply list_elem_of_fmap in Hf as (f & [= -> ->] & Hf).
    apply list_elem_of_filter in Hf as [Hel Hf].
    destruct (DupesFacts.eligible_inv _ _ Hel) as (? & sz & Hst & ? & Hsz).
    exists f. repeat split; [done..| |lia]. by rewrite Hsz.
  - rewrite Hsplit in Hsorted. by apply StronglySorted_app_1_l in Hsorted.
  - split; [done|]. intros (p & Hp & Hn). by destruct (Hw p Hp).
  - intros _. split; [|split].
    + rewrite Hlen. rewrite (Permutation_length Hperm).
      by rewrite Hfiles, length_fmap.
    + exists files, rest. split; [done|]. split; [by rewrite <- Hsplit|].
      intros a b Ha Hb. rewrite Hsplit in Hsorted.
      by apply (StronglySorted_app_1_elem_of _ _ _ _ _ Hsorted).
    + eexists. split; [reflexivity|]. by rewrite length_fmap.
Qed.

(** The order of path names is a strict total order. *)
Hypothesis path_lt_irrefl : ∀ a, path_lt a a = false.
Hypothesis path_lt_trans :
  ∀ a b c, path_lt a b = true → path_lt b c = true → path_lt a c = true.
Hypothesis path_lt_total : ∀ a b, a ≠ b → path_lt a b = true ∨ path_lt b a = true.

Lemma tuple_lt_spec a b :
  tuple_lt path_lt a b = true
  ↔ a.1 < b.1 ∨ (a.1 = b.1 ∧ path_lt a.2 b.2 = true).
Proof.
  unfold tuple_lt. case_bool_decide; [case_bool_decide|].
  - split; [done|]. intros [?|[_ Hlt]]; [lia|]. congruence.
  - split; [by right|]. intros [?|[_ ?]]; [lia|done].
  - rewrite bool_decide_eq_true. split; [by left|]. intros [?|[? _]]; [done|lia].
Qed.

Lemma tuple_lt_asym a b :
  tuple_lt path_lt a b = true → tuple_lt path_lt b a = false.
Proof.
  intros Hab. apply not_true_is_false. intros Hba.
  apply tuple_lt_spec in Hab, Hba.
  destruct Hab as [?|[? Hab]], Hba as [?|[? Hba]]; try lia.
  pose proof (path_lt_trans _ _ _ Hab Hba). congruence.
Qed.

Lemma tuple_lt_connex a b :
  tuple_lt path_lt a b = false → tuple_lt path_lt b a = false → a = b.
Proof.
  intros Hab Hba. apply not_true_iff_false in Hab, Hba.
  rewrite tuple_lt_spec in Hab, Hba.
  destruct a as [sa pa], b as [sb pb]. simpl in *.
  assert (sa = sb) as -> by lia. f_equal.
  destruct (decide (pa = pb)) as [|Hne]; [done|].
  destruct (path_lt_total _ _ Hne); naive_solver.
Qed.

Lemma tuple_lt_trans a b c :
  tuple_lt path_lt a b = true → tuple_lt path_lt b c = true →
  tuple_lt path_lt a c = true.
Proof.
  rewrite !tuple_lt_spec. intros [?|[? Hab]] [?|[? Hbc]]; try (left; lia).
  right. split; [lia|]. eauto.
Qed.

Lemma sort_reverse_sorted files :
  StronglySorted (λ a b, negb (tuple_lt path_lt a b) = true)
    (sort_reverse path_lt files).
Proof.
  apply sorted_StronglySorted.
  - intros a b Hab. apply negb_false_iff in Hab. apply negb_true_iff.
    by apply tuple_lt_asym.
  - intros a b c Hab Hbc. apply negb_true_iff in Hab, Hbc. apply negb_true_iff.
    apply not_true_is_false. intros Hac.
    destruct (tuple_lt path_lt c b) eqn:Hcb.
    + pose proof (tuple_lt_trans _ _ _ Hac Hcb). congruence.
    + pose proof (tuple_lt_connex _ _ Hbc Hcb) as ->. congruence.
Qed.

(** X30. When the order of path names is a strict total order, what [main]
    prints does not depend on the order in which the tree is walked: two
    listings of the same entries give the same output, or both an escaping
    exception. *)
Theorem bigfiles_order_independent (min_mb top : Z) (listing listing' : list file) :
  listing ≡ₚ listing' →
  main path_lt format_mb min_mb top listing
  = main path_lt format_mb min_mb top listing'.
Proof.
  intros Hperm. unfold main.
  destruct (collect (min_mb * 1024 * 1024) listing) as [files|] eqn:Hc;
    destruct (collect (min_mb * 1024 * 1024) listing') as [files'|] eqn:Hc';
    simpl; [|exfalso..|done].
  - destruct (collect_Some _ _ _ Hc) as [_ ->].
    destruct (collect_Some _ _ _ Hc') as [_ ->].
    do 4 f_equal.
    apply (StronglySorted_unique_strong
             (λ a b, negb (tuple_lt path_lt a b) = true)).
    + intros a b _ _ Hab Hba. apply negb_true_iff in Hab, Hba.
      by apply tuple_lt_connex.
    + apply sort_reverse_sorted.
    + apply sort_reverse_sorted.
    + unfold sort_reverse. rewrite !sorted_Permutation. by rewrite Hperm.
  - apply collect_loop_None in Hc' as (p & Hp & Hn).
    destruct (collect_Some _ _ _ Hc) as [Hw _].
    apply (Hw p); [by rewrite Hperm|done].
  - apply collect_loop_None in Hc as (p & Hp & Hn).
    destruct (collect_Some _ _ _ Hc') as [Hw _].
    apply (Hw p); [by rewrite <- Hperm|done].
Qed.
End BigfilesMain.

Lemma sample_files_walked : walked SampleBigfiles.listing.
Proof.
  intros p Hp. unfold SampleBigfiles.listing in Hp.
  repeat (apply elem_of_cons in Hp as [->|Hp]; [done|]).
  by apply elem_of_nil in Hp.
Qed.

Lemma bigfiles_shown_witness :
  length (shown SampleBigfiles.path_lt 1 2 SampleBigfiles.listing)
  = Z.to_nat (if bool_decide (2 < 0)
              then Z.of_nat (length (filter (λ p, eligible (1 * 1024 * 1024) p = true)
                                       SampleBigfiles.listing)) + 2
              else Z.min 2 (Z.of_nat (length (filter (λ p, eligible (1 * 1024 * 1024) p = true)
                                                SampleBigfiles.listing))))
  ∧ (∃ files rest,
       collect (1 * 1024 * 1024) SampleBigfiles.listing = Some files
       ∧ shown SampleBigfiles.path_lt 1 2 SampleBigfiles.listing ++ rest ≡ₚ files
       ∧ ∀ a b, a ∈ shown SampleBigfiles.path_lt 1 2 SampleBigfiles.listing →
           b ∈ rest → b.1 ≤ a.1)
  ∧ ∃ lines,
      main SampleBigfiles.path_lt (λ sz, pretty (sz / 1048576)) 1 2
        SampleBigfiles.listing = Some (lines, 0)
      ∧ length lines = length (shown SampleBigfiles.path_lt 1 2 SampleBigfiles.listing).
Proof.
  apply (bigfiles_shown SampleBigfiles.path_lt (λ sz, pretty (sz / 1048576)) 1 2
           SampleBigfiles.listing).
  apply sample_files_walked.
Defined.

Lemma bigfiles_order_independent_witness :
  main SampleBigfiles.path_lt (λ sz, pretty (sz / 1048576)) 1 2
    SampleBigfiles.listing
  = main SampleBigfiles.path_lt (λ sz, pretty (sz / 1048576)) 1 2
      SampleBigfiles.listing'.
Proof.
  apply (bigfiles_order_independent SampleBigfiles.path_lt
           (λ sz, pretty (sz / 1048576))).
  - intros a. apply Pos.ltb_irrefl.
  - intros a b c Hab%Pos.ltb_lt Hbc%Pos.ltb_lt. apply Pos.ltb_lt. lia.
  - intros a b Hne. unfold SampleBigfiles.path_lt. rewrite !Pos.ltb_lt.
    assert (encode (A:=string) a ≠ encode b) by (by intros ?%(inj encode)). lia.
  - apply perm_swap.
Defined.
End BigfilesFacts.
